(** * LogSeq -> Notion migrator: registry and content-rewriting pipeline

    A shallow embedding of [logseq_to_notion_converter.py] and
    [logseq_to_team_template_converter.py].

    Python [str] values are sequences of Unicode code points; they are
    modelled as [list N].  The patterns handed to [re.sub]/[re.match] are
    written as lists of atoms and run by a backtracking matcher that follows
    the order in which [re] explores alternatives (greedy loops try the
    longest repetition first, lazy ones the shortest). *)

From Stdlib Require Import NArith String Ascii DecimalString Lia.
From stdpp Require Import gmap list.

Local Open Scope N_scope.

(** ** Text *)

Abbreviation text := (list N).

(** UTF-8 decoding of a source literal (the literals of this file are valid
    UTF-8, so malformed input is not treated). *)
Fixpoint utf8_dec (acc : N) (need : nat) (bs : list N) : text :=
  match bs with
  | [] => []
  | b :: bs' =>
    match need with
    | S n =>
      let acc' := acc * 64 + b mod 64 in
      match n with
      | O => acc' :: utf8_dec 0 0%nat bs'
      | S _ => utf8_dec acc' n bs'
      end
    | O =>
      if b <? 128 then b :: utf8_dec 0 0%nat bs'
      else if b <? 224 then utf8_dec (b mod 32) 1%nat bs'
      else if b <? 240 then utf8_dec (b mod 16) 2%nat bs'
      else utf8_dec (b mod 8) 3%nat bs'
    end
  end.

Definition u (s : string) : text :=
  utf8_dec 0 0%nat (map Byte.to_N (list_byte_of_string s)).

(** UTF-8 encoding of one code point, as [str.encode('utf-8')] produces it
    for a scalar value. *)
Definition utf8_enc (c : N) : list N :=
  if c <? 128 then [c]
  else if c <? 2048 then [192 + c / 64; 128 + c mod 64]
  else if c <? 65536 then [224 + c / 4096; 128 + (c / 64) mod 64; 128 + c mod 64]
  else [240 + c / 262144; 128 + (c / 4096) mod 64; 128 + (c / 64) mod 64; 128 + c mod 64].

Definition in_range (lo hi c : N) : bool := (lo <=? c) && (c <=? hi).

Definition is_upper (c : N) : bool := in_range 65 90 c.
Definition is_lower (c : N) : bool := in_range 97 122 c.
Definition is_ascii_digit (c : N) : bool := in_range 48 57 c.

(** [\s] on a [str] pattern: the code points for which [str.isspace] holds. *)
Definition is_space (c : N) : bool :=
  in_range 9 13 c || in_range 28 32 c || (c =? 133) || (c =? 160)
  || (c =? 5760) || in_range 8192 8202 c || (c =? 8232) || (c =? 8233)
  || (c =? 8239) || (c =? 8287) || (c =? 12288).

(** [\d] on a [str] pattern: the decimal digits of the Unicode database
    (general category Nd; the table of Unicode 14, which CPython 3.11
    ships).  Each entry is the code point of a digit zero; the last block
    (mathematical digits) holds fifty digits in a row. *)
Definition digit_zeros : list N :=
  [48; 1632; 1776; 1984; 2406; 2534; 2662; 2790; 2918; 3046; 3174; 3302;
   3430; 3558; 3664; 3792; 3872; 4160; 4240; 6112; 6160; 6470; 6608; 6784;
   6800; 6992; 7088; 7232; 7248; 42528; 43216; 43264; 43472; 43504; 43600;
   44016; 65296; 66720; 68912; 69734; 69872; 69942; 70096; 70384; 70736;
   70864; 71248; 71360; 71472; 71904; 72016; 72784; 73040; 73120; 92768;
   92864; 93008; 123200; 123632; 125264; 130032].

Definition is_digit (c : N) : bool :=
  existsb (fun z => in_range z (z + 9) c) digit_zeros || in_range 120782 120831 c.

(** [.] without DOTALL: anything but a line feed. *)
Definition is_dot (c : N) : bool := negb (c =? 10).

Definition one_of (cs : text) (c : N) : bool := existsb (N.eqb c) cs.
Definition none_of (cs : text) (c : N) : bool := negb (one_of cs c).

(** ** Regular expressions *)

Inductive greed := Greedy | Lazy.

Inductive atom :=
| Cls (p : N -> bool)               (* one character of a class *)
| Star (g : greed) (p : N -> bool)  (* [p*] or [p*?] *)
| GOpen                             (* ( *)
| GClose                            (* ) *)
| Bol                               (* ^ under re.MULTILINE *)
| Eol.                              (* $ under re.MULTILINE *)

Abbreviation regex := (list atom).

Definition lit (s : string) : regex := map (fun c => Cls (N.eqb c)) (u s).
Definition cls (p : N -> bool) : regex := [Cls p].
Definition many (p : N -> bool) : regex := [Star Greedy p].
Definition many1 (p : N -> bool) : regex := [Cls p; Star Greedy p].
Definition few (p : N -> bool) : regex := [Star Lazy p].
Definition times (n : nat) (p : N -> bool) : regex := repeat (Cls p) n.
Definition grp (r : regex) : regex := GOpen :: r ++ [GClose].

(** Matcher state: characters consumed since the start of the match, start
    offsets of the groups still open, spans of the groups already closed
    (in closing order, which is the numbering order since no pattern of the
    program nests groups). *)
Record mstate := MState {
  m_pos : nat;
  m_open : list nat;
  m_caps : list (nat * nat)
}.

Definition ms0 : mstate := MState 0 [] [].
Definition ms_adv (ms : mstate) : mstate :=
  MState (S (m_pos ms)) (m_open ms) (m_caps ms).
Definition ms_open (ms : mstate) : mstate :=
  MState (m_pos ms) (m_pos ms :: m_open ms) (m_caps ms).
Definition ms_close (ms : mstate) : mstate :=
  match m_open ms with
  | [] => ms
  | b :: os => MState (m_pos ms) os (m_caps ms ++ [(b, m_pos ms)])
  end.

Definition at_bol (prev : option N) : bool :=
  match prev with None => true | Some c => c =? 10 end.
Definition at_eol (s : text) : bool :=
  match s with [] => true | c :: _ => c =? 10 end.

(** [rmatch r prev ms s]: match [r] against a prefix of [s]; [prev] is the
    character just before [s] in the subject ([None] at its start).  The
    result is the length of the match and the spans of its groups. *)
Fixpoint rmatch (r : regex) (prev : option N) (ms : mstate) (s : text)
  {struct r} : option (nat * list (nat * nat)) :=
  match r with
  | [] => Some (m_pos ms, m_caps ms)
  | a :: r' =>
    match a with
    | Cls p =>
      match s with
      | c :: s' => if p c then rmatch r' (Some c) (ms_adv ms) s' else None
      | [] => None
      end
    | Star Greedy p =>
      (fix loop (prev : option N) (ms : mstate) (s : text) {struct s} :=
         match s with
         | c :: s' =>
           if p c then
             match loop (Some c) (ms_adv ms) s' with
             | Some x => Some x
             | None => rmatch r' prev ms s
             end
           else rmatch r' prev ms s
         | [] => rmatch r' prev ms s
         end) prev ms s
    | Star Lazy p =>
      (fix loop (prev : option N) (ms : mstate) (s : text) {struct s} :=
         match rmatch r' prev ms s with
         | Some x => Some x
         | None =>
           match s with
           | c :: s' => if p c then loop (Some c) (ms_adv ms) s' else None
           | [] => None
           end
         end) prev ms s
    | GOpen => rmatch r' prev (ms_open ms) s
    | GClose => rmatch r' prev (ms_close ms) s
    | Bol => if at_bol prev then rmatch r' prev ms s else None
    | Eol => if at_eol s then rmatch r' prev ms s else None
    end
  end.

Definition slice (s : text) (span : nat * nat) : text :=
  take (span.2 - span.1) (drop span.1 s).

(** [re.match]: the groups of a match anchored at the start of [s]. *)
Definition re_match (r : regex) (s : text) : option (list text) :=
  match rmatch r None ms0 s with
  | Some (_, caps) => Some (map (slice s) caps)
  | None => None
  end.

Definition matches (r : regex) (s : text) : bool :=
  match re_match r s with Some _ => true | None => false end.

(** The left-to-right scan shared by [re.sub] and [re.finditer]: the subject
    is cut into characters that are kept and non-overlapping matches. *)
Inductive piece :=
| Keep (c : N)
| Hit (whole : text) (groups : list text).

Fixpoint scan_from (r : regex) (prev : option N) (skip : nat) (s : text)
  : list piece :=
  match s with
  | [] =>
    match skip, rmatch r prev ms0 [] with
    | O, Some (_, caps) => [Hit [] (map (slice []) caps)]
    | _, _ => []
    end
  | c :: s' =>
    match skip with
    | S k => scan_from r (Some c) k s'
    | O =>
      match rmatch r prev ms0 s with
      | Some (S n, caps) =>
        Hit (take (S n) s) (map (slice s) caps) :: scan_from r (Some c) n s'
      | Some (O, caps) =>
        Hit [] (map (slice s) caps) :: Keep c :: scan_from r (Some c) 0 s'
      | None => Keep c :: scan_from r (Some c) 0 s'
      end
    end
  end.

Definition scan (r : regex) (s : text) : list piece := scan_from r None 0 s.

Definition render (repl : text -> list text -> text) (p : piece) : text :=
  match p with
  | Keep c => [c]
  | Hit w gs => repl w gs
  end.

(** [re.sub(pattern, repl, s)] with [repl] given as a function of the whole
    match and its groups. *)
Definition re_sub (r : regex) (repl : text -> list text -> text) (s : text)
  : text :=
  concat (map (render repl) (scan r s)).

(** Group [i] (from 1) of a match; the patterns below always close the
    groups they reference. *)
Definition group (gs : list text) (i : nat) : text :=
  default [] (gs !! (i - 1)%nat).

(** ** String helpers *)

Fixpoint lstrip_by (p : N -> bool) (s : text) : text :=
  match s with
  | c :: s' => if p c then lstrip_by p s' else s
  | [] => []
  end.

Definition rstrip_by (p : N -> bool) (s : text) : text :=
  reverse (lstrip_by p (reverse s)).

Definition strip_by (p : N -> bool) (s : text) : text :=
  rstrip_by p (lstrip_by p s).

(** [s.strip(chars)] *)
Definition strip (cs : text) (s : text) : text := strip_by (one_of cs) s.

(** [s.strip()] *)
Definition strip_space (s : text) : text := strip_by is_space s.

(** [s.split()]: the maximal runs of characters that are not white space.
    [cur] holds the run being read, reversed. *)
Fixpoint words_from (cur : text) (s : text) : list text :=
  match s with
  | [] => match cur with [] => [] | _ :: _ => [reverse cur] end
  | c :: s' =>
    if is_space c then
      match cur with
      | [] => words_from [] s'
      | _ :: _ => reverse cur :: words_from [] s'
      end
    else words_from (c :: cur) s'
  end.

Definition words (s : text) : list text := words_from [] s.

(** [sep.join(parts)] *)
Fixpoint join (sep : text) (parts : list text) : text :=
  match parts with
  | [] => []
  | [p] => p
  | p :: ps => p ++ sep ++ join sep ps
  end.

(** [s.split(sep)] for a one-character separator. *)
Fixpoint split_on (sep : N) (s : text) : list text :=
  match s with
  | [] => [[]]
  | c :: s' =>
    if c =? sep then [] :: split_on sep s'
    else match split_on sep s' with
         | w :: ws => (c :: w) :: ws
         | [] => [[c]]
         end
  end.

(** [needle in s] *)
Fixpoint starts_with (p s : text) : bool :=
  match p, s with
  | [], _ => true
  | a :: p', b :: s' => (a =? b) && starts_with p' s'
  | _ :: _, [] => false
  end.

Fixpoint contains (needle s : text) : bool :=
  starts_with needle s ||
  match s with
  | [] => false
  | _ :: s' => contains needle s'
  end.

(** [str(n)] for a non-negative integer. *)
Definition str_of_nat (n : nat) : text :=
  u (NilZero.string_of_uint (Nat.to_uint n)).

Definition hex_digit (d : N) : N := if d <? 10 then 48 + d else 55 + d.

(** [urllib.parse.quote(s, safe)]: the UTF-8 bytes of [s], each left as it
    is when it is an ASCII letter, a digit, one of [_.-~] or listed in
    [safe], and written [%XX] (upper-case hexadecimal) otherwise. *)
Definition quote_byte (safe : text) (b : N) : text :=
  if is_upper b || is_lower b || is_ascii_digit b
     || one_of (u "_.-~") b || one_of safe b
  then [b]
  else [37; hex_digit (b / 16); hex_digit (b mod 16)].

Definition quote (safe : text) (s : text) : text :=
  concat (map (quote_byte safe) (concat (map utf8_enc s))).

(** [os.path.basename] (POSIX): what follows the last slash. *)
Definition basename (p : text) : text := default [] (last (split_on 47 p)).

(** ** Exceptions and mutable state

    A method of a converter object is a function from the object's state to
    a result and the state it leaves behind.  A raised exception keeps the
    state reached so far, as in Python. *)

Inductive exn :=
| TypeError (msg : text)
| ValueError (msg : text)
| OSError (msg : text).

(** [str(e)] *)
Definition exn_str (e : exn) : text :=
  match e with TypeError m | ValueError m | OSError m => m end.

Inductive res (A : Type) :=
| Val (a : A)
| Exc (e : exn).
Arguments Val {A} a.
Arguments Exc {A} e.

Definition M (S A : Type) : Type := S -> res A * S.

Definition raise {S A} (e : exn) : M S A := fun s => (Exc e, s).
Definition get {S} : M S S := fun s => (Val s, s).
Definition modify {S} (f : S -> S) : M S unit := fun s => (Val tt, f s).

#[global] Instance M_ret {S} : MRet (M S) := fun A a s => (Val a, s).
#[global] Instance M_bind {S} : MBind (M S) := fun A B k m s =>
  match m s with
  | (Val a, s') => k a s'
  | (Exc e, s') => (Exc e, s')
  end.

(** [try: body  except Exception as e: handler(e)] *)
Definition try_except {S A} (body : M S A) (handler : exn -> M S A) : M S A :=
  fun s => match body s with
           | (Val a, s') => (Val a, s')
           | (Exc e, s') => handler e s'
           end.

(** [for x in xs: body(x)] *)
Fixpoint for_each {S A} (xs : list A) (body : A -> M S unit) : M S unit :=
  match xs with
  | [] => mret tt
  | x :: xs' => body x;; for_each xs' body
  end.

(** [re.sub] with a replacement function that acts on the object: the
    function is called once per match, from left to right. *)
Fixpoint render_m {S} (repl : text -> list text -> M S text) (ps : list piece)
  : M S text :=
  match ps with
  | [] => mret []
  | Keep c :: ps' => rest ← render_m repl ps'; mret (c :: rest)
  | Hit w gs :: ps' =>
    t ← repl w gs; rest ← render_m repl ps'; mret (t ++ rest)
  end.

Definition re_sub_m {S} (r : regex) (repl : text -> list text -> M S text)
  (s : text) : M S text :=
  render_m repl (scan r s).

(** ** The outside world *)

(** A source file: its decoded content, or the message of the exception that
    opening or decoding it raises. *)
Inductive source :=
| Content (body : text)
| Unreadable (why : text).

(** A LogSeq export as the converters see it: the stems of [pages/*.md] and
    [journals/*.md] in the order [glob] yields them (a missing directory is
    an empty list), and the files below [assets/] if that directory exists. *)
Record export := Export {
  logseq_path : text;
  pages : list (text * source);
  journals : list (text * source);
  assets : option (list text)
}.

(** What a run does not control: the tokens [uuid.uuid4().hex] returns on
    successive calls, whether writing a file of a given name fails (and the
    message of the exception), how far a failing write got, and the result
    of zipping.  A write is [open(path, 'w')] followed by [f.write] and the
    close of the file: [open] creates the file or empties it, so a failure
    that comes after [open] leaves the file with the characters written so
    far.  For a name whose write fails, [write_progress] is [None] when
    [open] itself fails (the file is neither created nor changed) and
    [Some n] when the failure comes later, after [n] characters of the
    content reached the file. *)
Record world := World {
  uuid4_hex : nat -> text;
  write_error : text -> option text;
  write_progress : text -> option nat;
  output_path : text;
  outer_output_path : text;
  zip_error : option text;
  zip_size_mb : text
}.

(** ** Code shared by the two converters *)

(** The characters of the class in [sanitize_filename]: less-than,
    greater-than, colon, double quote, slash, backslash, bar, question mark
    and asterisk. *)
Definition path_hostile : text := [60; 62; 58; 34; 47; 92; 124; 63; 42].

Definition sanitize_filename (filename : text) : text :=
  let filename :=
    re_sub (cls (one_of path_hostile)) (fun _ _ => u "_") filename in
  strip (u ". ") filename.

(** [r'\[\[([^\]]+)\]\]'] *)
Definition re_page_link : regex :=
  lit "[[" ++ grp (many1 (none_of (u "]"))) ++ lit "]]".

(** [r'\d{4}_\d{2}_\d{2}'] *)
Definition re_date_key : regex :=
  times 4 is_digit ++ lit "_" ++ times 2 is_digit ++ lit "_" ++ times 2 is_digit.

(** [year, month, day = date_str.split('_')] *)
Definition unpack3 {S} (parts : list text) : M S (text * text * text) :=
  match parts with
  | [a; b; c] => mret (a, b, c)
  | _ :: _ :: _ :: _ :: _ =>
    raise (ValueError (u "too many values to unpack (expected 3)"))
  | _ =>
    raise (ValueError (u "not enough values to unpack (expected 3, got "
                       ++ str_of_nat (length parts) ++ u ")"))
  end.

(** ** [LogSeqToNotionConverter] *)

Module Notion.

(** The JSON report, before serialisation. *)
Record report := Report {
  total_pages : nat;
  rp_page_mapping : gmap text (text * text);
  rp_asset_mapping : gmap text text;
  rp_conversion_log : list text
}.

(** The attributes of a converter object, the files it has written below
    [self.output_path], and the number of tokens it has drawn.
    [generate_uuid] is the instance attribute that [__init__] sets from its
    argument of the same name.  [written_report] is the report once it has
    been written whole. *)
Record converter := Converter {
  generate_uuid : bool;
  page_mapping : gmap text (text * text);
  asset_mapping : gmap text text;
  conversion_log : list text;
  output_files : gmap text text;
  written_report : option report;
  uuid_draws : nat
}.

(** The object [__init__] leaves behind (the checks of the export path and
    the creation of the output directory are not modelled). *)
Definition init (generate_uuid : bool) : converter :=
  Converter generate_uuid ∅ ∅ [] ∅ None 0.

Definition set_page_mapping (k : text) (v : text * text) (self : converter)
  : converter :=
  Converter (generate_uuid self) (<[k := v]> (page_mapping self))
    (asset_mapping self) (conversion_log self) (output_files self)
    (written_report self) (uuid_draws self).

Definition set_asset_mapping (k v : text) (self : converter) : converter :=
  Converter (generate_uuid self) (page_mapping self)
    (<[k := v]> (asset_mapping self)) (conversion_log self)
    (output_files self) (written_report self) (uuid_draws self).

Definition append_log (entry : text) (self : converter) : converter :=
  Converter (generate_uuid self) (page_mapping self) (asset_mapping self)
    (conversion_log self ++ [entry]) (output_files self)
    (written_report self) (uuid_draws self).

Definition put_file (name content : text) (self : converter) : converter :=
  Converter (generate_uuid self) (page_mapping self) (asset_mapping self)
    (conversion_log self) (<[name := content]> (output_files self))
    (written_report self) (uuid_draws self).

Definition put_report (r : report) (self : converter) : converter :=
  Converter (generate_uuid self) (page_mapping self) (asset_mapping self)
    (conversion_log self) (output_files self) (Some r) (uuid_draws self).

Definition count_draw (self : converter) : converter :=
  Converter (generate_uuid self) (page_mapping self) (asset_mapping self)
    (conversion_log self) (output_files self) (written_report self)
    (S (uuid_draws self)).

(** [self.log(message)].  The entry that the source appends is the message
    behind the wall-clock time of the call; the time is left out, so an
    entry is identified with its message. *)
Definition log (message : text) : M converter unit :=
  modify (append_log message).

(** What the name [generate_uuid] denotes on the object.  Attribute lookup
    searches the instance before the class, and [__init__] has stored the
    flag under this name: the method of the class that returns
    [uuid.uuid4().hex] is shadowed by a [bool]. *)
Inductive attribute :=
| BoolAttr (b : bool)
| MethodAttr (body : M converter text).

(** The pattern of [convert_image_links]: [!], an alt text in square
    brackets (group 1, no closing bracket inside, possibly empty), a path in
    parentheses (group 2, no closing parenthesis inside, not empty). *)
Definition re_image : regex :=
  lit "![" ++ grp (many (none_of (u "]"))) ++ lit "](" ++
  grp (many1 (none_of (u ")"))) ++ lit ")".

Definition replace_image_link (whole : text) (gs : list text) : text :=
  let alt_text := group gs 1 in
  let image_path := group gs 2 in
  if starts_with (u "../assets/") image_path || contains (u "assets/") image_path
  then
    let filename := basename image_path in
    let new_path := quote [] filename in
    u "![" ++ alt_text ++ u "](" ++ new_path ++ u ")"
  else whole.

Definition convert_image_links (content : text) : text :=
  re_sub re_image replace_image_link content.

(** The task patterns, under [re.MULTILINE]: start of line, white space
    (group 1, possibly empty), a hyphen, white space, the keyword, white
    space. *)
Definition re_task (keyword : string) : regex :=
  [Bol] ++ grp (many is_space) ++ lit "-" ++ many1 is_space ++
  lit keyword ++ many1 is_space.

(** [[a-zA-Z-]] *)
Definition is_key_char (c : N) : bool := is_lower c || is_upper c || (c =? 45).

(** The property pattern, under [re.MULTILINE]: start of line, a key of
    letters and hyphens (group 1), two colons, optional white space, the
    rest of the line (group 2), end of line. *)
Definition re_property : regex :=
  [Bol] ++ grp (many1 is_key_char) ++ lit "::" ++ many is_space ++
  grp (many is_dot) ++ [Eol].

(** [[a-f0-9-]] *)
Definition is_ref_char (c : N) : bool :=
  in_range 97 102 c || is_ascii_digit c || (c =? 45).

(** [r'\(\(\([a-f0-9-]+\)\)\)'] *)
Definition re_block_ref : regex :=
  lit "(((" ++ many1 is_ref_char ++ lit ")))".

(** [r'\{\{[^}]+\}\}'] *)
Definition re_query : regex :=
  lit "{{" ++ many1 (none_of (u "}")) ++ lit "}}".

Definition task_marker (mark : string) (whole : text) (gs : list text) : text :=
  group gs 1 ++ u mark.

Definition block_ref_placeholder : text := u "> [引用块]".
Definition query_placeholder : text := u "<!-- LogSeq查询已移除 -->".

Definition convert_logseq_syntax (content : text) : text :=
  let content := re_sub (re_task "DONE") (task_marker "- [x] ") content in
  let content := re_sub (re_task "TODO") (task_marker "- [ ] ") content in
  let content := re_sub (re_task "LATER") (task_marker "- [ ] ") content in
  let content := re_sub (re_task "NOW") (task_marker "- [ ] ") content in
  let content :=
    re_sub re_property
      (fun _ gs => u "**" ++ group gs 1 ++ u "**: " ++ group gs 2) content in
  let content := re_sub re_block_ref (fun _ _ => block_ref_placeholder) content in
  let content := re_sub re_query (fun _ _ => query_placeholder) content in
  content.

Section Run.

Variable w : world.
Variable e : export.

Definition generate_uuid_method : M converter text :=
  self ← get; modify count_draw;; mret (uuid4_hex w (uuid_draws self)).

Definition instance_dict_generate_uuid (self : converter) : option bool :=
  Some (generate_uuid self).

Definition getattr_generate_uuid (self : converter) : attribute :=
  match instance_dict_generate_uuid self with
  | Some b => BoolAttr b
  | None => MethodAttr generate_uuid_method
  end.

(** Truth value of an attribute in a condition. *)
Definition truthy (a : attribute) : bool :=
  match a with BoolAttr b => b | MethodAttr _ => true end.

(** Calling an attribute. *)
Definition call (a : attribute) : M converter text :=
  match a with
  | BoolAttr _ => raise (TypeError (u "'bool' object is not callable"))
  | MethodAttr body => body
  end.

Definition create_notion_filename (self : converter) (page_name page_uuid : text)
  : text :=
  let clean_name := sanitize_filename page_name in
  if truthy (getattr_generate_uuid self)
  then clean_name ++ u " " ++ page_uuid ++ u ".md"
  else clean_name ++ u ".md".

(** [page_uuid = self.generate_uuid() if self.generate_uuid else ""] *)
Definition fresh_page_uuid : M converter text :=
  self ← get;
  if truthy (getattr_generate_uuid self)
  then call (getattr_generate_uuid self)
  else mret [].

(** The display name of a journal entry. *)
Definition journal_page_name (date_str : text) : M converter text :=
  match re_match re_date_key date_str with
  | Some _ =>
    '(year, month, day) ← unpack3 (split_on 95 date_str);
    mret (year ++ u "年" ++ month ++ u "月" ++ day ++ u "日")
  | None => mret date_str
  end.

Definition scan_page (page_name : text) : M converter unit :=
  page_uuid ← fresh_page_uuid;
  self ← get;
  let notion_filename := create_notion_filename self page_name page_uuid in
  modify (set_page_mapping page_name (notion_filename, page_uuid));;
  log (u "页面映射: " ++ page_name ++ u " -> " ++ notion_filename).

Definition scan_journal (date_str : text) : M converter unit :=
  page_name ← journal_page_name date_str;
  page_uuid ← fresh_page_uuid;
  self ← get;
  let notion_filename := create_notion_filename self page_name page_uuid in
  modify (set_page_mapping date_str (notion_filename, page_uuid));;
  log (u "日记映射: " ++ date_str ++ u " -> " ++ notion_filename).

Definition scan_pages : M converter unit :=
  log (u "开始扫描页面...");;
  for_each (pages e) (fun f => scan_page f.1);;
  for_each (journals e) (fun f => scan_journal f.1).

Definition replace_page_link (whole : text) (gs : list text)
  : M converter text :=
  let page_name := group gs 1 in
  self ← get;
  match page_mapping self !! page_name with
  | Some (notion_filename, _) =>
    let encoded_filename := quote [] notion_filename in
    mret (u "[" ++ page_name ++ u "](" ++ encoded_filename ++ u ")")
  | None =>
    log (u "警告: 未找到页面 '" ++ page_name ++ u "'，保持原链接格式");;
    mret (u "[" ++ page_name ++ u "](#" ++ page_name ++ u ")")
  end.

Definition convert_links (content : text) : M converter text :=
  content ← re_sub_m re_page_link replace_page_link content;
  mret (convert_image_links content).

(** [open(path, 'r', encoding='utf-8')] and [f.read()] *)
Definition read_file (src : source) : M converter text :=
  match src with
  | Content body => mret body
  | Unreadable why => raise (OSError why)
  end.

(** [open(path, 'w', encoding='utf-8')] and [f.write(content)] for a file
    directly below [self.output_path]. *)
Definition write_file (name content : text) : M converter unit :=
  match write_error w name with
  | Some why =>
    match write_progress w name with
    | Some n => modify (put_file name (take n content))
    | None => mret tt
    end;;
    raise (OSError why)
  | None => modify (put_file name content)
  end.

Definition md_name (stem : text) : text := stem ++ u ".md".

Definition source_path (dir : string) (stem : text) : text :=
  logseq_path e ++ u "/" ++ u dir ++ u "/" ++ md_name stem.

Definition convert_file (dir : string) (f : text * source) (target : text)
  : M converter unit :=
  try_except
    (content ← read_file f.2;
     content ← convert_links content;
     let content := convert_logseq_syntax content in
     write_file target content;;
     log (u "转换完成: " ++ md_name f.1 ++ u " -> " ++ target))
    (fun err =>
       log (u "转换文件失败 " ++ source_path dir f.1 ++ u ": " ++ exn_str err)).

Definition convert_one (dir : string) (f : text * source) : M converter unit :=
  self ← get;
  match page_mapping self !! f.1 with
  | Some (notion_filename, _) => convert_file dir f notion_filename
  | None => mret tt
  end.

Definition convert_all_pages : M converter unit :=
  log (u "开始转换页面内容...");;
  for_each (pages e) (convert_one "pages");;
  for_each (journals e) (convert_one "journals").

(** The loop runs over the items of the mapping; a [gmap] yields them in
    key order where a [dict] yields them in insertion order, so only the
    order of these log entries may differ. *)
Definition create_page_hierarchy : M converter unit :=
  log (u "创建页面层级结构...");;
  self ← get;
  for_each (map_to_list (page_mapping self))
    (fun kv => log (u "准备转换页面: " ++ kv.1)).

(** Copying the asset files is the work of [shutil]; its effect on the
    object is kept: the mapping and the log entries.  The run modelled is
    the one in which the directory can be made and every file copied; a
    failure there is not caught by the method and ends it. *)
Definition copy_and_convert_assets : M converter unit :=
  log (u "处理资源文件...");;
  match assets e with
  | None => log (u "未找到assets目录，跳过资源文件处理")
  | Some files =>
    for_each files (fun rel =>
      modify (set_asset_mapping
                (logseq_path e ++ u "/assets/" ++ rel)
                (output_path w ++ u "/assets/" ++ basename rel));;
      log (u "复制资源文件: " ++ basename rel))
  end.

Definition report_name : text := u "conversion_report.json".

Definition generate_conversion_report : M converter unit :=
  self ← get;
  let report :=
    Report (size (page_mapping self)) (page_mapping self)
      (asset_mapping self) (conversion_log self) in
  match write_error w report_name with
  | Some why => raise (OSError why)
  | None => modify (put_report report)
  end;;
  log (u "转换报告已生成: " ++ output_path w ++ u "/" ++ report_name).

Definition zip_path : text :=
  outer_output_path w ++ u "/" ++ basename (outer_output_path w) ++ u ".zip".

Definition create_zip_package : M converter (option text) :=
  log (u "开始创建ZIP压缩包...");;
  match zip_error w with
  | None =>
    log (u "ZIP压缩包创建完成: " ++ zip_path);;
    log (u "压缩包大小: " ++ zip_size_mb w ++ u " MB");;
    mret (Some zip_path)
  | Some why =>
    log (u "创建ZIP压缩包失败: " ++ why);;
    mret None
  end.

Definition rule : text := repeat 61 50.

(** The line of the run summary that reports the page count. *)
Definition summary_line (n : nat) : text :=
  u "共转换 " ++ str_of_nat n ++ u " 个页面".

Definition convert (source_name : text) : M converter unit :=
  log rule;;
  log (u "开始LogSeq到Notion的转换: " ++ source_name);;
  log (u "输入目录: " ++ logseq_path e);;
  log (u "输出目录: " ++ output_path w);;
  log rule;;
  try_except
    (scan_pages;;
     create_page_hierarchy;;
     copy_and_convert_assets;;
     convert_all_pages;;
     generate_conversion_report;;
     zip ← create_zip_package;
     log rule;;
     log (u "转换完成！");;
     log (u "Notion导入目录: " ++ output_path w);;
     match zip with
     | Some p => log (u "ZIP压缩包: " ++ p)
     | None => mret tt
     end;;
     log (u "完整输出目录: " ++ outer_output_path w);;
     self ← get;
     log (summary_line (size (page_mapping self)));;
     log rule)
    (fun err =>
       log (u "转换过程中发生错误: " ++ exn_str err);;
       raise err).

End Run.

End Notion.

(** ** [LogSeqToTeamTemplateConverter] *)

Module Team.

(** A row of the database: the ten columns of the CSV files. *)
Record entry := Entry {
  e_name : text;
  e_start_date : text;
  e_page_type : text;
  e_end_date : text;
  e_members : text;
  e_created_by : text;
  e_tags : text;
  e_summary : text;
  e_status : text;
  e_progress : text
}.

(** The attributes of a converter object, the files it has written below
    [self.database_dir], and the number of tokens it has drawn. *)
Record converter := Converter {
  with_uuid : bool;
  database_entries : list entry;
  page_mapping : gmap text (text * text);
  conversion_log : list text;
  database_files : gmap text text;
  uuid_draws : nat
}.

(** The object [__init__] leaves behind; with identifiers it has already
    drawn one token for the main page and one for the database. *)
Definition init (with_uuid : bool) : converter :=
  Converter with_uuid [] ∅ [] ∅ (if with_uuid then 2 else 0).

Definition set_page_mapping (k : text) (v : text * text) (self : converter)
  : converter :=
  Converter (with_uuid self) (database_entries self)
    (<[k := v]> (page_mapping self)) (conversion_log self)
    (database_files self) (uuid_draws self).

Definition append_entry (en : entry) (self : converter) : converter :=
  Converter (with_uuid self) (database_entries self ++ [en])
    (page_mapping self) (conversion_log self) (database_files self)
    (uuid_draws self).

Definition append_log (line : text) (self : converter) : converter :=
  Converter (with_uuid self) (database_entries self) (page_mapping self)
    (conversion_log self ++ [line]) (database_files self) (uuid_draws self).

Definition put_file (name content : text) (self : converter) : converter :=
  Converter (with_uuid self) (database_entries self) (page_mapping self)
    (conversion_log self) (<[name := content]> (database_files self))
    (uuid_draws self).

Definition count_draw (self : converter) : converter :=
  Converter (with_uuid self) (database_entries self) (page_mapping self)
    (conversion_log self) (database_files self) (S (uuid_draws self)).

(** [self.log(message)], without the time of the call (see [Notion.log]). *)
Definition log (message : text) : M converter unit :=
  modify (append_log message).

Definition create_notion_filename (self : converter) (page_name page_uuid : text)
  : text :=
  let clean_name := sanitize_filename page_name in
  if with_uuid self
  then clean_name ++ u " " ++ page_uuid ++ u ".md"
  else clean_name ++ u ".md".

(** [r'\d{4}年\d{2}月\d{2}日'], each number in a group of its own where
    [convert_date_format] reads the groups. *)
Definition re_chinese_date : regex :=
  grp (times 4 is_digit) ++ lit "年" ++ grp (times 2 is_digit) ++ lit "月" ++
  grp (times 2 is_digit) ++ lit "日".

Definition journal_type : text := u "日志".
Definition article_type : text := u "文章".

(** [filepath.parts] is given as [parts]. *)
Definition determine_page_type (parts : list text) (page_name : text) : text :=
  if bool_decide (u "journals" ∈ parts) then journal_type
  else if matches re_chinese_date page_name || matches re_date_key page_name
  then journal_type
  else article_type.

Definition convert_date_format (date_str : text) : M converter (text * text) :=
  match re_match re_date_key date_str with
  | Some _ =>
    '(year, month, day) ← unpack3 (split_on 95 date_str);
    let chinese_date := year ++ u "年" ++ month ++ u "月" ++ day ++ u "日" in
    let iso_date := month ++ u "/" ++ day ++ u "/" ++ year in
    mret (chinese_date, iso_date)
  | None =>
    match re_match re_chinese_date date_str with
    | Some gs =>
      let iso_date := group gs 2 ++ u "/" ++ group gs 3 ++ u "/" ++ group gs 1 in
      mret (date_str, iso_date)
    | None => mret (date_str, [])
    end
  end.

Definition any_char (c : N) : bool := true.

Definition extract_summary (content : text) : text :=
  let max_length := 150%nat in
  let first_group := fun (_ : text) gs => group gs 1 in
  let nothing := fun (_ : text) (_ : list text) => @nil N in
  let content := re_sub (many1 (N.eqb 35) ++ lit " ") nothing content in
  let content :=
    re_sub (lit "**" ++ grp (few is_dot) ++ lit "**") first_group content in
  let content :=
    re_sub (lit "*" ++ grp (few is_dot) ++ lit "*") first_group content in
  let content :=
    re_sub (lit "[" ++ grp (few is_dot) ++ lit "](" ++ few is_dot ++ lit ")")
      first_group content in
  let content :=
    re_sub (lit "![" ++ few is_dot ++ lit "](" ++ few is_dot ++ lit ")")
      nothing content in
  let content :=
    re_sub (lit "```" ++ few any_char ++ lit "```") nothing content in
  let content := re_sub (lit "`" ++ few is_dot ++ lit "`") nothing content in
  let content := join (u " ") (words content) in
  let content :=
    if bool_decide (max_length < length content)%nat
    then take max_length content ++ u "..."
    else content in
  strip_space content.

Definition replace_page_link (self : converter) (whole : text) (gs : list text)
  : text :=
  let page_name := group gs 1 in
  match page_mapping self !! page_name with
  | Some (notion_filename, page_uuid) =>
    let encoded_filename :=
      quote (u "/") (take (length notion_filename - 3) notion_filename) in
    if with_uuid self && negb (bool_decide (page_uuid = []))
    then u "[" ++ page_name ++ u "](" ++ encoded_filename ++ u "%20" ++
         page_uuid ++ u ".md)"
    else u "[" ++ page_name ++ u "](" ++ encoded_filename ++ u ".md)"
  | None => u "[" ++ page_name ++ u "]"
  end.

Definition convert_links (self : converter) (content : text) : text :=
  re_sub re_page_link (replace_page_link self) content.

(** The head of a page file: title, properties, separator. *)
Definition page_header (page_name page_type start_date summary : text) : text :=
  let notion_content := u "# " ++ page_name ++ [10; 10] in
  let notion_content := notion_content ++ u "Created by: LogSeq导入" ++ [10] in
  let notion_content :=
    match start_date with
    | [] => notion_content
    | _ :: _ => notion_content ++ u "开始日期: " ++ start_date ++ [10]
    end in
  let notion_content := notion_content ++ u "状态: Not started" ++ [10] in
  let notion_content := notion_content ++ u "页面类型: " ++ page_type ++ [10] in
  let notion_content :=
    match summary with
    | [] => notion_content
    | _ :: _ => notion_content ++ u "摘要: " ++ summary ++ [10]
    end in
  notion_content ++ [10] ++ u "---" ++ [10; 10].

Section Run.

Variable w : world.
Variable e : export.
(** [self.logseq_path.parts] *)
Variable logseq_parts : list text.

Definition create_notion_page (filename page_uuid page_name page_type
  start_date content summary : text) : M converter unit :=
  let notion_content := page_header page_name page_type start_date summary in
  self ← get;
  let converted_content := convert_links self content in
  let notion_content := notion_content ++ converted_content in
  match write_error w filename with
  | None => modify (put_file filename notion_content)
  | Some why =>
    match write_progress w filename with
    | Some n => modify (put_file filename (take n notion_content))
    | None => mret tt
    end;;
    log (u "写入页面文件失败 " ++ filename ++ u ": " ++ why)
  end.

Definition md_name (stem : text) : text := stem ++ u ".md".

Definition fresh_page_uuid : M converter text :=
  self ← get;
  if with_uuid self
  then modify count_draw;; mret (uuid4_hex w (uuid_draws self))
  else mret [].

Definition process_page_file (dir : string) (f : text * source)
  : M converter unit :=
  let page_name := f.1 in
  if bool_decide (page_name = u "contents") then
    log (u "跳过contents.md，其内容已集成到主页面")
  else
    page_uuid ← fresh_page_uuid;
    let page_type :=
      determine_page_type (logseq_parts ++ [u dir; md_name page_name])
        page_name in
    '(display_name, start_date) ←
      (if bool_decide (page_type = journal_type)
       then convert_date_format page_name
       else mret (page_name, []));
    match f.2 with
    | Unreadable why =>
      log (u "读取文件失败 " ++ logseq_path e ++ u "/" ++ u dir ++ u "/" ++
           md_name page_name ++ u ": " ++ why)
    | Content content =>
      self ← get;
      let notion_filename :=
        create_notion_filename self display_name page_uuid in
      modify (set_page_mapping page_name (notion_filename, page_uuid));;
      let summary := extract_summary content in
      let entry :=
        Entry display_name start_date page_type [] [] (u "LogSeq导入") []
          summary (u "Not started") [] in
      modify (append_entry entry);;
      create_notion_page notion_filename page_uuid display_name page_type
        start_date content summary;;
      log (u "转换页面: " ++ page_name ++ u " -> " ++ display_name ++ u " (" ++
           page_type ++ u ")")
    end.

Definition scan_and_convert_pages : M converter unit :=
  log (u "开始扫描和转换页面...");;
  for_each (pages e) (process_page_file "pages");;
  for_each (journals e) (process_page_file "journals").

End Run.

End Team.


(** ** [LogSeqToTeamTemplateConverter]: assets, tables, main page, report

    The methods of the tabular converter that [Team] leaves out, over the
    object of [Team] extended by the attributes and the files that they
    use. *)

Module TeamRun.

(** The JSON report, before serialisation. *)
Record report := Report {
  rp_source_name : text;
  rp_team_name : text;
  total_entries : nat;
  journal_entries : nat;
  article_entries : nat;
  rp_main_page_name : text;
  rp_database_name : text;
  rp_conversion_log : list text
}.

(** [core] holds the attributes that [Team] models.  [output_files] are the
    files written by the methods below, under their paths relative to
    [self.output_path]. *)
Record converter := Converter {
  core : Team.converter;
  source_name : text;
  team_name : text;
  main_page_name : text;
  database_name : text;
  asset_mapping : gmap text text;
  output_files : gmap text text;
  written_report : option report
}.

(** The object [__init__] leaves behind (the checks of the export path and
    the creation of the output directory are not modelled).  With
    identifiers the names of main page and database carry the first two
    tokens drawn. *)
Definition init (w : world) (source_name team_name : text) (with_uuid : bool)
  : converter :=
  let main_page_name :=
    if with_uuid then team_name ++ u " " ++ uuid4_hex w 0%nat else team_name in
  let database_name :=
    if with_uuid then team_name ++ u "聚合数据库 " ++ uuid4_hex w 1%nat
    else team_name ++ u "聚合数据库" in
  Converter (Team.init with_uuid) source_name team_name main_page_name
    database_name ∅ ∅ None.

Definition set_core (c : Team.converter) (self : converter) : converter :=
  Converter c (source_name self) (team_name self) (main_page_name self)
    (database_name self) (asset_mapping self) (output_files self)
    (written_report self).

Definition set_asset_mapping (k v : text) (self : converter) : converter :=
  Converter (core self) (source_name self) (team_name self)
    (main_page_name self) (database_name self)
    (<[k := v]> (asset_mapping self)) (output_files self)
    (written_report self).

Definition put_file (path content : text) (self : converter) : converter :=
  Converter (core self) (source_name self) (team_name self)
    (main_page_name self) (database_name self) (asset_mapping self)
    (<[path := content]> (output_files self)) (written_report self).

Definition put_report (r : report) (self : converter) : converter :=
  Converter (core self) (source_name self) (team_name self)
    (main_page_name self) (database_name self) (asset_mapping self)
    (output_files self) (Some r).

(** A method of [Team] run on the extended object. *)
Definition lift {A} (m : M Team.converter A) : M converter A :=
  fun self =>
    match m (core self) with
    | (r, c) => (r, set_core c self)
    end.

Definition log (message : text) : M converter unit := lift (Team.log message).

(** The column names of the tables. *)
Definition headers : list text :=
  [u "名字"; u "开始日期"; u "页面类型"; u "结束日期"; u "相关成员";
   u "Created by"; u "内容标签"; u "摘要"; u "状态"; u "进度"].

(** [len([e for e in self.database_entries if e['页面类型'] == t])] *)
Definition count_entries (t : text) (self : converter) : nat :=
  length (filter (fun en => Team.e_page_type en = t)
            (Team.database_entries (core self))).

Definition nl : text := [10].

Definition rule : text := repeat 61 50.

Definition report_name : text := u "conversion_report.json".

(** The text of the main page. *)
Definition main_content (self : converter) (contents_content : text)
  (encoded_db_name : text) (now : nat -> text) : text :=
  concat
    [u "# "; team_name self; nl;
     nl;
     contents_content; nl;
     nl;
     u "---"; nl;
     nl;
     u "<aside>"; nl;
     u "💡"; nl;
     nl;
     u "模板版本：LogSeq导入-v1.0"; nl;
     u "导入时间："; now 0%nat; nl;
     nl;
     u "</aside>"; nl;
     nl;
     u "---"; nl;
     nl;
     u "<aside>"; nl;
     u "💡"; nl;
     nl;
     u "请勿向非协作人员展示任何文档，"; nl;
     u "除非该文档的保密等级属于公开或内部公开。"; nl;
     nl;
     u "</aside>"; nl;
     nl;
     u "<aside>"; nl;
     u "⚠️ 保密等级：请修改"; nl;
     nl;
     u "</aside>"; nl;
     nl;
     u "<aside>"; nl;
     u "🏠"; nl;
     nl;
     u "## 部门"; nl;
     nl;
     u "项目组所在部门"; nl;
     nl;
     u "</aside>"; nl;
     nl;
     u "<aside>"; nl;
     u "👥"; nl;
     nl;
     u "## 协作人员"; nl;
     nl;
     u "@相关人员"; nl;
     nl;
     u "</aside>"; nl;
     nl;
     u "<aside>"; nl;
     u "ℹ️"; nl;
     nl;
     u "## 信息"; nl;
     nl;
     u "</aside>"; nl;
     nl;
     u "<aside>"; nl;
     u "📅"; nl;
     nl;
     u "创建时间："; now 1%nat; nl;
     nl;
     u "最后修改时间："; now 2%nat; nl;
     nl;
     u "</aside>"; nl;
     nl;
     u "<aside>"; nl;
     u "<img src="; [34]; u "https://www.notion.so/icons/table_orange.svg"; [34]; u " alt="; [34]; u "https://www.notion.so/icons/table_orange.svg"; [34]; u " width="; [34]; u "40px"; [34]; u " />"; nl;
     nl;
     u "## 数据库"; nl;
     nl;
     u "["; team_name self; u "聚合数据库]("; encoded_db_name; u ".csv)"; nl;
     nl;
     u "</aside>"; nl;
     nl;
     u "今日聚合页面展示了当天的所有动态。"; nl;
     nl;
     u "# 今日聚合"; nl;
     nl;
     u "[今日聚合]("; encoded_db_name; u "_today.csv)"; nl;
     nl;
     u "这是一个基本的项目管理可视化"; nl;
     nl;
     u "全局视角展示了周期内的动态。"; nl;
     nl;
     u "# 全局视角"; nl;
     nl;
     u "[全局视角]("; encoded_db_name; u "_global.csv)"; nl;
     nl;
     u "# 项目管理"; nl;
     nl;
     u "[项目管理]("; encoded_db_name; u "_projects.csv)"; nl;
     nl;
     u "这是一个针对任务的可视化"; nl;
     nl;
     u "# 任务管理"; nl;
     nl;
     u "[任务管理]("; encoded_db_name; u "_tasks.csv)"; nl;
     nl;
     u "# 会议日志"; nl;
     nl;
     u "[会议日志]("; encoded_db_name; u "_meetings.csv)"; nl;
     nl;
     u "# Wiki"; nl;
     nl;
     u "[Wiki]("; encoded_db_name; u "_wiki.csv)"; nl;
     nl;
     u "---"; nl;
     nl;
     u "## 导入统计"; nl;
     nl;
     u "- 总记录数："; str_of_nat (length (Team.database_entries (core self))); nl;
     u "- 日志条目："; str_of_nat (count_entries Team.journal_type self); nl;
     u "- 文章条目："; str_of_nat (count_entries Team.article_type self); nl;
     u "- 导入源："; source_name self; nl].

Section Run.

Variable w : world.
Variable e : export.
(** [self.logseq_path.parts] *)
Variable logseq_parts : list text.
(** What the run does not control besides [w]: whether creating the asset
    directory fails, whether copying an asset (given by its path relative
    to the asset directory) fails, the text that [csv.DictWriter] writes
    for column names and rows, and the times that the successive calls of
    [datetime.now] in [create_main_page] return. *)
Variable mkdir_error : option text.
Variable copy_error : text -> option text.
Variable csv_text : list text -> list Team.entry -> text.
Variable now : nat -> text.

Definition assets_dir : text := logseq_path e ++ u "/assets".

(** [self.database_dir], as a path and relative to [self.output_path]. *)
Definition database_rel (self : converter) : text :=
  main_page_name self ++ u "/" ++ database_name self.

Definition database_dir (self : converter) : text :=
  output_path w ++ u "/" ++ database_rel self.

Definition process_assets : M converter unit :=
  match assets e with
  | None => log (u "assets目录不存在，跳过资源文件处理")
  | Some files =>
    self ← get;
    log (u "处理资源文件...");;
    log (u "assets源目录: " ++ assets_dir);;
    log (u "database目录: " ++ database_dir self);;
    let notion_assets_dir := database_dir self ++ u "/assets" in
    match mkdir_error with
    | Some why => log (u "创建assets目录失败: " ++ why)
    | None =>
      log (u "创建assets目录成功: " ++ notion_assets_dir);;
      for_each files (fun relative_path =>
        let asset_file := assets_dir ++ u "/" ++ relative_path in
        let target_path := notion_assets_dir ++ u "/" ++ relative_path in
        log (u "准备复制: " ++ asset_file ++ u " -> " ++ target_path);;
        match copy_error relative_path with
        | Some why =>
          log (u "复制资源文件失败 " ++ asset_file ++ u ": " ++ why)
        | None =>
          modify (set_asset_mapping relative_path
                    (database_rel self ++ u "/assets/" ++ relative_path));;
          log (u "资源文件复制成功: " ++ relative_path)
        end)
    end
  end.

Definition scan_and_convert_pages : M converter unit :=
  lift (Team.scan_and_convert_pages w e logseq_parts).

(** [open(path, 'w', ...)] and the write, for a file given by its path
    relative to [self.output_path]; [None] when it succeeds, the message of
    the exception otherwise. *)
Definition write_file (path content : text) : M converter (option text) :=
  match write_error w path with
  | Some why =>
    match write_progress w path with
    | Some n => modify (put_file path (take n content))
    | None => mret tt
    end;;
    mret (Some why)
  | None => modify (put_file path content);; mret None
  end.

Definition create_database_csv : M converter unit :=
  log (u "创建数据库CSV文件...");;
  self ← get;
  let csv_path := main_page_name self ++ u "/" ++ database_name self ++ u ".csv" in
  failure ← write_file csv_path
              (csv_text headers (Team.database_entries (core self)));
  match failure with
  | None =>
    log (u "数据库CSV创建完成: " ++
         str_of_nat (length (Team.database_entries (core self))) ++
         u " 条记录")
  | Some why => log (u "创建数据库CSV失败: " ++ why)
  end.

Definition read_contents_file : M converter text :=
  match find (fun f : text * source => bool_decide (f.1 = u "contents"))
             (pages e) with
  | Some (_, Content content) =>
    self ← get; mret (Team.convert_links (core self) content)
  | Some (_, Unreadable why) =>
    log (u "读取contents.md失败: " ++ why);; mret []
  | None => mret []
  end.

Definition create_main_page : M converter unit :=
  log (u "创建主页面...");;
  contents_content ← read_contents_file;
  self ← get;
  let encoded_db_name := quote (u "/") (database_name self) in
  let main_content := main_content self contents_content encoded_db_name now in
  failure ← write_file (main_page_name self ++ u ".md") main_content;
  match failure with
  | None => log (u "主页面创建完成")
  | Some why => log (u "创建主页面失败: " ++ why)
  end.

Definition write_csv (filename : text) (headers : list text)
  (entries : list Team.entry) : M converter unit :=
  self ← get;
  failure ← write_file (main_page_name self ++ u "/" ++ filename)
              (csv_text headers entries);
  match failure with
  | None => mret tt
  | Some why => log (u "写入CSV文件失败 " ++ filename ++ u ": " ++ why)
  end.

Definition create_view_csvs : M converter unit :=
  log (u "创建视图CSV文件...");;
  self ← get;
  let today_entries := Team.database_entries (core self) in
  write_csv (database_name self ++ u "_today.csv") headers today_entries;;
  let global_entries := Team.database_entries (core self) in
  write_csv (database_name self ++ u "_global.csv") headers global_entries;;
  let project_entries := Team.database_entries (core self) in
  write_csv (database_name self ++ u "_projects.csv") headers project_entries;;
  let task_entries := Team.database_entries (core self) in
  write_csv (database_name self ++ u "_tasks.csv") headers task_entries;;
  let meeting_entries := Team.database_entries (core self) in
  write_csv (database_name self ++ u "_meetings.csv") headers meeting_entries;;
  let wiki_entries := Team.database_entries (core self) in
  write_csv (database_name self ++ u "_wiki.csv") headers wiki_entries;;
  log (u "所有视图CSV创建完成").

Definition create_conversion_report : M converter unit :=
  self ← get;
  let report :=
    Report (source_name self) (team_name self)
      (length (Team.database_entries (core self)))
      (count_entries Team.journal_type self)
      (count_entries Team.article_type self)
      (main_page_name self) (database_name self)
      (Team.conversion_log (core self)) in
  match write_error w report_name with
  | None => modify (put_report report);; log (u "转换报告创建完成")
  | Some why => log (u "创建转换报告失败: " ++ why)
  end.

Definition zip_path (self : converter) : text :=
  outer_output_path w ++ u "/" ++ source_name self ++ u "-team-template.zip".

Definition create_zip_archive : M converter unit :=
  log (u "创建ZIP压缩包...");;
  self ← get;
  match zip_error w with
  | None => log (u "ZIP压缩包创建完成: " ++ zip_path self)
  | Some why => log (u "创建ZIP压缩包失败: " ++ why)
  end.

Definition convert : M converter unit :=
  log rule;;
  log (u "开始转换LogSeq到Team Template格式");;
  log (u "源目录: " ++ logseq_path e);;
  log (u "输出目录: " ++ output_path w);;
  self ← get;
  log (u "团队名称: " ++ team_name self);;
  log rule;;
  try_except
    (process_assets;;
     scan_and_convert_pages;;
     create_database_csv;;
     create_main_page;;
     create_view_csvs;;
     create_conversion_report;;
     create_zip_archive;;
     log rule;;
     log (u "转换完成！");;
     log (u "输出目录: " ++ outer_output_path w);;
     self ← get;
     log (u "总条目数: " ++
          str_of_nat (length (Team.database_entries (core self))));;
     log (u "日志条目: " ++ str_of_nat (count_entries Team.journal_type self));;
     log (u "文章条目: " ++ str_of_nat (count_entries Team.article_type self));;
     log rule)
    (fun err =>
       log (u "转换过程中发生错误: " ++ exn_str err);;
       raise err).

End Run.

End TeamRun.
(** * Properties *)

(** ** Sample worlds and exports *)

(** A world in which every write succeeds. *)
Definition calm_world : world :=
  World (fun n => repeat 48 31 ++ str_of_nat (n mod 10)) (fun _ => None)
    (fun _ => None)
    (u "notion-import/notes-20250101-000000/notion-output")
    (u "notion-import/notes-20250101-000000") None (u "0.00").

(** The same world, except that [A.md] cannot be opened for writing. *)
Definition failing_world : world :=
  World (uuid4_hex calm_world)
    (fun name => if bool_decide (name = u "A.md")
                 then Some (u "[Errno 28] No space left on device")
                 else None)
    (fun _ => None)
    (output_path calm_world) (outer_output_path calm_world) None (u "0.00").

(** The same world, except that the write to [A.md] fails after the file
    was opened, when its first three characters have reached it. *)
Definition full_disk_world : world :=
  World (uuid4_hex calm_world)
    (fun name => if bool_decide (name = u "A.md")
                 then Some (u "[Errno 28] No space left on device")
                 else None)
    (fun _ => Some 3%nat)
    (output_path calm_world) (outer_output_path calm_world) None (u "0.00").

Definition notes_path : text := u "logseq-export/notes".
Definition notes_parts : list text := [u "logseq-export"; u "notes"].

(** [pages/A.md] refers to [pages/B.md], which [glob] yields after it. *)
Definition forward_reference : export :=
  Export notes_path
    [(u "A", Content (u "See [[B]]")); (u "B", Content (u "b"))] [] None.

(** One page and one journal entry with the same stem. *)
Definition same_stem : export :=
  Export notes_path
    [(u "2025_01_01", Content (u "page"))]
    [(u "2025_01_01", Content (u "journal"))] None.

(** A journal file whose stem continues after the date. *)
Definition dated_suffix : export :=
  Export notes_path [] [(u "2025_01_01_draft", Content (u "x"))] None.

(** A page whose stem is a single space. *)
Definition blank_stem : export :=
  Export notes_path [(u " ", Content (u "x"))] [] None.

(** [fst] and [snd] of a run. *)
Definition outcome {S A} (r : res A * S) : res A := r.1.
Definition final {S A} (r : res A * S) : S := r.2.

(** The text that [convert_file] writes for a document body: the Content
    Transformer, that is [convert_links] followed by
    [convert_logseq_syntax], against the registry of [self]. *)
Definition transform (self : Notion.converter) (content : text) : text :=
  match Notion.convert_links content self with
  | (Val linked, _) => Notion.convert_logseq_syntax linked
  | (Exc _, _) => content
  end.

(** A registry that knows no page. *)
Definition empty_registry : Notion.converter := Notion.init false.

(** The display name that [scan_pages] gives a journal entry, or the
    exception that computing it raises. *)
Definition journal_display (date_str : text) : res text :=
  outcome (Notion.journal_page_name date_str (Notion.init false)).

(** The sanitisation invariant of an output filename. *)
Definition hostile_free (s : text) : Prop :=
  forall c, c ∈ s -> c ∉ path_hostile.

Definition no_leading_dot_or_space (s : text) : Prop :=
  forall c s', s = c :: s' -> c <> 46 /\ c <> 32.

Definition no_trailing_dot_or_space (s : text) : Prop :=
  forall c s', s = s' ++ [c] -> c <> 46 /\ c <> 32.

(** A key with at least one character that [strip] keeps. *)
Definition solid (s : text) : Prop :=
  exists c, c ∈ s /\ c <> 46 /\ c <> 32.

(** What the substitution in [sanitize_filename] does to one character. *)
Definition replace_hostile (c : N) : N := if one_of path_hostile c then 95 else c.

(** The exception raised by calling the flag that shadows the method
    [generate_uuid]. *)
Definition shadow_error : exn := TypeError (u "'bool' object is not callable").

(** The registry entry of a document with display name [name] when no
    identifier is generated. *)
Definition plain_entry (name : text) : text * text :=
  (sanitize_filename name ++ u ".md", []).

(** The stems of a collection. *)
Definition stems (files : list (text * source)) : list text := files.*1.

(** The warning that [convert_links] logs for a reference it cannot
    resolve. *)
Definition miss_warning (page_name : text) : text :=
  u "警告: 未找到页面 '" ++ page_name ++ u "'，保持原链接格式".

(** The anchor-style placeholder of an unresolved reference. *)
Definition anchor_placeholder (page_name : text) : text :=
  u "[" ++ page_name ++ u "](#" ++ page_name ++ u ")".

(** What the cross-reference step of [Notion.convert_links] puts in the
    place of one piece of the scanned text. *)
Definition link_piece (registry : gmap text (text * text)) (p : piece) : text :=
  match p with
  | Keep c => [c]
  | Hit _ gs =>
    match registry !! group gs 1 with
    | Some (notion_filename, _) =>
      u "[" ++ group gs 1 ++ u "](" ++ quote [] notion_filename ++ u ")"
    | None => anchor_placeholder (group gs 1)
    end
  end.

(** The names of the references of a scanned text that the registry does
    not resolve, one per occurrence, from left to right. *)
Fixpoint misses (registry : gmap text (text * text)) (ps : list piece)
  : list text :=
  match ps with
  | [] => []
  | Keep _ :: ps' => misses registry ps'
  | Hit _ gs :: ps' =>
    match registry !! group gs 1 with
    | Some _ => misses registry ps'
    | None => group gs 1 :: misses registry ps'
    end
  end.

(** The object after [self.log] has been called on each entry in turn. *)
Definition logged (entries : list text) (self : Notion.converter)
  : Notion.converter :=
  foldl (fun s entry => Notion.append_log entry s) self entries.

(** A page whose only content is a reference to a page that does not
    exist. *)
Definition dangling_reference : export :=
  Export notes_path [(u "A", Content (u "[[X]]"))] [] None.

(** A page with a LogSeq block reference: an identifier between two pairs of
    parentheses. *)
Definition block_reference_body : text :=
  u "see ((64a1f3e2-1b2c-4d5e-8f90-a1b2c3d4e5f6))".

(** Display name and start date that [process_page_file] gives a document
    of type [page_type], or the exception that computing them raises. *)
Definition team_display (page_type key : text) : res (text * text) :=
  if bool_decide (page_type = Team.journal_type)
  then outcome (Team.convert_date_format key (Team.init false))
  else Val (key, []).

(** The type that [process_page_file] gives a file of directory [dir]. *)
Definition team_page_type (logseq_parts : list text) (dir : string)
  (key : text) : text :=
  Team.determine_page_type (logseq_parts ++ [u dir; Team.md_name key]) key.

(** The head of a page file as the claim describes it: a title line with
    the display name, then the property lines for the creator, the start
    date if there is one, the status, the page type and the summary if there
    is one, then a horizontal rule between empty lines. *)
Definition property_line (name value : text) : text :=
  name ++ u ": " ++ value ++ [10].

Definition optional_line (name value : text) : text :=
  match value with
  | [] => []
  | _ :: _ => property_line name value
  end.

Definition metadata_header (display start_date page_type summary : text)
  : text :=
  concat
    [u "# " ++ display ++ [10];
     [10];
     property_line (u "Created by") (u "LogSeq导入");
     optional_line (u "开始日期") start_date;
     property_line (u "状态") (u "Not started");
     property_line (u "页面类型") page_type;
     optional_line (u "摘要") summary;
     [10];
     u "---" ++ [10];
     [10]].

(** ** The matcher as a relation

    [matched r prev ms s res]: some path of the backtracking search matches
    [r] at the start of [s] and ends with the result [res].  [rmatch]
    returns the first such path in its exploration order; whether it
    returns a match at all does not depend on that order. *)
Inductive matched : regex -> option N -> mstate -> text ->
                    nat * list (nat * nat) -> Prop :=
| matched_nil prev ms s :
    matched [] prev ms s (m_pos ms, m_caps ms)
| matched_cls p r prev ms c s res :
    p c = true ->
    matched r (Some c) (ms_adv ms) s res ->
    matched (Cls p :: r) prev ms (c :: s) res
| matched_star_skip g p r prev ms s res :
    matched r prev ms s res ->
    matched (Star g p :: r) prev ms s res
| matched_star_take g p r prev ms c s res :
    p c = true ->
    matched (Star g p :: r) (Some c) (ms_adv ms) s res ->
    matched (Star g p :: r) prev ms (c :: s) res
| matched_open r prev ms s res :
    matched r prev (ms_open ms) s res ->
    matched (GOpen :: r) prev ms s res
| matched_close r prev ms s res :
    matched r prev (ms_close ms) s res ->
    matched (GClose :: r) prev ms s res
| matched_bol r prev ms s res :
    at_bol prev = true ->
    matched r prev ms s res ->
    matched (Bol :: r) prev ms s res
| matched_eol r prev ms s res :
    at_eol s = true ->
    matched r prev ms s res ->
    matched (Eol :: r) prev ms s res.

(** [r] matches at the start of [s], [prev] being the character before. *)
Definition accepts (r : regex) (prev : option N) (s : text) : Prop :=
  exists ms res, matched r prev ms s res.

(** [r] can match without consuming a character. *)
Fixpoint nullable (r : regex) (prev : option N) (s : text) : bool :=
  match r with
  | [] => true
  | Cls _ :: _ => false
  | Star _ _ :: r' => nullable r' prev s
  | GOpen :: r' | GClose :: r' => nullable r' prev s
  | Bol :: r' => at_bol prev && nullable r' prev s
  | Eol :: r' => at_eol s && nullable r' prev s
  end.

(** What may remain of [r] to be matched once it has consumed [c]. *)
Fixpoint steps (r : regex) (prev : option N) (c : N) : list regex :=
  match r with
  | [] => []
  | Cls p :: r' => if p c then [r'] else []
  | Star g p :: r' => (if p c then [r] else []) ++ steps r' prev c
  | GOpen :: r' | GClose :: r' => steps r' prev c
  | Bol :: r' => if at_bol prev then steps r' prev c else []
  | Eol :: r' => if c =? 10 then steps r' prev c else []
  end.

(** No atom of [r] lets the character [d] through. *)
Definition atom_rejects (d : N) (a : atom) : bool :=
  match a with
  | Cls p | Star _ p => negb (p d)
  | Eol => negb (d =? 10)
  | GOpen | GClose | Bol => true
  end.

Definition rejects (r : regex) (d : N) : bool := forallb (atom_rejects d) r.

(** Every atom of [r] that lets [c] through lets [c'] through. *)
Definition atom_passes (c c' : N) (a : atom) : bool :=
  match a with
  | Cls p | Star _ p => implb (p c) (p c')
  | Eol => implb (c =? 10) (c' =? 10)
  | GOpen | GClose | Bol => true
  end.

Definition passes (r : regex) (c c' : N) : bool := forallb (atom_passes c c') r.

(** The last character read, after the text [w] has been read past
    [prev]. *)
Definition last_read (prev : option N) (w : text) : option N :=
  match last w with Some c => Some c | None => prev end.

(** [r] matches nowhere in [s]. *)
Fixpoint quiet_from (r : regex) (prev : option N) (s : text) : Prop :=
  rmatch r prev ms0 s = None /\
  match s with
  | [] => True
  | c :: s' => quiet_from r (Some c) s'
  end.

Definition quiet (r : regex) (s : text) : Prop := quiet_from r None s.

(** [substituted r repl prev s out]: the scan of [s] for [r], started after
    [prev], keeps the characters where [r] does not match, replaces each
    match [w] by [repl w groups] and yields [out]. *)
Inductive substituted (r : regex) (repl : text -> list text -> text) :
  option N -> text -> text -> Prop :=
| substituted_nil prev :
    substituted r repl prev [] []
| substituted_keep prev c s out :
    rmatch r prev ms0 (c :: s) = None ->
    substituted r repl (Some c) s out ->
    substituted r repl prev (c :: s) (c :: out)
| substituted_hit prev w s caps out :
    rmatch r prev ms0 (w ++ s) = Some (length w, caps) ->
    w <> [] ->
    substituted r repl (last_read prev w) s out ->
    substituted r repl prev (w ++ s)
      (repl w (map (slice (w ++ s)) caps) ++ out).

(** An atom that consumes a character whenever it matches. *)
Definition mandatory (a : atom) : bool :=
  match a with Cls _ => true | _ => false end.

(** A position of the output that starts a line corresponds to a position
    of the input that starts a line. *)
Definition bol_kept (prev_out prev_in : option N) : Prop :=
  at_bol prev_out = true -> at_bol prev_in = true.

(** The matcher state after [n] more characters. *)
Definition ms_skip (n : nat) (ms : mstate) : mstate :=
  MState (n + m_pos ms) (m_open ms) (m_caps ms).

(** The atoms of a literal. *)
Definition lits (l : text) : regex := map (fun c => Cls (N.eqb c)) l.

(** The task pattern for a keyword given as text. *)
Definition task_pattern (k : text) : regex :=
  Bol :: GOpen :: Star Greedy is_space :: GClose :: Cls (N.eqb 45) ::
  Cls is_space :: Star Greedy is_space ::
  lits k ++ [Cls is_space; Star Greedy is_space].

(** A keyword: upper-case letters, at least one. *)
Definition keyword (k : text) : Prop :=
  k <> [] /\ forallb is_upper k = true.

(** The two checkbox markers. *)
Definition checkbox (mark : text) : Prop :=
  exists m, mark = [45; 32; 91; m; 93; 32] /\ m <> 10.

(** The replacement of a task match: the white space of group 1 and the
    marker. *)
Definition task_repl (mark : text) (whole : text) (gs : list text) : text :=
  group gs 1 ++ mark.

(** What follows the leading white space in a task pattern. *)
Definition task_after_spaces (k : text) : regex :=
  Star Greedy is_space :: GClose :: Cls (N.eqb 45) ::
  Cls is_space :: Star Greedy is_space ::
  lits k ++ [Cls is_space; Star Greedy is_space].

(** The property pattern, atom by atom, and the replacement of a property
    match: the key in bold, a colon, the value. *)
Definition property_pattern : regex :=
  [Bol; GOpen; Cls Notion.is_key_char; Star Greedy Notion.is_key_char; GClose;
   Cls (N.eqb 58); Cls (N.eqb 58); Star Greedy is_space;
   GOpen; Star Greedy is_dot; GClose; Eol].

Definition property_repl (whole : text) (gs : list text) : text :=
  u "**" ++ group gs 1 ++ u "**: " ++ group gs 2.

(** A character that is not a closing brace; the query pattern, atom by
    atom. *)
Definition not_brace : N -> bool := none_of (u "}").

Definition query_pattern : regex :=
  [Cls (N.eqb 123); Cls (N.eqb 123); Cls not_brace; Star Greedy not_brace;
   Cls (N.eqb 125); Cls (N.eqb 125)].

(** The replacements of a block reference and of a query. *)
Definition block_ref_repl (whole : text) (gs : list text) : text :=
  Notion.block_ref_placeholder.

Definition query_repl (whole : text) (gs : list text) : text :=
  Notion.query_placeholder.

(** Every replacement of a match of [rj] has the property [P]. *)
Definition replaces_by (rj : regex) (repl : text -> list text -> text)
  (P : text -> Prop) : Prop :=
  forall prev w s caps,
    rmatch rj prev ms0 (w ++ s) = Some (length w, caps) ->
    P (repl w (map (slice (w ++ s)) caps)).

(** A text without line feed that begins with the character [d]. *)
Definition one_line_from (d : N) (R : text) : Prop :=
  exists R', R = d :: R' /\ Forall (fun c => c <> 10) R.

(** A text without a character of the class [p]. *)
Definition free_of (p : N -> bool) (R : text) : Prop :=
  Forall (fun c => p c = false) R.

(** The block reference pattern, atom by atom. *)
Definition block_ref_pattern : regex :=
  [Cls (N.eqb 40); Cls (N.eqb 40); Cls (N.eqb 40);
   Cls Notion.is_ref_char; Star Greedy Notion.is_ref_char;
   Cls (N.eqb 41); Cls (N.eqb 41); Cls (N.eqb 41)].

(** The text [s] holds none of the characters of [cs]. *)
Definition lacks (s : text) (cs : text) : Prop :=
  forall c, c ∈ cs -> c ∉ s.

(** A character that may stand inside a line: no white space other than
    the plain space. *)
Definition inline_char (c : N) : Prop := is_space c = false \/ c = 32.

(** A text that neither begins nor ends with white space. *)
Definition trimmed (s : text) : Prop :=
  (forall c t, s = c :: t -> is_space c = false) /\
  (forall c t, s = t ++ [c] -> is_space c = false).

(** ** One step of the tabular converter *)

(** The database row of a document. *)
Definition team_entry (display start_date page_type summary : text)
  : Team.entry :=
  Team.Entry display start_date page_type [] [] (u "LogSeq导入") []
    summary (u "Not started") [].

(** The token that [process_page_file] draws, and the object after the
    draw. *)
Definition team_token (w : world) (st : Team.converter) : text :=
  if Team.with_uuid st then uuid4_hex w (Team.uuid_draws st) else [].

Definition team_drawn (st : Team.converter) : Team.converter :=
  if Team.with_uuid st then Team.count_draw st else st.

(** The object once a readable document has been entered in the registry
    and in the database. *)
Definition team_registered (w : world) (key display start_date page_type
  body : text) (st : Team.converter) : Team.converter :=
  Team.append_entry
    (team_entry display start_date page_type (Team.extract_summary body))
    (Team.set_page_mapping key
       (Team.create_notion_filename st display (team_token w st),
        team_token w st)
       (team_drawn st)).

(** The content of the page file of a document. *)
Definition team_page_content (self : Team.converter) (display start_date
  page_type body : text) : text :=
  Team.page_header display page_type start_date (Team.extract_summary body)
  ++ Team.convert_links self body.

(** The object after a write of [content] to [filename] that failed: the
    file is untouched when it could not be opened, and holds the characters
    written so far otherwise. *)
Definition team_truncated (w : world) (filename content : text)
  (self : Team.converter) : Team.converter :=
  match write_progress w filename with
  | Some n => Team.put_file filename (take n content) self
  | None => self
  end.

(** The log entries of [process_page_file]. *)
Definition team_skip_entry : text := u "跳过contents.md，其内容已集成到主页面".

Definition team_unreadable_entry (e : export) (dir : string) (key why : text)
  : text :=
  u "读取文件失败 " ++ logseq_path e ++ u "/" ++ u dir ++ u "/" ++
  Team.md_name key ++ u ": " ++ why.

Definition team_write_failure_entry (filename why : text) : text :=
  u "写入页面文件失败 " ++ filename ++ u ": " ++ why.

Definition team_done_entry (key display page_type : text) : text :=
  u "转换页面: " ++ key ++ u " -> " ++ display ++ u " (" ++ page_type ++ u ")".

(** What one call of [process_page_file] returns and leaves behind. *)
Definition team_step (w : world) (e : export) (logseq_parts : list text)
  (dir : string) (f : text * source) (st : Team.converter)
  : res unit * Team.converter :=
  if bool_decide (f.1 = u "contents") then
    (Val tt, Team.append_log team_skip_entry st)
  else
    let page_type := team_page_type logseq_parts dir f.1 in
    match team_display page_type f.1 with
    | Exc err => (Exc err, team_drawn st)
    | Val (display, start_date) =>
      match f.2 with
      | Unreadable why =>
        (Val tt,
         Team.append_log (team_unreadable_entry e dir f.1 why) (team_drawn st))
      | Content body =>
        let self := team_registered w f.1 display start_date page_type body st in
        let filename :=
          Team.create_notion_filename st display (team_token w st) in
        match write_error w filename with
        | None =>
          (Val tt,
           Team.append_log (team_done_entry f.1 display page_type)
             (Team.put_file filename
                (team_page_content self display start_date page_type body)
                self))
        | Some why =>
          (Val tt,
           Team.append_log (team_done_entry f.1 display page_type)
             (Team.append_log (team_write_failure_entry filename why)
                (team_truncated w filename
                   (team_page_content self display start_date page_type body)
                   self)))
        end
      end
    end.

(** An export with a table of contents. *)
Definition with_contents : export :=
  Export notes_path
    [(u "contents", Content (u "- [[A]]")); (u "A", Content (u "See [[contents]]"))]
    [] None.

(** [len([e for e in self.database_entries if e['页面类型'] == t])], the
    count that the tabular converter reports for a page type. *)
Definition count_type (t : text) (entries : list Team.entry) : nat :=
  length (filter (fun en => Team.e_page_type en = t) entries).

(** The registry names only files of database rows: the file of every
    registered document is named after the name column of some row. *)
Definition registry_in_database (st : Team.converter) : Prop :=
  forall key filename token,
    Team.page_mapping st !! key = Some (filename, token) ->
    exists en, en ∈ Team.database_entries st /\
               filename = Team.create_notion_filename st (Team.e_name en) token.

(** Every row has one of the two page types and the fixed columns. *)
Definition rows_well_formed (st : Team.converter) : Prop :=
  Forall (fun en =>
            (Team.e_page_type en = Team.journal_type \/
             Team.e_page_type en = Team.article_type) /\
            Team.e_status en = u "Not started" /\
            Team.e_created_by en = u "LogSeq导入" /\
            Team.e_end_date en = [] /\ Team.e_members en = [] /\
            Team.e_tags en = [] /\ Team.e_progress en = [])
         (Team.database_entries st).

(** ** Dates *)

(** A key that begins with a date: four, two and two digits joined by
    underscores, and whatever follows. *)
Definition dated_key (y1 y2 y3 y4 m1 m2 d1 d2 : N) (rest : text) : text :=
  [y1; y2; y3; y4] ++ u "_" ++ [m1; m2] ++ u "_" ++ [d1; d2] ++ rest.

(** A display name that begins with a date in the Chinese notation. *)
Definition chinese_dated (y1 y2 y3 y4 m1 m2 d1 d2 : N) (rest : text) : text :=
  [y1; y2; y3; y4] ++ u "年" ++ [m1; m2] ++ u "月" ++ [d1; d2] ++ u "日" ++ rest.

(** The exception of an unpacking into three names that finds more. *)
Definition too_many_values : exn :=
  ValueError (u "too many values to unpack (expected 3)").

(** ** One file of the page-per-file converter *)

(** A document body after the cross-reference and image steps, and after
    the whole transformation, against a registry. *)
Definition notion_linked (registry : gmap text (text * text)) (body : text)
  : text :=
  Notion.convert_image_links
    (concat (map (link_piece registry) (scan re_page_link body))).

Definition notion_written (registry : gmap text (text * text)) (body : text)
  : text :=
  Notion.convert_logseq_syntax (notion_linked registry body).

(** The warnings that converting the cross-references of a body logs. *)
Definition notion_warnings (registry : gmap text (text * text)) (body : text)
  : list text :=
  map miss_warning (misses registry (scan re_page_link body)).

(** The log entries of [convert_file]. *)
Definition notion_failure_entry (e : export) (dir : string) (stem : text)
  (why : text) : text :=
  u "转换文件失败 " ++ Notion.source_path e dir stem ++ u ": " ++ why.

Definition notion_done_entry (stem target : text) : text :=
  u "转换完成: " ++ Notion.md_name stem ++ u " -> " ++ target.

(** What a write of [content] to [path] leaves behind in a set of files:
    the content when it succeeds, the characters written so far when it
    fails after the file was opened, and the files as they were when the
    file cannot be opened. *)
Definition put_if (w : world) (path content : text) (files : gmap text text)
  : gmap text text :=
  match write_error w path with
  | None => <[path := content]> files
  | Some _ =>
    match write_progress w path with
    | Some n => <[path := take n content]> files
    | None => files
    end
  end.

(** What a write of [content] to [path] can have left in the file: the
    content, or the characters written before it failed. *)
Definition left_by_write (w : world) (path content data : text) : Prop :=
  match write_error w path with
  | None => data = content
  | Some _ => exists n, write_progress w path = Some n /\ data = take n content
  end.

(** The files after [convert_file] ran for a document and a target. *)
Definition notion_files_after (w : world) (f : text * source) (target : text)
  (st : Notion.converter) : gmap text text :=
  match f.2 with
  | Content body =>
    put_if w target (notion_written (Notion.page_mapping st) body)
      (Notion.output_files st)
  | Unreadable _ => Notion.output_files st
  end.

(** The object after a write of [content] to [target] that failed. *)
Definition notion_truncated (w : world) (target content : text)
  (self : Notion.converter) : Notion.converter :=
  match write_progress w target with
  | Some n => Notion.put_file target (take n content) self
  | None => self
  end.

(** What one call of [convert_file] returns and leaves behind. *)
Definition notion_file_step (w : world) (e : export) (dir : string)
  (f : text * source) (target : text) (st : Notion.converter)
  : res unit * Notion.converter :=
  match f.2 with
  | Unreadable why =>
    (Val tt, Notion.append_log (notion_failure_entry e dir f.1 why) st)
  | Content body =>
    let st1 := logged (notion_warnings (Notion.page_mapping st) body) st in
    match write_error w target with
    | Some why =>
      (Val tt,
       Notion.append_log (notion_failure_entry e dir f.1 why)
         (notion_truncated w target
            (notion_written (Notion.page_mapping st) body) st1))
    | None =>
      (Val tt,
       Notion.append_log (notion_done_entry f.1 target)
         (Notion.put_file target
            (notion_written (Notion.page_mapping st) body) st1))
    end
  end.

(** Two objects that differ at most in the log and in the files written. *)
Definition same_settings (a b : Notion.converter) : Prop :=
  Notion.generate_uuid a = Notion.generate_uuid b /\
  Notion.page_mapping a = Notion.page_mapping b /\
  Notion.asset_mapping a = Notion.asset_mapping b /\
  Notion.written_report a = Notion.written_report b /\
  Notion.uuid_draws a = Notion.uuid_draws b.

(** The file [name] with content [data] is what writing the transformation,
    against the registry, of a readable document of the export that the
    registry sends to [name] has left: the transformation, or its beginning
    when the write failed after the file was opened. *)
Definition written_from (w : world) (e : export)
  (registry : gmap text (text * text)) (name data : text) : Prop :=
  exists key body token,
    (key, Content body) ∈ pages e ++ journals e /\
    registry !! key = Some (name, token) /\
    left_by_write w name (notion_written registry body) data.

(** ** Assets *)

(** Source path and destination of an asset, as [copy_and_convert_assets]
    enters them in the asset mapping. *)
Definition asset_source (e : export) (rel : text) : text :=
  logseq_path e ++ u "/assets/" ++ rel.

Definition asset_destination (w : world) (rel : text) : text :=
  output_path w ++ u "/assets/" ++ basename rel.

(** An export with two assets of the same name in different directories. *)
Definition nested_assets : export :=
  Export notes_path [] [] (Some [u "a/logo.png"; u "b/logo.png"]).

(** ** Link targets *)

(** The characters that [quote] with an empty [safe] can produce: the
    percent sign, hyphen, dot, and characters from the digit zero on. *)
Definition target_char (c : N) : Prop :=
  c = 37 \/ c = 45 \/ c = 46 \/ 48 <= c.

(** A link target that cannot end the link early or leave the directory:
    no space, no parenthesis, no slash. *)
Definition safe_target (t : text) : Prop :=
  (32 ∉ t) /\ (40 ∉ t) /\ (41 ∉ t) /\ (47 ∉ t).

(** ** Image links *)

Definition not_bracket : N -> bool := none_of (u "]").
Definition not_paren : N -> bool := none_of (u ")").

(** The image pattern, atom by atom. *)
Definition image_pattern : regex :=
  lits [33; 91] ++ GOpen :: Star Greedy not_bracket :: GClose ::
  lits [93; 40] ++ GOpen :: Cls not_paren :: Star Greedy not_paren :: GClose ::
  lits [41].

(** An image link: exclamation mark, alternative text in square brackets,
    path in parentheses. *)
Definition image_link (alt path : text) : text :=
  [33; 91] ++ alt ++ [93; 40] ++ path ++ [41].

(** The test of [replace_image_link] on the path. *)
Definition mentions_assets (image_path : text) : bool :=
  starts_with (u "../assets/") image_path || contains (u "assets/") image_path.

(** ** The Content Transformer applied again *)

(** The scan of [s] for cross-references finds none. *)
Definition links_settled (s : text) : bool :=
  forallb (fun p => match p with
                    | Keep _ => true
                    | Hit _ _ => false
                    end)
    (scan re_page_link s).

(** No image link that the scan of [s] finds has a path that mentions the
    asset directory. *)
Definition images_settled (s : text) : bool :=
  forallb (fun p => match p with
                    | Keep _ => true
                    | Hit _ gs => negb (mentions_assets (group gs 2))
                    end)
    (scan Notion.re_image s).

(** ** The run of the page-per-file converter *)

(** The entry that [convert] logs for an exception before raising it
    again. *)
Definition notion_error_entry (err : exn) : text :=
  u "转换过程中发生错误: " ++ exn_str err.

(** The documents of an export in the order in which [convert_all_pages]
    visits them, each with its directory. *)
Definition documents (e : export) : list (string * (text * source)) :=
  map (pair "pages"%string) (pages e) ++ map (pair "journals"%string) (journals e).

(** Two pages whose names differ only in a character that
    [sanitize_filename] replaces. *)
Definition colliding_names : export :=
  Export notes_path
    [(u "a:b", Content (u "one")); (u "a_b", Content (u "two"))] [] None.

(** ** The run of the tabular converter *)

(** Two objects of the tabular converter that differ at most in the log,
    the asset mapping, the files written and the report. *)
Definition steady (a b : TeamRun.converter) : Prop :=
  Team.with_uuid (TeamRun.core a) = Team.with_uuid (TeamRun.core b) /\
  Team.database_entries (TeamRun.core a) = Team.database_entries (TeamRun.core b) /\
  Team.page_mapping (TeamRun.core a) = Team.page_mapping (TeamRun.core b) /\
  Team.database_files (TeamRun.core a) = Team.database_files (TeamRun.core b) /\
  TeamRun.source_name a = TeamRun.source_name b /\
  TeamRun.team_name a = TeamRun.team_name b /\
  TeamRun.main_page_name a = TeamRun.main_page_name b /\
  TeamRun.database_name a = TeamRun.database_name b.

(** Two objects with the same files written and the same report. *)
Definition unwritten (a b : TeamRun.converter) : Prop :=
  TeamRun.output_files a = TeamRun.output_files b /\
  TeamRun.written_report a = TeamRun.written_report b.

(** A method that always returns, in a state related to the one it
    started in. *)
Definition keeps (R : TeamRun.converter -> TeamRun.converter -> Prop)
  (m : M TeamRun.converter unit) : Prop :=
  forall s, exists s', m s = (Val tt, s') /\ R s s'.

(** Steady objects with the same files and report, and steady objects
    with the same files. *)
Definition intact (a b : TeamRun.converter) : Prop :=
  steady a b /\ unwritten a b.

Definition same_files (a b : TeamRun.converter) : Prop :=
  steady a b /\ TeamRun.output_files a = TeamRun.output_files b.

(** What writing the same content to several paths leaves behind. *)
Definition write_all (w : world) (content : text) (paths : list text)
  (files : gmap text text) : gmap text text :=
  foldl (fun files path => put_if w path content files) files paths.

(** The entry that [convert] logs for an exception before raising it
    again. *)
Definition team_error_entry (err : exn) : text :=
  u "转换过程中发生错误: " ++ exn_str err.

(** The names of the six view tables, after the name of the database. *)
Definition view_suffixes : list text :=
  [u "_today.csv"; u "_global.csv"; u "_projects.csv"; u "_tasks.csv";
   u "_meetings.csv"; u "_wiki.csv"].

(** The path of a table, relative to the output directory. *)
Definition table_path (self : TeamRun.converter) (suffix : text) : text :=
  TeamRun.main_page_name self ++ u "/" ++ TeamRun.database_name self ++ suffix.

(** Parameters of a sample run of the tabular converter: every directory
    can be made, the asset [a/broken.png] cannot be copied, a table is
    rendered as the number of its rows, and the clock stands still. *)
Definition sample_copy_error (rel : text) : option text :=
  if bool_decide (rel = u "a/broken.png") then Some (u "Permission denied")
  else None.

Definition sample_csv (headers : list text) (entries : list Team.entry) : text :=
  str_of_nat (length entries).

Definition sample_now (n : nat) : text := u "2025-01-01 00:00:00".

Definition sample_team : TeamRun.converter :=
  TeamRun.init calm_world (u "notes") (u "LogSeq导入团队") false.

(** An export with three assets, one of which cannot be copied. *)
Definition some_assets : export :=
  Export notes_path [(u "A", Content (u "a"))] []
    (Some [u "a/logo.png"; u "a/broken.png"; u "b/logo.png"]).

(** * Lemmas on the model *)

Arguments u : simpl never.
Arguments str_of_nat : simpl never.

(** ** Running methods *)

Lemma run_bind {S A B} (m : M S A) (k : A -> M S B) (s : S) :
  (m ≫= k) s =
  match m s with
  | (Val a, s') => k a s'
  | (Exc err, s') => (Exc err, s')
  end.
Proof. reflexivity. Qed.

Lemma run_ret {S A} (a : A) (s : S) : (mret a : M S A) s = (Val a, s).
Proof. reflexivity. Qed.

Lemma for_each_cons {S A} (x : A) (xs : list A) (body : A -> M S unit) (s : S) :
  for_each (x :: xs) body s =
  match body x s with
  | (Val _, s') => for_each xs body s'
  | (Exc err, s') => (Exc err, s')
  end.
Proof. reflexivity. Qed.

(** A loop that completes has completed every iteration, and a property of
    the state that each completed iteration keeps holds at the end. *)
Lemma for_each_completes {S A} (I : S -> Prop) (xs : list A)
  (body : A -> M S unit) :
  (forall x s s', x ∈ xs -> I s -> body x s = (Val tt, s') -> I s') ->
  forall s s', I s -> for_each xs body s = (Val tt, s') -> I s'.
Proof.
  induction xs as [|x xs IH]; intros Hstep s s' Hs Hrun.
  - inversion Hrun; subst; exact Hs.
  - rewrite for_each_cons in Hrun.
    destruct (body x s) as [[[]|err] s1] eqn:Hx; [|discriminate].
    apply (IH (fun y t t' Hy => Hstep y t t' (list_elem_of_further _ _ _ Hy)) s1 s');
      [|exact Hrun].
    apply (Hstep x s s1); [left | exact Hs | exact Hx].
Qed.

(** A property that every iteration keeps, whether it completes or raises,
    holds when the loop stops. *)
Lemma for_each_always {S A} (I : S -> Prop) (xs : list A)
  (body : A -> M S unit) :
  (forall x s r s', x ∈ xs -> I s -> body x s = (r, s') -> I s') ->
  forall s r s', I s -> for_each xs body s = (r, s') -> I s'.
Proof.
  induction xs as [|x xs IH]; intros Hstep s r s' Hs Hrun.
  - inversion Hrun; subst; exact Hs.
  - rewrite for_each_cons in Hrun.
    destruct (body x s) as [[[]|err] s1] eqn:Hx.
    + apply (IH (fun y t q t' Hy => Hstep y t q t' (list_elem_of_further _ _ _ Hy)) s1 r s');
        [|exact Hrun].
      apply (Hstep x s (Val tt) s1); [left | exact Hs | exact Hx].
    + inversion Hrun; subst.
      apply (Hstep x s (Exc err) s'); [left | exact Hs | exact Hx].
Qed.
(** ** Substitution of single characters *)

Lemma scan_from_cls (p : N -> bool) (prev : option N) (s : text) :
  scan_from (cls p) prev 0 s = map (fun c => if p c then Hit [c] [] else Keep c) s.
Proof.
  revert prev. induction s as [|c s IH]; intros prev; [reflexivity|].
  cbn [scan_from cls rmatch map]. destruct (p c); cbn; rewrite IH; reflexivity.
Qed.

Lemma re_sub_cls (p : N -> bool) (r : text) (s : text) :
  re_sub (cls p) (fun _ _ => r) s = concat (map (fun c => if p c then r else [c]) s).
Proof.
  unfold re_sub, scan. rewrite scan_from_cls, map_map. f_equal.
  apply map_ext. intros c. destruct (p c); reflexivity.
Qed.

Lemma one_of_elem (cs : text) (c : N) : one_of cs c = true <-> c ∈ cs.
Proof.
  unfold one_of. rewrite existsb_exists. split.
  - intros (x & Hx & E). apply N.eqb_eq in E. subst. by apply list_elem_of_In.
  - intros H. exists c. split; [by apply list_elem_of_In | apply N.eqb_refl].
Qed.

Lemma one_of_not_elem (cs : text) (c : N) : one_of cs c = false <-> c ∉ cs.
Proof. rewrite <- one_of_elem. destruct (one_of cs c); split; congruence. Qed.

(** Membership in a list of texts can be settled by computing. *)
Lemma elem_of_by_computation (x : text) (l : list text) :
  bool_decide (x ∈ l) = true -> x ∈ l.
Proof. apply bool_decide_eq_true_1. Qed.

(** ** [strip] *)

Lemma lstrip_by_suffix (p : N -> bool) (s : text) : lstrip_by p s `suffix_of` s.
Proof.
  induction s as [|c s IH]; [done|]. simpl. destruct (p c); [|done].
  by apply suffix_cons_r.
Qed.

Lemma lstrip_by_head (p : N -> bool) (s : text) (c : N) (t : text) :
  lstrip_by p s = c :: t -> p c = false.
Proof.
  induction s as [|d s IH]; [done|]. simpl. destruct (p d) eqn:E; [done|].
  intros [= -> _]. exact E.
Qed.

Lemma rstrip_by_prefix (p : N -> bool) (s : text) : rstrip_by p s `prefix_of` s.
Proof.
  unfold rstrip_by. destruct (lstrip_by_suffix p (reverse s)) as [k Hk].
  exists (reverse k). apply (inj reverse). by rewrite reverse_app, !reverse_involutive.
Qed.

Lemma rstrip_by_last (p : N -> bool) (s : text) (c : N) (t : text) :
  rstrip_by p s = t ++ [c] -> p c = false.
Proof.
  unfold rstrip_by. intros H. apply (f_equal reverse) in H.
  rewrite reverse_involutive, reverse_app in H. simpl in H.
  by apply lstrip_by_head in H.
Qed.

Lemma strip_by_sublist (p : N -> bool) (s : text) (c : N) :
  c ∈ strip_by p s -> c ∈ s.
Proof.
  unfold strip_by. intros H.
  destruct (rstrip_by_prefix p (lstrip_by p s)) as [k Hk].
  destruct (lstrip_by_suffix p s) as [k' Hk'].
  rewrite Hk', Hk. set_solver.
Qed.

Lemma strip_by_head (p : N -> bool) (s : text) (c : N) (t : text) :
  strip_by p s = c :: t -> p c = false.
Proof.
  unfold strip_by. intros H.
  destruct (rstrip_by_prefix p (lstrip_by p s)) as [k Hk].
  rewrite H in Hk. simpl in Hk. by apply lstrip_by_head in Hk.
Qed.

Lemma strip_by_last (p : N -> bool) (s : text) (c : N) (t : text) :
  strip_by p s = t ++ [c] -> p c = false.
Proof. apply rstrip_by_last. Qed.

Lemma lstrip_by_keeps (p : N -> bool) (s : text) (c : N) :
  c ∈ s -> p c = false -> c ∈ lstrip_by p s.
Proof.
  induction s as [|d s IH]; [by intros ?%elem_of_nil|].
  intros [->|Hin]%elem_of_cons Hc; simpl.
  - rewrite Hc. left.
  - destruct (p d); [by apply IH | by right].
Qed.

Lemma strip_by_keeps (p : N -> bool) (s : text) (c : N) :
  c ∈ s -> p c = false -> c ∈ strip_by p s.
Proof.
  intros Hin Hc. unfold strip_by, rstrip_by.
  apply elem_of_reverse, lstrip_by_keeps; [|done].
  apply elem_of_reverse. by apply lstrip_by_keeps.
Qed.

(** ** [sanitize_filename] *)

Lemma sanitize_filename_eq (s : text) :
  sanitize_filename s = strip (u ". ") (map replace_hostile s).
Proof.
  unfold sanitize_filename. rewrite re_sub_cls.
  assert (E : concat (map (fun c => if one_of path_hostile c then u "_" else [c]) s)
              = map replace_hostile s).
  { induction s as [|c s IH]; [reflexivity|].
    cbn [map concat]. rewrite IH.
    unfold replace_hostile. destruct (one_of path_hostile c); reflexivity. }
  rewrite E. reflexivity.
Qed.

Lemma replace_hostile_safe (c : N) : replace_hostile c ∉ path_hostile.
Proof.
  unfold replace_hostile. destruct (one_of path_hostile c) eqn:E.
  - apply one_of_not_elem. reflexivity.
  - by apply one_of_not_elem.
Qed.

Lemma sanitize_hostile_free (s : text) : hostile_free (sanitize_filename s).
Proof.
  intros c Hc. rewrite sanitize_filename_eq in Hc.
  apply strip_by_sublist, list_elem_of_fmap in Hc as (d & -> & _).
  apply replace_hostile_safe.
Qed.

Lemma dot_or_space (c : N) : one_of (u ". ") c = false <-> c <> 46 /\ c <> 32.
Proof.
  rewrite one_of_not_elem. change (u ". ") with [46; 32].
  rewrite !not_elem_of_cons. split; [tauto | intros []; repeat split; auto using not_elem_of_nil].
Qed.

Lemma sanitize_no_leading (s : text) : no_leading_dot_or_space (sanitize_filename s).
Proof.
  intros c t H. rewrite sanitize_filename_eq in H.
  apply strip_by_head in H. by apply dot_or_space.
Qed.

Lemma sanitize_no_trailing (s : text) : no_trailing_dot_or_space (sanitize_filename s).
Proof.
  intros c t H. rewrite sanitize_filename_eq in H.
  apply strip_by_last in H. by apply dot_or_space.
Qed.

Lemma sanitize_solid (s : text) : solid s -> sanitize_filename s <> [].
Proof.
  intros (c & Hin & Hc) E. rewrite sanitize_filename_eq in E.
  assert (Hk : replace_hostile c ∈ strip (u ". ") (map replace_hostile s)).
  { apply strip_by_keeps; [by apply list_elem_of_fmap_2|].
    apply dot_or_space. unfold replace_hostile.
    destruct (one_of path_hostile c); [split; discriminate | done]. }
  rewrite E in Hk. by apply elem_of_nil in Hk.
Qed.

(** The filename built from a display name when no identifier is added. *)
Lemma md_hostile_free (s : text) : hostile_free s -> hostile_free (s ++ u ".md").
Proof.
  intros H c [Hc|Hc]%elem_of_app; [by apply H|].
  change (u ".md") with [46; 109; 100] in Hc.
  apply one_of_not_elem.
  repeat (apply elem_of_cons in Hc as [->|Hc]; [reflexivity|]).
  by apply elem_of_nil in Hc.
Qed.

Lemma md_no_trailing (s : text) : no_trailing_dot_or_space (s ++ u ".md").
Proof.
  intros c t H. change (u ".md") with ([46; 109] ++ [100]) in H.
  rewrite app_assoc in H. apply app_inj_tail in H as [_ <-]. split; discriminate.
Qed.

Lemma md_no_leading (s : text) :
  s <> [] -> no_leading_dot_or_space s -> no_leading_dot_or_space (s ++ u ".md").
Proof.
  intros Hne H c t E. destruct s as [|d s]; [done|].
  simpl in E. injection E as <- _. by apply (H d s).
Qed.

(** ** [scan_pages] *)

Module NotionFacts.
Import Notion.

Lemma fresh_page_uuid_shadowed w st :
  generate_uuid st = true -> fresh_page_uuid w st = (Exc shadow_error, st).
Proof.
  intros H. unfold fresh_page_uuid. rewrite run_bind. simpl.
  unfold getattr_generate_uuid, instance_dict_generate_uuid. rewrite H. reflexivity.
Qed.

Lemma fresh_page_uuid_off w st :
  generate_uuid st = false -> fresh_page_uuid w st = (Val [], st).
Proof.
  intros H. unfold fresh_page_uuid. rewrite run_bind. simpl.
  unfold getattr_generate_uuid, instance_dict_generate_uuid. rewrite H. reflexivity.
Qed.

Lemma unpack3_pure {S} (parts : list text) (s : S) :
  unpack3 parts s = (outcome (unpack3 parts s), s) /\
  forall s' : converter, outcome (unpack3 parts s) = outcome (unpack3 parts s').
Proof.
  destruct parts as [|a [|b [|c [|d ?]]]]; split; reflexivity.
Qed.

(** Computing the display name of a journal entry leaves the object alone. *)
Lemma journal_page_name_pure k st :
  journal_page_name k st = (journal_display k, st).
Proof.
  unfold journal_display, journal_page_name.
  destruct (re_match re_date_key k); [|reflexivity].
  rewrite !run_bind.
  destruct (split_on 95 k) as [|a [|b [|c [|d ?]]]]; reflexivity.
Qed.

Lemma scan_page_shadowed w st k :
  generate_uuid st = true -> scan_page w k st = (Exc shadow_error, st).
Proof.
  intros H. unfold scan_page.
  rewrite run_bind, (fresh_page_uuid_shadowed w st H). reflexivity.
Qed.

Lemma scan_journal_shadowed w st k :
  generate_uuid st = true -> exists err, scan_journal w k st = (Exc err, st).
Proof.
  intros H. unfold scan_journal. rewrite run_bind, journal_page_name_pure.
  destruct (journal_display k) as [name|err]; [|by exists err].
  rewrite run_bind, (fresh_page_uuid_shadowed w st H). by eexists.
Qed.

Lemma scan_page_off w st k :
  generate_uuid st = false ->
  scan_page w k st =
  (Val tt,
   append_log (u "页面映射: " ++ k ++ u " -> " ++ (sanitize_filename k ++ u ".md"))
     (set_page_mapping k (sanitize_filename k ++ u ".md", []) st)).
Proof.
  intros H. unfold scan_page.
  rewrite run_bind, (fresh_page_uuid_off w st H). simpl.
  rewrite !run_bind. simpl.
  unfold create_notion_filename, getattr_generate_uuid, instance_dict_generate_uuid.
  rewrite H. reflexivity.
Qed.

Lemma scan_journal_off w st k :
  generate_uuid st = false ->
  scan_journal w k st =
  match journal_display k with
  | Val name =>
    (Val tt,
     append_log (u "日记映射: " ++ k ++ u " -> " ++ (sanitize_filename name ++ u ".md"))
       (set_page_mapping k (sanitize_filename name ++ u ".md", []) st))
  | Exc err => (Exc err, st)
  end.
Proof.
  intros H. unfold scan_journal. rewrite run_bind, journal_page_name_pure.
  destruct (journal_display k) as [name|err]; [|reflexivity].
  rewrite run_bind, (fresh_page_uuid_off w st H). simpl.
  rewrite !run_bind. simpl.
  unfold create_notion_filename, getattr_generate_uuid, instance_dict_generate_uuid.
  rewrite H. reflexivity.
Qed.

Lemma pages_loop_off w (ps : list (text * source)) st :
  generate_uuid st = false ->
  exists st1,
    for_each ps (fun f => scan_page w f.1) st = (Val tt, st1) /\
    generate_uuid st1 = false /\
    forall K, page_mapping st1 !! K =
              if decide (K ∈ stems ps) then Some (plain_entry K)
              else page_mapping st !! K.
Proof.
  revert st. induction ps as [|[k src] ps IH]; intros st Hoff.
  - exists st. split; [reflexivity|]. split; [exact Hoff|]. intros K.
    destruct (decide (K ∈ stems [])) as [Hin|]; [by apply elem_of_nil in Hin | done].
  - rewrite for_each_cons. cbn [fst]. rewrite (scan_page_off w st k Hoff).
    destruct (IH (append_log
                    (u "页面映射: " ++ k ++ u " -> " ++ (sanitize_filename k ++ u ".md"))
                    (set_page_mapping k (sanitize_filename k ++ u ".md", []) st)))
      as (st1 & Hrun & Hoff1 & Hmap); [exact Hoff|].
    exists st1. split; [exact Hrun|]. split; [exact Hoff1|].
    intros K. rewrite Hmap. unfold stems. cbn [fmap list_fmap fst page_mapping append_log set_page_mapping].
    destruct (decide (K ∈ ps.*1)) as [Hin|Hnin].
    + rewrite decide_True by (by right). done.
    + destruct (decide (K = k)) as [->|Hne].
      * rewrite decide_True by left. by rewrite lookup_insert_eq.
      * rewrite decide_False by (intros [?|?]%elem_of_cons; done).
        by rewrite lookup_insert_ne.
Qed.

Lemma journals_loop_off w (js : list (text * source)) st st1 :
  generate_uuid st = false ->
  for_each js (fun f => scan_journal w f.1) st = (Val tt, st1) ->
  generate_uuid st1 = false /\
  forall K,
    (K ∈ stems js ->
     exists name, journal_display K = Val name /\
                  page_mapping st1 !! K = Some (plain_entry name)) /\
    (K ∉ stems js -> page_mapping st1 !! K = page_mapping st !! K).
Proof.
  revert st. induction js as [|[k src] js IH]; intros st Hoff Hrun.
  - inversion Hrun; subst. split; [done|]. intros K. split; [|done].
    by intros ?%elem_of_nil.
  - rewrite for_each_cons in Hrun. cbn [fst] in Hrun.
    rewrite (scan_journal_off w st k Hoff) in Hrun.
    destruct (journal_display k) as [name|err] eqn:Hname; [|discriminate].
    apply IH in Hrun as [Hoff1 Hmap]; [|exact Hoff].
    split; [exact Hoff1|]. intros K. destruct (Hmap K) as [Hin Hout].
    unfold stems in *. cbn [fmap list_fmap fst] in *.
    destruct (decide (K ∈ js.*1)) as [Hjs|Hjs].
    + split; [intros _; by apply Hin|]. intros Hn. exfalso. apply Hn. by right.
    + rewrite (Hout Hjs). cbn [page_mapping append_log set_page_mapping].
      split.
      * intros [->|?]%elem_of_cons; [|done].
        exists name. by rewrite lookup_insert_eq.
      * intros Hn. rewrite lookup_insert_ne; [done|].
        intros ->. apply Hn. left.
Qed.

(** The registry that a completed scan leaves when no identifier is
    generated. *)
Lemma scan_pages_off w e st st' :
  generate_uuid st = false ->
  scan_pages w e st = (Val tt, st') ->
  forall K,
    (K ∈ stems (journals e) ->
     exists name, journal_display K = Val name /\
                  page_mapping st' !! K = Some (plain_entry name)) /\
    (K ∉ stems (journals e) -> K ∈ stems (pages e) ->
     page_mapping st' !! K = Some (plain_entry K)) /\
    (K ∉ stems (journals e) -> K ∉ stems (pages e) ->
     page_mapping st' !! K = page_mapping st !! K).
Proof.
  intros Hoff Hrun K. unfold scan_pages in Hrun.
  rewrite run_bind in Hrun. cbn [log modify] in Hrun. rewrite run_bind in Hrun.
  destruct (pages_loop_off w (pages e) (append_log (u "开始扫描页面...") st) Hoff)
    as (st1 & Hpages & Hoff1 & Hmap1).
  rewrite Hpages in Hrun.
  destruct (journals_loop_off w (journals e) st1 st' Hoff1 Hrun) as [_ Hmap].
  destruct (Hmap K) as [Hin Hout]. split; [exact Hin|].
  split; intros Hj Hp; rewrite (Hout Hj), Hmap1.
  - by rewrite decide_True.
  - by rewrite decide_False.
Qed.

(** With identifiers enabled a scan that completes has met no document. *)
Lemma scan_pages_shadowed w e st st' :
  generate_uuid st = true ->
  scan_pages w e st = (Val tt, st') ->
  pages e = [] /\ journals e = [] /\ page_mapping st' = page_mapping st.
Proof.
  intros Hon Hrun. unfold scan_pages in Hrun.
  rewrite run_bind in Hrun. cbn [log modify] in Hrun. rewrite run_bind in Hrun.
  destruct (pages e) as [|[k src] ps].
  - cbn [for_each] in Hrun. rewrite run_ret in Hrun.
    destruct (journals e) as [|[k src] js].
    + inversion Hrun; subst. done.
    + rewrite for_each_cons in Hrun. cbn [fst] in Hrun.
      destruct (scan_journal_shadowed w (append_log (u "开始扫描页面...") st) k Hon)
        as [err Herr].
      rewrite Herr in Hrun. discriminate.
  - rewrite for_each_cons in Hrun. cbn [fst] in Hrun.
    rewrite (scan_page_shadowed w (append_log (u "开始扫描页面...") st) k Hon) in Hrun.
    discriminate.
Qed.

(** A completed scan has given every page and every journal entry of the
    export an entry in the registry. *)
Lemma scan_pages_total w e st st' K :
  scan_pages w e st = (Val tt, st') ->
  K ∈ stems (pages e) ++ stems (journals e) ->
  is_Some (page_mapping st' !! K).
Proof.
  intros Hrun Hin. destruct (generate_uuid st) eqn:Hflag.
  - destruct (scan_pages_shadowed w e st st' Hflag Hrun) as (Hp & Hj & _).
    rewrite Hp, Hj in Hin. by apply elem_of_nil in Hin.
  - destruct (scan_pages_off w e st st' Hflag Hrun K) as (Hjournal & Hpage & _).
    destruct (decide (K ∈ stems (journals e))) as [Hj|Hj].
    + destruct (Hjournal Hj) as (name & _ & ->). by eexists.
    + apply elem_of_app in Hin as [Hp|?]; [|done].
      rewrite (Hpage Hj Hp). by eexists.
Qed.

(** Without identifiers the filename is the sanitised name and the
    extension. *)
Lemma create_notion_filename_off w (self : converter) (name page_uuid : text) :
  generate_uuid self = false ->
  create_notion_filename w self name page_uuid = sanitize_filename name ++ u ".md".
Proof.
  intros H. unfold create_notion_filename, getattr_generate_uuid,
    instance_dict_generate_uuid. by rewrite H.
Qed.

(** The display name of a journal entry keeps a character that [strip]
    keeps, or brings one. *)
Lemma journal_display_solid (K name : text) :
  journal_display K = Val name -> solid K -> solid name.
Proof.
  unfold journal_display, journal_page_name. intros Hname Hsolid.
  destruct (re_match re_date_key K).
  - rewrite run_bind in Hname.
    destruct (split_on 95 K) as [|a [|b [|c [|d ?]]]]; try discriminate Hname.
    cbn in Hname.
    assert (E : name = a ++ u "年" ++ b ++ u "月" ++ c ++ u "日") by congruence.
    exists 24180. split; [|split; discriminate].
    rewrite E. apply elem_of_app. right. apply elem_of_app. left.
    change (u "年") with [24180]. left.
  - cbn in Hname. congruence.
Qed.

(** ** The cross-reference step *)

Lemma logged_cons (entry : text) (entries : list text) (self : converter) :
  logged (entry :: entries) self = logged entries (append_log entry self).
Proof. reflexivity. Qed.

Lemma logged_registry (entries : list text) (self : converter) :
  page_mapping (logged entries self) = page_mapping self.
Proof.
  revert self. induction entries as [|x xs IH]; intros self; [reflexivity|].
  rewrite logged_cons, IH. reflexivity.
Qed.

Lemma logged_log (entries : list text) (self : converter) :
  conversion_log (logged entries self) = conversion_log self ++ entries.
Proof.
  revert self. induction entries as [|x xs IH]; intros self.
  - cbn. by rewrite app_nil_r.
  - rewrite logged_cons, IH. cbn. by rewrite <- app_assoc.
Qed.

Lemma logged_files (entries : list text) (self : converter) :
  output_files (logged entries self) = output_files self.
Proof.
  revert self. induction entries as [|x xs IH]; intros self; [reflexivity|].
  rewrite logged_cons, IH. reflexivity.
Qed.

(** One call of the replacement function: a link, or the placeholder and
    one warning. *)
Lemma replace_page_link_run (whole : text) (gs : list text) (self : converter) :
  replace_page_link whole gs self =
  (Val (link_piece (page_mapping self) (Hit whole gs)),
   logged (map miss_warning (misses (page_mapping self) [Hit whole gs])) self).
Proof.
  unfold replace_page_link. rewrite run_bind. cbn [get link_piece misses].
  destruct (page_mapping self !! group gs 1) as [[fn id]|].
  - reflexivity.
  - rewrite run_bind. unfold log, modify, anchor_placeholder, miss_warning.
    cbn [map logged foldl]. reflexivity.
Qed.

Lemma render_links_run (ps : list piece) (self : converter) :
  render_m replace_page_link ps self =
  (Val (concat (map (link_piece (page_mapping self)) ps)),
   logged (map miss_warning (misses (page_mapping self) ps)) self).
Proof.
  revert self. induction ps as [|[c|whole gs] ps IH]; intros self.
  - reflexivity.
  - cbn [render_m]. rewrite run_bind, IH. reflexivity.
  - cbn [render_m]. rewrite run_bind, replace_page_link_run.
    rewrite run_bind, IH, logged_registry. cbn [link_piece misses map concat].
    destruct (page_mapping self !! group gs 1) as [[fn id]|]; reflexivity.
Qed.

(** [convert_links] never raises, and leaves registry and files alone. *)
Lemma convert_links_run (content : text) (self : converter) :
  convert_links content self =
  (Val (convert_image_links
          (concat (map (link_piece (page_mapping self))
                     (scan re_page_link content)))),
   logged (map miss_warning (misses (page_mapping self) (scan re_page_link content)))
     self).
Proof.
  unfold convert_links, re_sub_m. rewrite run_bind, render_links_run.
  reflexivity.
Qed.

End NotionFacts.

(** ** The tabular converter *)

Module TeamFacts.
Import Team.

Lemma convert_date_format_pure (k : text) (st : converter) :
  convert_date_format k st = (outcome (convert_date_format k (init false)), st).
Proof.
  unfold convert_date_format.
  destruct (re_match re_date_key k).
  - rewrite !run_bind.
    destruct (split_on 95 k) as [|a [|b [|c [|d ?]]]]; reflexivity.
  - destruct (re_match re_chinese_date k); reflexivity.
Qed.

Lemma page_header_not_empty (page_name page_type start_date summary : text) :
  (0 < length (page_header page_name page_type start_date summary))%nat.
Proof.
  unfold page_header. destruct start_date, summary;
    rewrite !length_app; cbn [length]; lia.
Qed.

Lemma header_shows (header body : text) :
  (0 < length header)%nat -> header ++ body <> body.
Proof.
  intros Hlen E. apply (f_equal length) in E. rewrite length_app in E. lia.
Qed.

End TeamFacts.

(** ** The matcher and its relation *)

Lemma rmatch_greedy_cons p r prev ms c s :
  rmatch (Star Greedy p :: r) prev ms (c :: s) =
  if p c then
    match rmatch (Star Greedy p :: r) (Some c) (ms_adv ms) s with
    | Some x => Some x
    | None => rmatch r prev ms (c :: s)
    end
  else rmatch r prev ms (c :: s).
Proof. reflexivity. Qed.

Lemma rmatch_greedy_nil p r prev ms :
  rmatch (Star Greedy p :: r) prev ms [] = rmatch r prev ms [].
Proof. reflexivity. Qed.

Lemma rmatch_lazy_cons p r prev ms c s :
  rmatch (Star Lazy p :: r) prev ms (c :: s) =
  match rmatch r prev ms (c :: s) with
  | Some x => Some x
  | None =>
    if p c then rmatch (Star Lazy p :: r) (Some c) (ms_adv ms) s else None
  end.
Proof. reflexivity. Qed.

Lemma rmatch_lazy_nil p r prev ms :
  rmatch (Star Lazy p :: r) prev ms [] = rmatch r prev ms [].
Proof. cbn. destruct (rmatch r prev ms []); reflexivity. Qed.

(** What [rmatch] returns is a match. *)
Lemma rmatch_sound r prev ms s res :
  rmatch r prev ms s = Some res -> matched r prev ms s res.
Proof.
  revert prev ms s res. induction r as [|a r IH]; intros prev ms s res H.
  - cbn in H. injection H as <-. constructor.
  - destruct a as [p|[|] p| | | |].
    + destruct s as [|c s]; [discriminate|]. cbn in H.
      destruct (p c) eqn:Hp; [|discriminate]. constructor; auto.
    + revert prev ms H. induction s as [|c s IHs]; intros prev ms H.
      * rewrite rmatch_greedy_nil in H. apply matched_star_skip; auto.
      * rewrite rmatch_greedy_cons in H. destruct (p c) eqn:Hp.
        -- destruct (rmatch (Star Greedy p :: r) (Some c) (ms_adv ms) s) eqn:E.
           ++ injection H as <-. apply matched_star_take; auto.
           ++ apply matched_star_skip; auto.
        -- apply matched_star_skip; auto.
    + revert prev ms H. induction s as [|c s IHs]; intros prev ms H.
      * rewrite rmatch_lazy_nil in H. apply matched_star_skip; auto.
      * rewrite rmatch_lazy_cons in H.
        destruct (rmatch r prev ms (c :: s)) eqn:E.
        -- injection H as <-. apply matched_star_skip; auto.
        -- destruct (p c) eqn:Hp; [|discriminate].
           apply matched_star_take; auto.
    + cbn in H. constructor; auto.
    + cbn in H. constructor; auto.
    + cbn in H. destruct (at_bol prev) eqn:E; [|discriminate]. constructor; auto.
    + cbn in H. destruct (at_eol s) eqn:E; [|discriminate]. constructor; auto.
Qed.

(** Where a match exists, [rmatch] returns one. *)
Lemma rmatch_complete r prev ms s res :
  matched r prev ms s res -> exists res', rmatch r prev ms s = Some res'.
Proof.
  induction 1 as [prev ms s
                 |p r prev ms c s res Hp _ [x IH]
                 |g p r prev ms s res _ [x IH]
                 |g p r prev ms c s res Hp _ [x IH]
                 |r prev ms s res _ [x IH]
                 |r prev ms s res _ [x IH]
                 |r prev ms s res Hb _ [x IH]
                 |r prev ms s res He _ [x IH]].
  - by eexists.
  - exists x. cbn. by rewrite Hp.
  - destruct g.
    + revert prev ms IH. induction s as [|c s IHs]; intros prev ms IH.
      * exists x. by rewrite rmatch_greedy_nil.
      * rewrite rmatch_greedy_cons. destruct (p c); [|by exists x].
        destruct (rmatch (Star Greedy p :: r) (Some c) (ms_adv ms) s);
          by eexists.
    + destruct s as [|c s].
      * exists x. by rewrite rmatch_lazy_nil.
      * exists x. by rewrite rmatch_lazy_cons, IH.
  - destruct g.
    + rewrite rmatch_greedy_cons, Hp, IH. by eexists.
    + rewrite rmatch_lazy_cons, Hp.
      destruct (rmatch r prev ms (c :: s)); by eexists.
  - exists x. exact IH.
  - exists x. exact IH.
  - exists x. cbn. by rewrite Hb.
  - exists x. cbn. by rewrite He.
Qed.

(** Whether a match exists does not depend on the matcher state. *)
Lemma matched_any_state r prev ms s res ms' :
  matched r prev ms s res -> exists res', matched r prev ms' s res'.
Proof.
  intros H. revert ms'.
  induction H; intros ms'; try (by eexists; constructor).
  - destruct (IHmatched (ms_adv ms')) as [x Hx]. exists x. by constructor.
  - destruct (IHmatched ms') as [x Hx]. exists x. by apply matched_star_skip.
  - destruct (IHmatched (ms_adv ms')) as [x Hx]. exists x. by apply matched_star_take.
  - destruct (IHmatched (ms_open ms')) as [x Hx]. exists x. by constructor.
  - destruct (IHmatched (ms_close ms')) as [x Hx]. exists x. by constructor.
  - destruct (IHmatched ms') as [x Hx]. exists x. by constructor.
  - destruct (IHmatched ms') as [x Hx]. exists x. by constructor.
Qed.

Lemma accepts_rmatch r prev ms s :
  accepts r prev s <-> exists res, rmatch r prev ms s = Some res.
Proof.
  split.
  - intros (ms' & res & H).
    destruct (matched_any_state _ _ _ _ _ ms H) as [res' H'].
    by apply rmatch_complete in H'.
  - intros [res H]. exists ms, res. by apply rmatch_sound.
Qed.

Lemma rmatch_none r prev ms s :
  rmatch r prev ms s = None <-> ~ accepts r prev s.
Proof.
  rewrite (accepts_rmatch r prev ms s). split.
  - intros -> [res H]. discriminate.
  - intros H. destruct (rmatch r prev ms s) eqn:E; [|done].
    exfalso. apply H. by eexists.
Qed.
(** ** Matching one character at a time *)

Lemma accepts_intro r prev ms s res : matched r prev ms s res -> accepts r prev s.
Proof. intros H. by exists ms, res. Qed.

Lemma nullable_accepts r prev s : nullable r prev s = true -> accepts r prev s.
Proof.
  induction r as [|a r IH]; intros H.
  - exists ms0. eexists. constructor.
  - destruct a as [p|g p| | | |]; cbn in H; try discriminate.
    + destruct (IH H) as (ms & res & Hm).
      exists ms, res. by apply matched_star_skip.
    + destruct (IH H) as (ms & res & Hm).
      destruct (matched_any_state _ _ _ _ _ (ms_open ms0) Hm) as [x Hx].
      exists ms0, x. by constructor.
    + destruct (IH H) as (ms & res & Hm).
      destruct (matched_any_state _ _ _ _ _ (ms_close ms0) Hm) as [x Hx].
      exists ms0, x. by constructor.
    + apply andb_prop in H as [Hb H]. destruct (IH H) as (ms & res & Hm).
      exists ms, res. by constructor.
    + apply andb_prop in H as [He H]. destruct (IH H) as (ms & res & Hm).
      exists ms, res. by constructor.
Qed.

Lemma steps_accepts r prev c s r' :
  r' ∈ steps r prev c -> accepts r' (Some c) s -> accepts r prev (c :: s).
Proof.
  induction r as [|a r IH]; intros Hin Hacc.
  - by apply elem_of_nil in Hin.
  - destruct a as [p|g p| | | |]; cbn in Hin.
    + destruct (p c) eqn:Hp; [|by apply elem_of_nil in Hin].
      apply list_elem_of_singleton in Hin as ->.
      destruct Hacc as (ms & res & Hm).
      destruct (matched_any_state _ _ _ _ _ (ms_adv ms0) Hm) as [x Hx].
      exists ms0, x. by constructor.
    + apply elem_of_app in Hin as [Hin|Hin].
      * destruct (p c) eqn:Hp; [|by apply elem_of_nil in Hin].
        apply list_elem_of_singleton in Hin as ->.
        destruct Hacc as (ms & res & Hm).
        destruct (matched_any_state _ _ _ _ _ (ms_adv ms0) Hm) as [x Hx].
        exists ms0, x. by apply matched_star_take.
      * destruct (IH Hin Hacc) as (ms & res & Hm).
        exists ms, res. by apply matched_star_skip.
    + destruct (IH Hin Hacc) as (ms & res & Hm).
      destruct (matched_any_state _ _ _ _ _ (ms_open ms0) Hm) as [x Hx].
      exists ms0, x. by constructor.
    + destruct (IH Hin Hacc) as (ms & res & Hm).
      destruct (matched_any_state _ _ _ _ _ (ms_close ms0) Hm) as [x Hx].
      exists ms0, x. by constructor.
    + destruct (at_bol prev) eqn:Hb; [|by apply elem_of_nil in Hin].
      destruct (IH Hin Hacc) as (ms & res & Hm).
      exists ms, res. by constructor.
    + destruct (c =? 10) eqn:He; [|by apply elem_of_nil in Hin].
      destruct (IH Hin Hacc) as (ms & res & Hm).
      exists ms, res. by constructor.
Qed.

(** A match either consumes nothing or consumes the first character and
    goes on with what remains of the pattern. *)
Lemma matched_inv r prev ms s res :
  matched r prev ms s res ->
  nullable r prev s = true \/
  exists c s' r', s = c :: s' /\ r' ∈ steps r prev c /\ accepts r' (Some c) s'.
Proof.
  induction 1 as [prev ms s
                 |p r prev ms c s res Hp Hm _
                 |g p r prev ms s res _ IH
                 |g p r prev ms c s res Hp Hm _
                 |r prev ms s res _ IH
                 |r prev ms s res _ IH
                 |r prev ms s res Hb _ IH
                 |r prev ms s res He _ IH].
  - by left.
  - right. exists c, s, r. split; [done|]. split; [|by eapply accepts_intro].
    cbn. rewrite Hp. left.
  - destruct IH as [Hn|(c & s' & r' & -> & Hin & Hacc)]; [by left|].
    right. exists c, s', r'. split; [done|]. split; [|done].
    cbn. apply elem_of_app. by right.
  - right. exists c, s, (Star g p :: r). split; [done|].
    split; [|by eapply accepts_intro]. cbn. rewrite Hp. left.
  - destruct IH as [Hn|(c & s' & r' & -> & Hin & Hacc)]; [by left|].
    right. by exists c, s', r'.
  - destruct IH as [Hn|(c & s' & r' & -> & Hin & Hacc)]; [by left|].
    right. by exists c, s', r'.
  - destruct IH as [Hn|(c & s' & r' & -> & Hin & Hacc)].
    + left. cbn. by rewrite Hb.
    + right. exists c, s', r'. split; [done|]. split; [|done]. cbn. by rewrite Hb.
  - destruct IH as [Hn|(c & s' & r' & -> & Hin & Hacc)].
    + left. cbn. by rewrite He.
    + right. exists c, s', r'. split; [done|]. split; [|done].
      cbn in He. cbn. by rewrite He.
Qed.

Lemma accepts_nil r prev : accepts r prev [] <-> nullable r prev [] = true.
Proof.
  split; [|apply nullable_accepts].
  intros (ms & res & H).
  destruct (matched_inv _ _ _ _ _ H) as [Hn|(c & s' & r' & E & _)]; done.
Qed.

Lemma accepts_cons r prev c s :
  accepts r prev (c :: s) <->
  nullable r prev (c :: s) = true \/
  exists r', r' ∈ steps r prev c /\ accepts r' (Some c) s.
Proof.
  split.
  - intros (ms & res & H).
    destruct (matched_inv _ _ _ _ _ H) as [Hn|(c' & s' & r' & E & Hin & Hacc)];
      [by left|].
    injection E as <- <-. right. by exists r'.
  - intros [Hn|(r' & Hin & Hacc)]; [by apply nullable_accepts|].
    by eapply steps_accepts.
Qed.

(** What remains after a step is a suffix of the pattern. *)
Lemma steps_suffix r prev c r' : r' ∈ steps r prev c -> r' `suffix_of` r.
Proof.
  induction r as [|a r IH]; intros Hin; [by apply elem_of_nil in Hin|].
  destruct a as [p|g p| | | |]; cbn in Hin.
  - destruct (p c); [|by apply elem_of_nil in Hin].
    apply list_elem_of_singleton in Hin as ->. by apply suffix_cons_r.
  - apply elem_of_app in Hin as [Hin|Hin].
    + destruct (p c); [|by apply elem_of_nil in Hin].
      by apply list_elem_of_singleton in Hin as ->.
    + by apply suffix_cons_r, IH.
  - by apply suffix_cons_r, IH.
  - by apply suffix_cons_r, IH.
  - destruct (at_bol prev); [|by apply elem_of_nil in Hin].
    by apply suffix_cons_r, IH.
  - destruct (c =? 10); [|by apply elem_of_nil in Hin].
    by apply suffix_cons_r, IH.
Qed.

(** Steps and empty matches survive a change of context that keeps line
    starts and line ends. *)
Lemma steps_context r prev prev' c r' :
  (at_bol prev = true -> at_bol prev' = true) ->
  r' ∈ steps r prev c -> r' ∈ steps r prev' c.
Proof.
  intros Hb. induction r as [|a r IH]; intros Hin; [done|].
  destruct a as [p|g p| | | |]; cbn in *; auto.
  - apply elem_of_app in Hin as [Hin|Hin]; apply elem_of_app; auto.
  - destruct (at_bol prev); [|by apply elem_of_nil in Hin].
    rewrite Hb by done. auto.
  - destruct (c =? 10); auto.
Qed.

Lemma nullable_context r prev prev' s s' :
  (at_bol prev = true -> at_bol prev' = true) ->
  (at_eol s = true -> at_eol s' = true) ->
  nullable r prev s = true -> nullable r prev' s' = true.
Proof.
  intros Hb He. induction r as [|a r IH]; intros H; [done|].
  destruct a as [p|g p| | | |]; cbn in *; auto.
  - apply andb_prop in H as [H1 H2]. rewrite Hb, IH; done.
  - apply andb_prop in H as [H1 H2]. rewrite He, IH; done.
Qed.

(** A character that every atom rejects stops the match. *)
Lemma rejects_suffix r r' d :
  r' `suffix_of` r -> rejects r d = true -> rejects r' d = true.
Proof.
  intros [k ->]. unfold rejects. rewrite forallb_app.
  intros [_ H]%andb_prop. exact H.
Qed.

Lemma rejects_steps r prev d : rejects r d = true -> steps r prev d = [].
Proof.
  induction r as [|a r IH]; [done|]. unfold rejects. cbn [forallb].
  intros [Ha Hr]%andb_prop. specialize (IH Hr).
  destruct a as [p|g p| | | |]; cbn in *; auto.
  - by destruct (p d).
  - destruct (p d); [done|]. by rewrite IH.
  - by destruct (at_bol prev).
  - by destruct (d =? 10).
Qed.

Lemma rejects_accepts r prev d s :
  rejects r d = true -> accepts r prev (d :: s) -> nullable r prev (d :: s) = true.
Proof.
  intros Hr [Hn|(r' & Hin & _)]%accepts_cons; [done|].
  rewrite rejects_steps in Hin by done. by apply elem_of_nil in Hin.
Qed.

(** A character that passes wherever another one does can stand for it. *)
Lemma passes_suffix r r' c c' :
  r' `suffix_of` r -> passes r c c' = true -> passes r' c c' = true.
Proof.
  intros [k ->]. unfold passes. rewrite forallb_app.
  intros [_ H]%andb_prop. exact H.
Qed.

Lemma passes_steps r prev c c' r' :
  passes r c c' = true -> r' ∈ steps r prev c -> r' ∈ steps r prev c'.
Proof.
  induction r as [|a r IH]; [done|]. unfold passes. cbn [forallb].
  intros [Ha Hr]%andb_prop Hin. specialize (IH Hr).
  destruct a as [p|g p| | | |]; cbn in *; auto.
  - destruct (p c); [|by apply elem_of_nil in Hin]. cbn in Ha. by rewrite Ha.
  - apply elem_of_app in Hin as [Hin|Hin]; apply elem_of_app; auto.
    left. destruct (p c); [|by apply elem_of_nil in Hin]. cbn in Ha. by rewrite Ha.
  - destruct (at_bol prev); auto.
  - destruct (c =? 10); [|by apply elem_of_nil in Hin]. cbn in Ha. rewrite Ha. auto.
Qed.

(** ** The extent of a match *)

Lemma matched_extent r prev ms s res :
  matched r prev ms s res ->
  (m_pos ms <= res.1 <= m_pos ms + length s)%nat.
Proof.
  induction 1; cbn [fst length] in *; try lia.
  - cbn in IHmatched. lia.
  - cbn in IHmatched. lia.
  - cbn in IHmatched. lia.
  - unfold ms_close in IHmatched. destruct (m_open ms); cbn in IHmatched; lia.
Qed.

(** A pattern with a mandatory character never matches the empty text. *)
Lemma matched_consumes r prev ms s res :
  matched r prev ms s res ->
  existsb mandatory r = true ->
  (m_pos ms < res.1)%nat.
Proof.
  induction 1 as [prev ms s
                 |p r prev ms c s res Hp Hm _
                 |g p r prev ms s res _ IH
                 |g p r prev ms c s res Hp _ IH
                 |r prev ms s res _ IH
                 |r prev ms s res _ IH
                 |r prev ms s res Hb _ IH
                 |r prev ms s res He _ IH];
    cbn [existsb mandatory orb]; intros Hmand; try discriminate; auto.
  - apply matched_extent in Hm. destruct res. cbn in *. lia.
  - apply IH in Hmand. destruct res. cbn in *. lia.
  - apply IH in Hmand. unfold ms_close in Hmand.
    destruct res, (m_open ms); cbn in *; lia.
Qed.

Lemma rmatch_extent r prev s n caps :
  rmatch r prev ms0 s = Some (n, caps) -> (n <= length s)%nat.
Proof. intros H%rmatch_sound%matched_extent. cbn in H. lia. Qed.

Lemma rmatch_consumes r prev s n caps :
  existsb mandatory r = true ->
  rmatch r prev ms0 s = Some (n, caps) -> (0 < n)%nat.
Proof.
  intros Hm H%rmatch_sound. apply (matched_consumes _ _ _ _ _ H) in Hm.
  cbn in Hm. lia.
Qed.

(** ** The scan *)

Lemma last_read_cons prev c w : last_read prev (c :: w) = last_read (Some c) w.
Proof.
  unfold last_read. destruct w as [|d w]; [reflexivity|].
  change (last (c :: d :: w)) with (last (d :: w)).
  by destruct (last (d :: w)) eqn:E; [|apply last_None in E].
Qed.

Lemma last_read_app prev a b :
  last_read prev (a ++ b) = last_read (last_read prev a) b.
Proof.
  revert prev. induction a as [|c a IH]; intros prev; [reflexivity|].
  cbn [app]. by rewrite !last_read_cons, IH.
Qed.

Lemma scan_from_skip r prev w s :
  scan_from r prev (length w) (w ++ s) = scan_from r (last_read prev w) 0 s.
Proof.
  revert prev. induction w as [|c w IH]; intros prev; [reflexivity|].
  cbn [length app scan_from]. by rewrite IH, last_read_cons.
Qed.

Lemma scan_substituted r repl :
  existsb mandatory r = true ->
  forall s prev,
    substituted r repl prev s
      (concat (map (render repl) (scan_from r prev 0 s))).
Proof.
  intros Hm s. remember (length s) as n eqn:Hn.
  revert s Hn. induction n as [n IH] using lt_wf_ind. intros s Hn prev.
  destruct s as [|c s].
  - cbn. destruct (rmatch r prev ms0 []) as [[k caps]|] eqn:E; [|constructor].
    apply rmatch_extent in E as Hk. apply rmatch_consumes in E; [|done].
    cbn in Hk. lia.
  - cbn [scan_from].
    destruct (rmatch r prev ms0 (c :: s)) as [[[|k] caps]|] eqn:E.
    + apply rmatch_consumes in E; [lia|done].
    + apply rmatch_extent in E as Hk. cbn [length] in Hk.
      assert (Hlen : length (c :: take k s) = S k)
        by (cbn; rewrite length_take; lia).
      assert (Hs : (c :: take k s) ++ drop k s = c :: s)
        by (cbn; by rewrite take_drop).
      change (take (S k) (c :: s)) with (c :: take k s).
      remember (c :: take k s) as w eqn:Hw.
      remember (drop k s) as s2 eqn:Hs2.
      assert (Hrest : scan_from r (Some c) k s
                      = scan_from r (last_read prev w) 0 s2).
      { rewrite <- scan_from_skip. subst w.
        cbn [length scan_from app] in *.
        replace (length (take k s)) with k by lia.
        subst s2. by rewrite take_drop. }
      cbn [map render concat]. rewrite Hrest, <- Hs.
      apply substituted_hit.
      * rewrite Hlen, Hs. exact E.
      * subst w. done.
      * apply (IH (length s2)); [|done].
        subst n s2. rewrite length_drop. cbn. lia.
    + cbn [map render concat app]. apply substituted_keep; [exact E|].
      apply (IH (length s)); [subst n; cbn; lia | done].
Qed.

Lemma re_sub_substituted r repl s :
  existsb mandatory r = true -> substituted r repl None s (re_sub r repl s).
Proof. intros Hm. by apply scan_substituted. Qed.

(** Where the pattern matches nowhere the substitution changes nothing. *)
Lemma quiet_scan r prev s :
  quiet_from r prev s -> scan_from r prev 0 s = map Keep s.
Proof.
  revert prev. induction s as [|c s IH]; intros prev [H Hs]; cbn.
  - by rewrite H.
  - rewrite H. by rewrite IH.
Qed.

Lemma quiet_re_sub r repl s : quiet r s -> re_sub r repl s = s.
Proof.
  intros H. unfold re_sub, scan. rewrite quiet_scan by exact H.
  clear H. induction s as [|c s IH]; [reflexivity|]. cbn. by rewrite IH.
Qed.

Lemma quiet_from_app r prev w s :
  quiet_from r prev (w ++ s) -> quiet_from r (last_read prev w) s.
Proof.
  revert prev. induction w as [|c w IH]; intros prev H; [exact H|].
  rewrite last_read_cons. apply IH. by destruct H.
Qed.

Lemma quiet_from_intro r prev a s :
  (forall a1 a2, a = a1 ++ a2 -> a2 <> [] ->
                 rmatch r (last_read prev a1) ms0 (a2 ++ s) = None) ->
  quiet_from r (last_read prev a) s ->
  quiet_from r prev (a ++ s).
Proof.
  revert prev. induction a as [|c a IH]; intros prev Ha Hs; [exact Hs|].
  cbn [app quiet_from]. split.
  - apply (Ha [] (c :: a)); done.
  - apply IH.
    + intros a1 a2 -> Hne. rewrite <- (last_read_cons prev c a1).
      apply (Ha (c :: a1) a2); done.
    + by rewrite <- (last_read_cons prev c a).
Qed.

Lemma consumes_not_nullable r prev s :
  existsb mandatory r = true -> nullable r prev s = false.
Proof.
  induction r as [|a r IH]; [done|].
  destruct a; cbn; intros H; auto.
  - rewrite IH by done. apply andb_false_r.
  - rewrite IH by done. apply andb_false_r.
Qed.

(** ** A pattern that stays silent after a substitution

    [ri] is the pattern that must not match in the output, [rj] the
    pattern being substituted.  The three hypotheses on matches of [rj]
    say: a replacement never ends a line; no match of [ri] begins inside a
    replacement; and a partial match of [ri] that runs into a replacement
    would also have run, in the input, into the text that was replaced. *)
Section Silence.

Variables (ri rj : regex) (repl : text -> list text -> text).

Hypothesis ri_consumes : existsb mandatory ri = true.

Hypothesis replacement_end :
  forall prev w s caps,
    rmatch rj prev ms0 (w ++ s) = Some (length w, caps) -> w <> [] ->
    forall p, at_bol (last_read p (repl w (map (slice (w ++ s)) caps))) = false.

Hypothesis replacement_inside :
  forall prev w s caps,
    rmatch rj prev ms0 (w ++ s) = Some (length w, caps) -> w <> [] ->
    forall p a b out,
      bol_kept p prev ->
      repl w (map (slice (w ++ s)) caps) = a ++ b -> b <> [] ->
      ~ accepts ri (last_read p a) (b ++ out).

Hypothesis replacement_entered :
  forall prev w s caps,
    rmatch rj prev ms0 (w ++ s) = Some (length w, caps) -> w <> [] ->
    forall r p out,
      r `suffix_of` ri -> bol_kept p prev ->
      accepts r p (repl w (map (slice (w ++ s)) caps) ++ out) ->
      accepts r prev (w ++ s).

Lemma substituted_simulates prev s out :
  substituted rj repl prev s out ->
  forall r p,
    r `suffix_of` ri -> bol_kept p prev ->
    accepts r p out -> accepts r prev s.
Proof.
  induction 1 as [prev|prev c s out Hnone _ IH|prev w s caps out Hhit Hw _ _];
    intros r p Hr Hb Hacc.
  - apply accepts_nil in Hacc. apply accepts_nil.
    exact (nullable_context r p prev [] [] Hb (fun x => x) Hacc).
  - apply accepts_cons in Hacc as [Hn|(r' & Hin & Hacc)]; apply accepts_cons.
    + left. exact (nullable_context r p prev (c :: out) (c :: s) Hb (fun x => x) Hn).
    + right. exists r'. split; [exact (steps_context r p prev c r' Hb Hin)|].
      apply (IH r' (Some c)); [|by unfold bol_kept|done].
      etrans; [by eapply steps_suffix | done].
  - by apply (replacement_entered prev w s caps Hhit Hw r p out).
Qed.

Variable kept : option N -> text -> Prop.

Hypothesis kept_keep :
  forall prev c s,
    kept prev (c :: s) -> rmatch rj prev ms0 (c :: s) = None ->
    rmatch ri prev ms0 (c :: s) = None /\ kept (Some c) s.

Hypothesis kept_hit :
  forall prev w s, kept prev (w ++ s) -> kept (last_read prev w) s.

Lemma substituted_silent prev s out :
  substituted rj repl prev s out ->
  kept prev s ->
  forall p, bol_kept p prev -> quiet_from ri p out.
Proof.
  induction 1 as [prev|prev c s out Hnone Hsub IH|prev w s caps out Hhit Hw Hsub IH];
    intros Hk p Hb.
  - split; [|done]. apply rmatch_none. intros Hacc%accepts_nil.
    rewrite (consumes_not_nullable ri p [] ri_consumes) in Hacc. discriminate.
  - destruct (kept_keep prev c s Hk Hnone) as [Hri Hk'].
    split; [|apply IH; [exact Hk' | by unfold bol_kept]].
    apply rmatch_none. intros Hacc. apply rmatch_none in Hri. apply Hri.
    apply (substituted_simulates prev (c :: s) (c :: out)
             (substituted_keep rj repl prev c s out Hnone Hsub) ri p);
      [done | exact Hb | exact Hacc].
  - apply quiet_from_intro.
    + intros a b Hab Hne. apply rmatch_none.
      by apply (replacement_inside prev w s caps Hhit Hw p a b out).
    + apply IH; [by apply kept_hit|].
      intros Hbol. by rewrite (replacement_end prev w s caps Hhit Hw p) in Hbol.
Qed.

End Silence.

(** The two uses of the simulation: a substitution silences its own
    pattern, and it keeps silent a pattern that was silent. *)
Lemma re_sub_silences (r : regex) (repl : text -> list text -> text) :
  existsb mandatory r = true ->
  (forall prev w s caps,
     rmatch r prev ms0 (w ++ s) = Some (length w, caps) -> w <> [] ->
     forall p, at_bol (last_read p (repl w (map (slice (w ++ s)) caps))) = false) ->
  (forall prev w s caps,
     rmatch r prev ms0 (w ++ s) = Some (length w, caps) -> w <> [] ->
     forall p a b out,
       bol_kept p prev ->
       repl w (map (slice (w ++ s)) caps) = a ++ b -> b <> [] ->
       ~ accepts r (last_read p a) (b ++ out)) ->
  (forall prev w s caps,
     rmatch r prev ms0 (w ++ s) = Some (length w, caps) -> w <> [] ->
     forall r' p out,
       r' `suffix_of` r -> bol_kept p prev ->
       accepts r' p (repl w (map (slice (w ++ s)) caps) ++ out) ->
       accepts r' prev (w ++ s)) ->
  forall s, quiet r (re_sub r repl s).
Proof.
  intros Hm Hend Hin Hent s.
  apply (substituted_silent r r repl Hm Hend Hin Hent (fun _ _ => True)
           (fun prev c s0 _ H => conj H I) (fun _ _ _ _ => I) None s).
  - by apply re_sub_substituted.
  - exact I.
  - by unfold bol_kept.
Qed.

Lemma re_sub_keeps_silent (ri rj : regex) (repl : text -> list text -> text) :
  existsb mandatory ri = true ->
  existsb mandatory rj = true ->
  (forall prev w s caps,
     rmatch rj prev ms0 (w ++ s) = Some (length w, caps) -> w <> [] ->
     forall p, at_bol (last_read p (repl w (map (slice (w ++ s)) caps))) = false) ->
  (forall prev w s caps,
     rmatch rj prev ms0 (w ++ s) = Some (length w, caps) -> w <> [] ->
     forall p a b out,
       bol_kept p prev ->
       repl w (map (slice (w ++ s)) caps) = a ++ b -> b <> [] ->
       ~ accepts ri (last_read p a) (b ++ out)) ->
  (forall prev w s caps,
     rmatch rj prev ms0 (w ++ s) = Some (length w, caps) -> w <> [] ->
     forall r' p out,
       r' `suffix_of` ri -> bol_kept p prev ->
       accepts r' p (repl w (map (slice (w ++ s)) caps) ++ out) ->
       accepts r' prev (w ++ s)) ->
  forall s, quiet ri s -> quiet ri (re_sub rj repl s).
Proof.
  intros Hmi Hmj Hend Hin Hent s Hq.
  apply (substituted_silent ri rj repl Hmi Hend Hin Hent (quiet_from ri)
           (fun prev c s0 H _ => H) (fun prev w s0 H => quiet_from_app ri prev w s0 H)
           None s).
  - by apply re_sub_substituted.
  - exact Hq.
  - by unfold bol_kept.
Qed.

(** ** Patterns that a character stops *)

Lemma rejected_nullable r prev prev' d s s' :
  rejects r d = true -> bol_kept prev prev' ->
  nullable r prev (d :: s) = true -> nullable r prev' s' = true.
Proof.
  intros Hr Hb. induction r as [|a r IH]; [done|].
  unfold rejects in Hr. cbn [forallb] in Hr.
  apply andb_prop in Hr as [Ha Hr]. specialize (IH Hr).
  destruct a as [p|g p| | | |]; cbn in *; auto.
  - intros [H1 H2]%andb_prop. by rewrite (Hb H1), IH.
  - apply negb_true_iff in Ha. by rewrite Ha.
Qed.

Lemma rejected_entered ri r prev prev' d s s' :
  rejects ri d = true -> r `suffix_of` ri -> bol_kept prev prev' ->
  accepts r prev (d :: s) -> accepts r prev' s'.
Proof.
  intros Hr Hsuf Hb Hacc. apply nullable_accepts.
  apply (rejected_nullable r prev prev' d s s');
    [by eapply rejects_suffix | done |].
  apply rejects_accepts; [by eapply rejects_suffix | done].
Qed.

Lemma rejected_start r prev d s :
  rejects r d = true -> existsb mandatory r = true ->
  ~ accepts r prev (d :: s).
Proof.
  intros Hr Hm Hacc. apply rejects_accepts in Hacc; [|done].
  by rewrite consumes_not_nullable in Hacc.
Qed.

(** A pattern anchored at the start of a line matches only there. *)
Lemma anchored_needs_bol r prev s :
  accepts (Bol :: r) prev s -> at_bol prev = true.
Proof.
  intros (ms & res & H). inversion H; subst. done.
Qed.

(** A pattern that begins with a character of a class matches only at
    such a character. *)
Lemma first_char_needed p r prev s :
  accepts (Cls p :: r) prev s -> exists c s', s = c :: s' /\ p c = true.
Proof.
  intros (ms & res & H). inversion H; subst. eauto.
Qed.

(** Inside a text without line feed no line starts. *)
Lemma last_read_no_newline prev a :
  a <> [] -> Forall (fun c => c <> 10) a -> at_bol (last_read prev a) = false.
Proof.
  intros Hne Hall. unfold last_read.
  destruct (last a) as [c|] eqn:E; [|by apply last_None in E].
  apply last_Some in E as [a' ->]. apply Forall_app in Hall as [_ Hc].
  inversion Hc; subst. cbn. by apply N.eqb_neq.
Qed.

(** No match of an anchored pattern starts inside a replacement that has
    no line feed and whose first character the pattern cannot start
    with. *)
Lemma anchored_not_inside r prev prev' (R a b out : text) :
  (forall p, ~ accepts (Bol :: r) p (R ++ out)) ->
  Forall (fun c => c <> 10) R ->
  R = a ++ b -> b <> [] ->
  bol_kept prev prev' ->
  ~ accepts (Bol :: r) (last_read prev a) (b ++ out).
Proof.
  intros Hstart Hall -> Hb _ Hacc. destruct a as [|c a].
  - by apply (Hstart prev).
  - apply anchored_needs_bol in Hacc.
    rewrite last_read_no_newline in Hacc; [done|done|].
    by apply Forall_app in Hall as [Ha _].
Qed.

(** No match of a pattern that begins with a character of a class starts
    inside a replacement without such a character. *)
Lemma unanchored_not_inside p r prev (R a b out : text) :
  Forall (fun c => p c = false) R ->
  R = a ++ b -> b <> [] ->
  ~ accepts (Cls p :: r) prev (b ++ out).
Proof.
  intros Hall -> Hb Hacc. destruct b as [|c b]; [done|].
  apply first_char_needed in Hacc as (c' & s' & E & Hp).
  injection E as <- _. apply Forall_app in Hall as [_ Hc].
  inversion Hc; subst. congruence.
Qed.

(** ** Reading a match off the relation *)

Lemma ms_skip_0 ms : ms_skip 0 ms = ms.
Proof. by destruct ms. Qed.

Lemma ms_skip_adv n ms : ms_skip n (ms_adv ms) = ms_skip (S n) ms.
Proof. unfold ms_skip, ms_adv. cbn. f_equal. lia. Qed.

Lemma matched_star_inv g p r prev ms s res :
  matched (Star g p :: r) prev ms s res ->
  exists run s',
    s = run ++ s' /\ forallb p run = true /\
    matched r (last_read prev run) (ms_skip (length run) ms) s' res.
Proof.
  intros H. remember (Star g p :: r) as r0 eqn:E.
  induction H as [| | g' p' r' prev ms s res Hm _
                 | g' p' r' prev ms c s res Hp _ IH | | | |];
    try discriminate; injection E as -> -> ->.
  - exists [], s. by rewrite ms_skip_0.
  - destruct (IH eq_refl) as (run & s' & -> & Hrun & Hm).
    exists (c :: run), s'. rewrite last_read_cons. cbn [length forallb app].
    rewrite Hp, <- ms_skip_adv. done.
Qed.

Lemma matched_lits_inv l r prev ms s res :
  matched (lits l ++ r) prev ms s res ->
  exists s',
    s = l ++ s' /\
    matched r (last_read prev l) (ms_skip (length l) ms) s' res.
Proof.
  revert prev ms s. induction l as [|c l IH]; intros prev ms s H.
  - exists s. by rewrite ms_skip_0.
  - cbn in H. inversion H as [|p r' prev' ms' c' s1 res' Hp Hm| | | | | |]; subst.
    apply N.eqb_eq in Hp as <-.
    destruct (IH _ _ _ Hm) as (s' & -> & Hm').
    exists s'. rewrite last_read_cons. cbn [length]. rewrite <- ms_skip_adv. done.
Qed.

Lemma matched_nil_inv prev ms s res :
  matched [] prev ms s res -> res = (m_pos ms, m_caps ms).
Proof. by inversion 1. Qed.

Lemma matched_cls_inv p r prev ms s res :
  matched (Cls p :: r) prev ms s res ->
  exists c s', s = c :: s' /\ p c = true /\ matched r (Some c) (ms_adv ms) s' res.
Proof. inversion 1; subst. eauto. Qed.

(** The text that a match covers is determined by its length. *)
Lemma covered (w s consumed rest : text) :
  w ++ s = consumed ++ rest -> length w = length consumed -> w = consumed.
Proof.
  intros E Hlen. apply (f_equal (take (length w))) in E.
  rewrite take_app_length in E. rewrite Hlen, take_app_length in E. done.
Qed.

(** ** The task patterns *)

Lemma re_task_pattern (kw : string) : Notion.re_task kw = task_pattern (u kw).
Proof. reflexivity. Qed.

Lemma task_consumes k : existsb mandatory (task_pattern k) = true.
Proof. reflexivity. Qed.

(** A match of a task pattern: at the start of a line, white space (group
    1), a hyphen, white space, the keyword, white space. *)
Lemma task_hit k prev w s caps :
  rmatch (task_pattern k) prev ms0 (w ++ s) = Some (length w, caps) ->
  exists ws1 c2 rest,
    at_bol prev = true /\ forallb is_space ws1 = true /\ is_space c2 = true /\
    w = ws1 ++ 45 :: c2 :: rest /\
    map (slice (w ++ s)) caps = [ws1].
Proof.
  intros H%rmatch_sound. unfold task_pattern in H.
  inversion H as [| | | | | |r0 p0 m0 s0 res0 Hbol H1|]; subst. clear H.
  inversion H1 as [| | | |r0 p0 m0 s0 res0 H2| | |]; subst. clear H1.
  apply matched_star_inv in H2 as (ws1 & t1 & E1 & Hws1 & H3).
  inversion H3 as [| | | | |r0 p0 m0 s0 res0 H4| |]; subst. clear H3.
  apply matched_cls_inv in H4 as (c1 & t2 & -> & Hc1 & H5).
  apply N.eqb_eq in Hc1 as <-.
  apply matched_cls_inv in H5 as (c2 & t3 & -> & Hc2 & H6).
  apply matched_star_inv in H6 as (ws2 & t4 & -> & Hws2 & H7).
  apply matched_lits_inv in H7 as (t5 & -> & H8).
  apply matched_cls_inv in H8 as (c3 & t6 & -> & Hc3 & H9).
  apply matched_star_inv in H9 as (ws3 & t7 & -> & Hws3 & H10).
  apply matched_nil_inv in H10. cbn in H10. injection H10 as Hlen Hcaps.
  exists ws1, c2, (ws2 ++ k ++ c3 :: ws3).
  assert (Hw : w = ws1 ++ 45 :: c2 :: ws2 ++ k ++ c3 :: ws3).
  { apply (covered w s _ t7).
    - rewrite E1. by repeat (rewrite <- app_assoc || rewrite <- app_comm_cons).
    - rewrite Hlen. repeat (rewrite length_app || cbn [length]). lia. }
  repeat split; try done.
  subst caps. cbn [map]. unfold slice. cbn [fst snd].
  rewrite Hw, drop_0, Nat.add_0_r, Nat.sub_0_r, <- app_assoc, take_app_length.
  done.
Qed.

(** A partial match that runs through a text common to input and output
    stays a partial match. *)
Lemma accepts_common_prefix (ri : regex) (a X Y : text) :
  (forall r p prev,
     r `suffix_of` ri -> bol_kept p prev ->
     accepts r p X -> accepts r prev Y) ->
  forall r p prev,
    r `suffix_of` ri -> bol_kept p prev ->
    accepts r p (a ++ X) -> accepts r prev (a ++ Y).
Proof.
  intros Hbase. induction a as [|c a IH]; intros r p prev Hr Hb Hacc.
  - by apply (Hbase r p prev).
  - cbn [app] in *.
    apply accepts_cons in Hacc as [Hn|(r' & Hin & Hacc)]; apply accepts_cons.
    + left.
      exact (nullable_context r p prev (c :: a ++ X) (c :: a ++ Y) Hb
               (fun x => x) Hn).
    + right. exists r'. split; [exact (steps_context r p prev c r' Hb Hin)|].
      apply (IH r' (Some c) (Some c)); [|by unfold bol_kept|done].
      etrans; [by eapply steps_suffix | done].
Qed.

(** ** What the task patterns let through *)

Lemma upper_not (c d : N) : is_upper c = true -> is_upper d = false -> (c =? d) = false.
Proof.
  intros Hc Hd. apply N.eqb_neq. intros ->. congruence.
Qed.

Lemma lits_rejects (k : text) (d : N) :
  forallb is_upper k = true -> is_upper d = false ->
  forallb (atom_rejects d) (lits k) = true.
Proof.
  intros Hk Hd. induction k as [|c k IH]; [done|].
  cbn [forallb] in Hk. apply andb_prop in Hk as [Hc Hk].
  cbn [lits map forallb atom_rejects]. fold (lits k).
  by rewrite (upper_not c d Hc Hd), IH.
Qed.

Lemma task_rejects (k : text) (d : N) :
  keyword k -> is_space d = false -> d <> 45 -> is_upper d = false ->
  rejects (task_pattern k) d = true.
Proof.
  intros [_ Hk] Hs Hh Hu. unfold rejects, task_pattern.
  cbn [forallb atom_rejects]. rewrite forallb_app, lits_rejects by done.
  cbn [forallb atom_rejects]. rewrite Hs.
  assert (E : (45 =? d) = false) by (apply N.eqb_neq; congruence).
  by rewrite E.
Qed.

Lemma lits_passes (k : text) (c c' : N) :
  forallb is_upper k = true -> is_upper c = false ->
  forallb (atom_passes c c') (lits k) = true.
Proof.
  intros Hk Hc. induction k as [|x k IH]; [done|].
  cbn [forallb] in Hk. apply andb_prop in Hk as [Hx Hk].
  cbn [lits map forallb atom_passes]. fold (lits k).
  by rewrite (upper_not x c Hx Hc), IH.
Qed.

Lemma task_passes_space (k : text) (c : N) :
  keyword k -> is_space c = true -> passes (task_pattern k) 32 c = true.
Proof.
  intros [_ Hk] Hc. unfold passes, task_pattern.
  cbn [forallb atom_passes]. rewrite forallb_app, lits_passes by done.
  cbn [forallb atom_passes]. rewrite Hc. reflexivity.
Qed.

(** ** A task substitution and the task patterns *)

Section TaskSubstitution.

Variables (k k' mark : text).
Hypothesis k_keyword : keyword k.
Hypothesis mark_checkbox : checkbox mark.

Lemma task_replacement prev w s caps :
  rmatch (task_pattern k') prev ms0 (w ++ s) = Some (length w, caps) ->
  exists ws1 c2 rest m,
    forallb is_space ws1 = true /\ is_space c2 = true /\ m <> 10 /\
    w = ws1 ++ 45 :: c2 :: rest /\
    task_repl mark w (map (slice (w ++ s)) caps) = ws1 ++ [45; 32; 91; m; 93; 32].
Proof.
  intros (ws1 & c2 & rest & _ & Hws1 & Hc2 & Hw & Hg)%task_hit.
  destruct mark_checkbox as (m & Hmark & Hm).
  exists ws1, c2, rest, m. repeat split; try done.
  unfold task_repl. by rewrite Hg, Hmark.
Qed.

Lemma task_replacement_end prev w s caps :
  rmatch (task_pattern k') prev ms0 (w ++ s) = Some (length w, caps) -> w <> [] ->
  forall p, at_bol (last_read p (task_repl mark w (map (slice (w ++ s)) caps))) = false.
Proof.
  intros (ws1 & c2 & rest & m & _ & _ & _ & _ & ->)%task_replacement _ p.
  rewrite last_read_app. reflexivity.
Qed.

Lemma task_replacement_entered prev w s caps :
  rmatch (task_pattern k') prev ms0 (w ++ s) = Some (length w, caps) -> w <> [] ->
  forall r p out,
    r `suffix_of` task_pattern k -> bol_kept p prev ->
    accepts r p (task_repl mark w (map (slice (w ++ s)) caps) ++ out) ->
    accepts r prev (w ++ s).
Proof.
  intros (ws1 & c2 & rest & m & _ & Hc2 & _ & -> & ->)%task_replacement _
         r p out Hr Hb Hacc.
  replace ((ws1 ++ [45; 32; 91; m; 93; 32]) ++ out)
    with ((ws1 ++ [45]) ++ 32 :: 91 :: m :: 93 :: 32 :: out) in Hacc
    by (by rewrite <- !app_assoc).
  replace ((ws1 ++ 45 :: c2 :: rest) ++ s)
    with ((ws1 ++ [45]) ++ c2 :: rest ++ s)
    by (by rewrite <- !app_assoc).
  revert r p prev Hr Hb Hacc. apply accepts_common_prefix.
  intros r p prev Hr Hb [Hn|(r' & Hin & Hacc)]%accepts_cons; apply accepts_cons.
  - left. by apply (nullable_context r p prev (32 :: 91 :: m :: 93 :: 32 :: out)).
  - right. exists r'. split.
    + apply (passes_steps r prev 32 c2);
        [|exact (steps_context r p prev 32 r' Hb Hin)].
      apply (passes_suffix (task_pattern k)); [done|].
      by apply task_passes_space.
    + apply (rejected_entered (task_pattern k) r' (Some 32) (Some c2) 91
               (m :: 93 :: 32 :: out)); [| |done|done].
      * by apply task_rejects.
      * etrans; [by eapply steps_suffix | done].
Qed.

Lemma space_not_hyphen (c : N) : is_space c = true -> (45 =? c) = false.
Proof.
  intros H. apply N.eqb_neq. intros <-. discriminate.
Qed.

(** After white space, a hyphen and one space, the keyword must follow: an
    opening bracket ends the attempt. *)
Lemma task_not_before_bracket (ws : text) prev (X : text) :
  forallb is_space ws = true ->
  ~ accepts (task_after_spaces k) prev (ws ++ 45 :: 32 :: 91 :: X).
Proof.
  destruct k_keyword as [Hne Hup]. destruct k as [|k0 k1] eqn:Ek; [done|].
  cbn [forallb] in Hup. apply andb_prop in Hup as [Hk0 _].
  revert prev. induction ws as [|c ws IH]; intros prev Hws.
  - cbn [app]. intros [Hn|(r1 & Hin & Hacc)]%accepts_cons; [discriminate|].
    cbn in Hin. apply list_elem_of_singleton in Hin as ->.
    apply accepts_cons in Hacc as [Hn|(r2 & Hin & Hacc)]; [discriminate|].
    cbn in Hin. apply list_elem_of_singleton in Hin as ->.
    apply accepts_cons in Hacc as [Hn|(r3 & Hin & Hacc)]; [discriminate|].
    cbn in Hin. rewrite (upper_not k0 91 Hk0 eq_refl) in Hin.
    by apply elem_of_nil in Hin.
  - cbn [forallb] in Hws. apply andb_prop in Hws as [Hc Hws]. cbn [app].
    intros [Hn|(r1 & Hin & Hacc)]%accepts_cons; [discriminate|].
    unfold task_after_spaces in Hin. cbn [steps] in Hin.
    rewrite Hc, (space_not_hyphen c Hc) in Hin.
    apply list_elem_of_singleton in Hin as ->. by apply (IH (Some c)).
Qed.

Lemma task_not_started (ws : text) prev (X : text) :
  forallb is_space ws = true ->
  ~ accepts (task_pattern k) prev (ws ++ 45 :: 32 :: 91 :: X).
Proof.
  intros Hws (ms & res & H). unfold task_pattern in H.
  inversion H as [| | | | | |r0 p0 m0 s0 res0 Hbol H1|]; subst.
  inversion H1 as [| | | |r0 p0 m0 s0 res0 H2| | |]; subst.
  apply (task_not_before_bracket ws prev X Hws). by eapply accepts_intro.
Qed.

Lemma task_replacement_inside prev w s caps :
  rmatch (task_pattern k') prev ms0 (w ++ s) = Some (length w, caps) -> w <> [] ->
  forall p a b out,
    bol_kept p prev ->
    task_repl mark w (map (slice (w ++ s)) caps) = a ++ b -> b <> [] ->
    ~ accepts (task_pattern k) (last_read p a) (b ++ out).
Proof.
  intros (ws1 & c2 & rest & m & Hws1 & _ & Hm & _ & ->)%task_replacement _
         p a b out _ Hsplit Hb Hacc.
  apply app_eq_inv in Hsplit as [(x & -> & ->)|(x & -> & Hmark)].
  - (* the attempt starts within the white space *)
    rewrite forallb_app in Hws1. apply andb_prop in Hws1 as [_ Hx].
    rewrite <- app_assoc in Hacc. by apply task_not_started in Hacc.
  - destruct x as [|x0 x].
    + rewrite app_nil_r in Hacc. cbn [app] in Hmark. subst b.
      exact (task_not_started [] (last_read p ws1) (m :: 93 :: 32 :: out)
               eq_refl Hacc).
    + (* the attempt starts after a character of the marker *)
      apply anchored_needs_bol in Hacc.
      rewrite last_read_app, last_read_no_newline in Hacc; [done|done|].
      assert (Hall : Forall (fun c => c <> 10) [45; 32; 91; m; 93; 32])
        by (repeat constructor; done).
      rewrite Hmark in Hall. by apply Forall_app in Hall as [Hx _].
Qed.

End TaskSubstitution.

(** A task substitution leaves no match of a task pattern, be it its own
    or one that matched nowhere before. *)
Lemma task_silences (k mark s : text) :
  keyword k -> checkbox mark ->
  quiet (task_pattern k) (re_sub (task_pattern k) (task_repl mark) s).
Proof.
  intros Hk Hm. apply re_sub_silences.
  - apply task_consumes.
  - by apply task_replacement_end.
  - by apply task_replacement_inside.
  - by apply task_replacement_entered.
Qed.

Lemma task_keeps_task_silent (k k' mark s : text) :
  keyword k -> checkbox mark ->
  quiet (task_pattern k) s ->
  quiet (task_pattern k) (re_sub (task_pattern k') (task_repl mark) s).
Proof.
  intros Hk Hm. apply re_sub_keeps_silent.
  - apply task_consumes.
  - apply task_consumes.
  - by apply task_replacement_end.
  - by apply task_replacement_inside.
  - by apply task_replacement_entered.
Qed.

(** ** The property pattern *)

Lemma re_property_pattern : Notion.re_property = property_pattern.
Proof. reflexivity. Qed.

Lemma slice_at (a v s : text) (n m : nat) :
  n = length a -> m = (n + length v)%nat -> slice (a ++ v ++ s) (n, m) = v.
Proof.
  intros -> ->. unfold slice. cbn [fst snd].
  rewrite drop_app_length.
  replace (length a + length v - length a)%nat with (length v) by lia.
  by rewrite take_app_length.
Qed.

Lemma class_no_newline (p : N -> bool) (v : text) :
  p 10 = false -> forallb p v = true -> Forall (fun c => c <> 10) v.
Proof.
  intros Hp. induction v as [|c v IH]; [constructor|].
  cbn [forallb]. intros [Hc Hv]%andb_prop. constructor; [|by apply IH].
  intros ->. congruence.
Qed.

(** A match of the property pattern is replaced by two asterisks, the key,
    two asterisks, a colon, a space and the value; neither key nor value
    holds a line feed. *)
Lemma property_hit prev w s caps :
  rmatch property_pattern prev ms0 (w ++ s) = Some (length w, caps) ->
  exists key value,
    Forall (fun c => c <> 10) key /\ Forall (fun c => c <> 10) value /\
    property_repl w (map (slice (w ++ s)) caps)
    = 42 :: 42 :: key ++ [42; 42; 58; 32] ++ value.
Proof.
  intros H%rmatch_sound. unfold property_pattern in H.
  inversion H as [| | | | | |r0 p0 m0 s0 res0 Hbol H1|]; subst. clear H.
  inversion H1 as [| | | |r0 p0 m0 s0 res0 H2| | |]; subst. clear H1.
  apply matched_cls_inv in H2 as (c1 & t1 & E1 & Hc1 & H3).
  apply matched_star_inv in H3 as (k & t2 & -> & Hk & H4).
  inversion H4 as [| | | | |r0 p0 m0 s0 res0 H5| |]; subst. clear H4.
  apply matched_cls_inv in H5 as (d1 & t3 & -> & Hd1 & H6).
  apply N.eqb_eq in Hd1 as <-.
  apply matched_cls_inv in H6 as (d2 & t4 & -> & Hd2 & H7).
  apply N.eqb_eq in Hd2 as <-.
  apply matched_star_inv in H7 as (ws & t5 & -> & Hws & H8).
  inversion H8 as [| | | |r0 p0 m0 s0 res0 H9| | |]; subst. clear H8.
  apply matched_star_inv in H9 as (v & t6 & -> & Hv & H10).
  inversion H10 as [| | | | |r0 p0 m0 s0 res0 H11| |]; subst. clear H10.
  inversion H11 as [| | | | | | |r0 p0 m0 s0 res0 Heol H12]; subst. clear H11.
  apply matched_nil_inv in H12. cbn in H12. injection H12 as Hlen Hcaps.
  exists (c1 :: k), v. split; [|split].
  - apply (class_no_newline Notion.is_key_char); [reflexivity|].
    cbn [forallb]. by rewrite Hc1, Hk.
  - by apply (class_no_newline is_dot).
  - subst caps. rewrite E1. unfold property_repl, group.
    cbn [map lookup list_lookup Nat.sub default]. unfold id.
    assert (G1 : slice (c1 :: k ++ 58 :: 58 :: ws ++ v ++ t6)
                   (0%nat, (length k + 1)%nat) = c1 :: k).
    { apply (slice_at [] (c1 :: k)); cbn [length]; lia. }
    assert (G2 : slice (c1 :: k ++ 58 :: 58 :: ws ++ v ++ t6)
                   ((length ws + S (S (length k + 1)))%nat,
                    (length v + (length ws + S (S (length k + 1))))%nat) = v).
    { replace (c1 :: k ++ 58 :: 58 :: ws ++ v ++ t6)
        with ((c1 :: k ++ 58 :: 58 :: ws) ++ v ++ t6)
        by (by repeat (rewrite <- app_assoc || rewrite <- app_comm_cons)).
      apply slice_at; repeat (rewrite length_app || cbn [length]); lia. }
    rewrite G1, G2. reflexivity.
Qed.

(** ** Building acceptance *)

Lemma accepts_star_skip g p r prev s :
  accepts r prev s -> accepts (Star g p :: r) prev s.
Proof. intros (ms & res & H). exists ms, res. by apply matched_star_skip. Qed.

Lemma accepts_open r prev s : accepts r prev s -> accepts (GOpen :: r) prev s.
Proof.
  intros (ms & res & H).
  destruct (matched_any_state _ _ _ _ _ (ms_open ms0) H) as [res' H'].
  exists ms0, res'. by constructor.
Qed.

Lemma accepts_close r prev s : accepts r prev s -> accepts (GClose :: r) prev s.
Proof.
  intros (ms & res & H).
  destruct (matched_any_state _ _ _ _ _ (ms_close ms0) H) as [res' H'].
  exists ms0, res'. by constructor.
Qed.

Lemma accepts_cls p r prev c s :
  p c = true -> accepts r (Some c) s -> accepts (Cls p :: r) prev (c :: s).
Proof.
  intros Hp. apply steps_accepts. cbn. rewrite Hp. by apply list_elem_of_singleton.
Qed.

Lemma accepts_star_run g p r prev run s :
  forallb p run = true -> accepts r (last_read prev run) s ->
  accepts (Star g p :: r) prev (run ++ s).
Proof.
  revert prev. induction run as [|c run IH]; intros prev Hrun Hacc.
  - by apply accepts_star_skip.
  - cbn [forallb] in Hrun. apply andb_prop in Hrun as [Hc Hrun].
    rewrite last_read_cons in Hacc. cbn [app].
    apply (steps_accepts _ _ _ _ (Star g p :: r)); [|by apply IH].
    cbn. rewrite Hc. apply elem_of_app. left. by apply list_elem_of_singleton.
Qed.

Lemma accepts_empty prev s : accepts [] prev s.
Proof. by apply nullable_accepts. Qed.

Lemma suffix_cons_split {A} (r l : list A) (a : A) :
  r `suffix_of` a :: l -> r = a :: l \/ r `suffix_of` l.
Proof.
  intros [[|b k] E]; [by left|right].
  injection E as _ ->. by exists k.
Qed.

(** ** Replacements that a pattern cannot start with *)

Lemma rejected_not_inside r d (R' : text) prev prev' (a b out : text) :
  rejects (Bol :: r) d = true -> existsb mandatory r = true ->
  Forall (fun c => c <> 10) (d :: R') ->
  d :: R' = a ++ b -> b <> [] -> bol_kept prev prev' ->
  ~ accepts (Bol :: r) (last_read prev a) (b ++ out).
Proof.
  intros Hr Hm Hall Hab Hb Hk.
  apply (anchored_not_inside r prev prev' (d :: R') a b out); try done.
  intros p. by apply rejected_start.
Qed.

Lemma no_newline_end (R : text) p :
  R <> [] -> Forall (fun c => c <> 10) R -> at_bol (last_read p R) = false.
Proof. apply last_read_no_newline. Qed.

(** ** The rest of a line *)

Lemma rest_of_line prev s : accepts [Star Greedy is_dot; GClose; Eol] prev s.
Proof.
  revert prev. induction s as [|c s IH]; intros prev.
  - by apply nullable_accepts.
  - destruct (c =? 10) eqn:Hc.
    + apply nullable_accepts. cbn. by rewrite Hc.
    + apply (steps_accepts _ _ _ _ [Star Greedy is_dot; GClose; Eol]); [|apply IH].
      cbn. unfold is_dot. rewrite Hc. cbn. left.
Qed.

Ltac dead_end Hacc Hkc H58 H10 :=
  let Hn := fresh in let r' := fresh in let Hin := fresh in
  apply accepts_cons in Hacc as [Hn|(r' & Hin & _)];
  [ try (by rewrite consumes_not_nullable in Hn); cbn in Hn; by rewrite ?H10 in Hn
  | repeat (cbn [steps app] in Hin; rewrite ?Hkc, ?H58, ?H10 in Hin);
    try (by apply elem_of_nil in Hin);
    destruct (at_bol _); by apply elem_of_nil in Hin ].

(** A partial match of the property pattern that meets a character which
    is neither a key character, nor a colon, nor a line feed is either in
    the value, where any text does, or fails. *)
Lemma property_entered r p d (X : text) prev' s' :
  Notion.is_key_char d = false -> (58 =? d) = false -> (d =? 10) = false ->
  r `suffix_of` property_pattern ->
  accepts r p (d :: X) -> accepts r prev' s'.
Proof.
  intros Hkc H58 H10 Hsuf Hacc. unfold property_pattern in Hsuf.
  repeat (apply suffix_cons_split in Hsuf as [->|Hsuf];
          [try (by exfalso; dead_end Hacc Hkc H58 H10)|]).
  - apply accepts_star_skip, accepts_open, rest_of_line.
  - apply accepts_open, rest_of_line.
  - apply rest_of_line.
  - apply suffix_nil_inv in Hsuf as ->. apply accepts_empty.
Qed.

Lemma property_consumes : existsb mandatory property_pattern = true.
Proof. reflexivity. Qed.

Lemma property_not_started p d (X : text) :
  Notion.is_key_char d = false -> (58 =? d) = false -> (d =? 10) = false ->
  ~ accepts property_pattern p (d :: X).
Proof.
  intros Hkc H58 H10 Hacc.
  apply (property_entered _ p d X None []) in Hacc; try done.
  apply accepts_nil in Hacc. discriminate.
Qed.

(** ** Patterns kept silent by a substitution *)

(** An anchored pattern that rejects the first character of every
    replacement. *)
Lemma anchored_keeps_silent (r rj : regex) repl d s :
  existsb mandatory r = true -> existsb mandatory rj = true ->
  rejects (Bol :: r) d = true ->
  replaces_by rj repl (one_line_from d) ->
  quiet (Bol :: r) s -> quiet (Bol :: r) (re_sub rj repl s).
Proof.
  intros Hr Hrj Hrej Hshape. apply re_sub_keeps_silent; try done.
  - intros prev w s0 caps Hhit _ p.
    destruct (Hshape prev w s0 caps Hhit) as (R' & -> & Hall).
    by apply last_read_no_newline.
  - intros prev w s0 caps Hhit _ p a b out Hk Hab Hb.
    destruct (Hshape prev w s0 caps Hhit) as (R' & E & Hall). rewrite E in *.
    by apply (rejected_not_inside r d R' p prev a b out).
  - intros prev w s0 caps Hhit _ r' p out Hsuf Hk.
    destruct (Hshape prev w s0 caps Hhit) as (R' & -> & Hall).
    by apply (rejected_entered (Bol :: r)).
Qed.

(** A pattern that begins with a character and rejects the first
    character of every replacement, no replacement holding a character the
    pattern can begin with. *)
Lemma unanchored_keeps_silent p0 (r rj : regex) repl d s :
  existsb mandatory rj = true ->
  rejects (Cls p0 :: r) d = true ->
  replaces_by rj repl (one_line_from d) ->
  replaces_by rj repl (free_of p0) ->
  quiet (Cls p0 :: r) s -> quiet (Cls p0 :: r) (re_sub rj repl s).
Proof.
  intros Hrj Hrej Hshape Hfree. apply re_sub_keeps_silent; try done.
  - intros prev w s0 caps Hhit _ p.
    destruct (Hshape prev w s0 caps Hhit) as (R' & -> & Hall).
    by apply last_read_no_newline.
  - intros prev w s0 caps Hhit _ p a b out Hk Hab Hb.
    by apply (unanchored_not_inside p0 r _ _ a b out (Hfree prev w s0 caps Hhit)).
  - intros prev w s0 caps Hhit _ r' p out Hsuf Hk.
    destruct (Hshape prev w s0 caps Hhit) as (R' & -> & Hall).
    by apply (rejected_entered (Cls p0 :: r)).
Qed.

Lemma unanchored_silences p0 (r : regex) repl d s :
  rejects (Cls p0 :: r) d = true ->
  replaces_by (Cls p0 :: r) repl (one_line_from d) ->
  replaces_by (Cls p0 :: r) repl (free_of p0) ->
  quiet (Cls p0 :: r) (re_sub (Cls p0 :: r) repl s).
Proof.
  intros Hrej Hshape Hfree. apply re_sub_silences; try done.
  - intros prev w s0 caps Hhit _ p.
    destruct (Hshape prev w s0 caps Hhit) as (R' & -> & Hall).
    by apply last_read_no_newline.
  - intros prev w s0 caps Hhit _ p a b out Hk Hab Hb.
    by apply (unanchored_not_inside p0 r _ _ a b out (Hfree prev w s0 caps Hhit)).
  - intros prev w s0 caps Hhit _ r' p out Hsuf Hk.
    destruct (Hshape prev w s0 caps Hhit) as (R' & -> & Hall).
    by apply (rejected_entered (Cls p0 :: r)).
Qed.

(** The property pattern, given replacements that begin with a character
    which is neither a key character, nor a colon, nor a line feed. *)
Section PropertySilent.

Variables (rj : regex) (repl : text -> list text -> text) (d : N).
Hypothesis d_key : Notion.is_key_char d = false.
Hypothesis d_colon : (58 =? d) = false.
Hypothesis d_newline : (d =? 10) = false.
Hypothesis shape : replaces_by rj repl (one_line_from d).

Lemma property_replacement_end prev w s caps :
  rmatch rj prev ms0 (w ++ s) = Some (length w, caps) -> w <> [] ->
  forall p, at_bol (last_read p (repl w (map (slice (w ++ s)) caps))) = false.
Proof.
  intros Hhit _ p. destruct (shape prev w s caps Hhit) as (R' & -> & Hall).
  by apply last_read_no_newline.
Qed.

Lemma property_replacement_inside prev w s caps :
  rmatch rj prev ms0 (w ++ s) = Some (length w, caps) -> w <> [] ->
  forall p a b out,
    bol_kept p prev ->
    repl w (map (slice (w ++ s)) caps) = a ++ b -> b <> [] ->
    ~ accepts property_pattern (last_read p a) (b ++ out).
Proof.
  intros Hhit _ p a b out Hk Hab Hb.
  destruct (shape prev w s caps Hhit) as (R' & E & Hall). rewrite E in *.
  apply (anchored_not_inside _ p prev (d :: R') a b out); try done.
  intros p'. by apply property_not_started.
Qed.

Lemma property_replacement_entered prev w s caps :
  rmatch rj prev ms0 (w ++ s) = Some (length w, caps) -> w <> [] ->
  forall r p out,
    r `suffix_of` property_pattern -> bol_kept p prev ->
    accepts r p (repl w (map (slice (w ++ s)) caps) ++ out) ->
    accepts r prev (w ++ s).
Proof.
  intros Hhit _ r p out Hsuf Hk.
  destruct (shape prev w s caps Hhit) as (R' & -> & Hall).
  by apply property_entered.
Qed.

End PropertySilent.

Lemma property_keeps_silent (rj : regex) repl d s :
  existsb mandatory rj = true ->
  Notion.is_key_char d = false -> (58 =? d) = false -> (d =? 10) = false ->
  replaces_by rj repl (one_line_from d) ->
  quiet property_pattern s -> quiet property_pattern (re_sub rj repl s).
Proof.
  intros Hrj Hkc H58 H10 Hshape. apply re_sub_keeps_silent; try done.
  - by apply (property_replacement_end rj repl d).
  - by apply (property_replacement_inside rj repl d).
  - by apply (property_replacement_entered rj repl d).
Qed.

Lemma property_shape : replaces_by property_pattern property_repl (one_line_from 42).
Proof.
  intros prev w s caps (key & value & Hkey & Hvalue & ->)%property_hit.
  eexists. split; [reflexivity|].
  repeat (apply Forall_cons; split; [done|]).
  apply Forall_app. split; [done|].
  by repeat (apply Forall_cons; split; [done|]).
Qed.

Lemma property_silences s :
  quiet property_pattern (re_sub property_pattern property_repl s).
Proof.
  apply re_sub_silences; try done.
  - by apply (property_replacement_end _ _ 42 property_shape).
  - by apply (property_replacement_inside _ _ 42 eq_refl eq_refl eq_refl property_shape).
  - by apply (property_replacement_entered _ _ 42 eq_refl eq_refl eq_refl property_shape).
Qed.

(** ** Block references and queries *)

Lemma re_block_ref_pattern : Notion.re_block_ref = block_ref_pattern.
Proof. reflexivity. Qed.

Lemma re_query_pattern : Notion.re_query = query_pattern.
Proof. reflexivity. Qed.

Lemma free_of_by_computation (p : N -> bool) (R : text) :
  forallb (fun c => negb (p c)) R = true -> free_of p R.
Proof.
  induction R as [|c R IH]; [constructor|].
  cbn [forallb]. intros [Hc HR]%andb_prop.
  constructor; [by apply negb_true_iff|by apply IH].
Qed.

Lemma constant_shape (rj : regex) (R : text) d R' :
  R = d :: R' -> forallb is_dot R = true ->
  replaces_by rj (fun _ _ => R) (one_line_from d).
Proof.
  intros E Hall prev w s caps _. exists R'. split; [done|].
  by apply (class_no_newline is_dot).
Qed.

Lemma constant_free (rj : regex) (R : text) p :
  forallb (fun c => negb (p c)) R = true ->
  replaces_by rj (fun _ _ => R) (free_of p).
Proof. intros H prev w s caps _. by apply free_of_by_computation. Qed.

Lemma block_ref_shape (rj : regex) : replaces_by rj block_ref_repl (one_line_from 62).
Proof.
  apply (constant_shape rj _ 62 (tail Notion.block_ref_placeholder));
    vm_compute; reflexivity.
Qed.

Lemma query_shape (rj : regex) : replaces_by rj query_repl (one_line_from 60).
Proof.
  apply (constant_shape rj _ 60 (tail Notion.query_placeholder));
    vm_compute; reflexivity.
Qed.

Lemma block_ref_silences s :
  quiet block_ref_pattern (re_sub block_ref_pattern block_ref_repl s).
Proof.
  apply (unanchored_silences _ _ _ 62); [reflexivity|apply block_ref_shape|].
  apply constant_free. vm_compute. reflexivity.
Qed.

Lemma query_keeps_block_ref_silent s :
  quiet block_ref_pattern s ->
  quiet block_ref_pattern (re_sub query_pattern query_repl s).
Proof.
  apply (unanchored_keeps_silent _ _ _ _ 60);
    [reflexivity|reflexivity|apply query_shape|].
  apply constant_free. vm_compute. reflexivity.
Qed.

(** A match of the query pattern: two opening braces, characters other
    than a closing brace, two closing braces. *)
Lemma query_hit prev w s caps :
  rmatch query_pattern prev ms0 (w ++ s) = Some (length w, caps) ->
  exists c x t,
    not_brace c = true /\ forallb not_brace x = true /\
    w ++ s = 123 :: 123 :: c :: x ++ 125 :: 125 :: t.
Proof.
  intros H%rmatch_sound. unfold query_pattern in H.
  apply matched_cls_inv in H as (c1 & t1 & E1 & Hc1 & H).
  apply N.eqb_eq in Hc1 as <-.
  apply matched_cls_inv in H as (c2 & t2 & -> & Hc2 & H).
  apply N.eqb_eq in Hc2 as <-.
  apply matched_cls_inv in H as (c & t3 & -> & Hc & H).
  apply matched_star_inv in H as (x & t4 & -> & Hx & H).
  apply matched_cls_inv in H as (c3 & t5 & -> & Hc3 & H).
  apply N.eqb_eq in Hc3 as <-.
  apply matched_cls_inv in H as (c4 & t6 & -> & Hc4 & H).
  apply N.eqb_eq in Hc4 as <-.
  by exists c, x, t6.
Qed.

Lemma query_entered prev w s caps r p d (X : text) :
  rmatch query_pattern prev ms0 (w ++ s) = Some (length w, caps) ->
  (123 =? d) = false -> (125 =? d) = false ->
  r `suffix_of` query_pattern ->
  accepts r p (d :: X) -> accepts r prev (w ++ s).
Proof.
  intros (c & x & t & Hc & Hx & ->)%query_hit H123 H125 Hsuf Hacc.
  assert (Hend : forall q, accepts [Cls (N.eqb 125); Cls (N.eqb 125)] q (125 :: 125 :: t)).
  { intros q. apply accepts_cls; [done|]. apply accepts_cls; [done|].
    apply accepts_empty. }
  unfold query_pattern in Hsuf.
  repeat (apply suffix_cons_split in Hsuf as [->|Hsuf];
          [try (by exfalso; dead_end Hacc H123 H125 H125)|]).
  - apply accepts_cls; [done|].
    apply (accepts_star_run Greedy not_brace _ _ (123 :: c :: x)); [|apply Hend].
    cbn [forallb]. by rewrite Hc, Hx.
  - apply (accepts_star_run Greedy not_brace _ _ (123 :: 123 :: c :: x)); [|apply Hend].
    cbn [forallb]. by rewrite Hc, Hx.
  - apply suffix_nil_inv in Hsuf as ->. apply accepts_empty.
Qed.

Lemma query_repl_placeholder w gs : query_repl w gs = Notion.query_placeholder.
Proof. vm_compute. reflexivity. Qed.

Lemma query_placeholder_no_brace : free_of (N.eqb 123) Notion.query_placeholder.
Proof. apply free_of_by_computation. vm_compute. reflexivity. Qed.

Lemma query_replacement_end prev w s caps :
  rmatch query_pattern prev ms0 (w ++ s) = Some (length w, caps) -> w <> [] ->
  forall p, at_bol (last_read p (query_repl w (map (slice (w ++ s)) caps))) = false.
Proof.
  intros Hhit _ p.
  destruct (query_shape query_pattern prev w s caps Hhit) as (R' & E & Hall).
  rewrite E in *. by apply last_read_no_newline.
Qed.

Lemma query_replacement_inside prev w s caps :
  rmatch query_pattern prev ms0 (w ++ s) = Some (length w, caps) -> w <> [] ->
  forall p a b out,
    bol_kept p prev ->
    query_repl w (map (slice (w ++ s)) caps) = a ++ b -> b <> [] ->
    ~ accepts query_pattern (last_read p a) (b ++ out).
Proof.
  intros Hhit _ p a b out Hk Hab Hb.
  rewrite query_repl_placeholder in Hab.
  exact (unanchored_not_inside (N.eqb 123) _ (last_read p a)
           Notion.query_placeholder a b out query_placeholder_no_brace Hab Hb).
Qed.

Lemma query_replacement_entered prev w s caps :
  rmatch query_pattern prev ms0 (w ++ s) = Some (length w, caps) -> w <> [] ->
  forall r p out,
    r `suffix_of` query_pattern -> bol_kept p prev ->
    accepts r p (query_repl w (map (slice (w ++ s)) caps) ++ out) ->
    accepts r prev (w ++ s).
Proof.
  intros Hhit _ r p out Hsuf Hk.
  destruct (query_shape query_pattern prev w s caps Hhit) as (R' & E & Hall).
  rewrite E.
  apply (query_entered prev w s caps r p 60);
    [exact Hhit|reflexivity|reflexivity|exact Hsuf].
Qed.

Lemma query_silences s :
  quiet query_pattern (re_sub query_pattern query_repl s).
Proof.
  apply re_sub_silences.
  - reflexivity.
  - apply query_replacement_end.
  - apply query_replacement_inside.
  - apply query_replacement_entered.
Qed.

(** ** The task patterns after the later substitutions *)

Lemma task_anchored k :
  task_pattern k = Bol :: GOpen :: task_after_spaces k.
Proof. reflexivity. Qed.

Lemma task_keeps_silent (k : text) (rj : regex) repl d s :
  keyword k -> existsb mandatory rj = true ->
  is_space d = false -> d <> 45 -> is_upper d = false ->
  replaces_by rj repl (one_line_from d) ->
  quiet (task_pattern k) s -> quiet (task_pattern k) (re_sub rj repl s).
Proof.
  intros Hk Hrj Hsp H45 Hup Hshape. rewrite task_anchored.
  apply (anchored_keeps_silent _ _ _ d); try done.
  rewrite <- task_anchored. by apply task_rejects.
Qed.

(** ** The syntax conversion, stage by stage *)

Lemma keyword_by_computation (k : text) :
  negb (forallb (fun _ => false) k) && forallb is_upper k = true -> keyword k.
Proof.
  intros [Hne Hup]%andb_prop. split; [|done]. by intros ->.
Qed.

Lemma checkbox_by_computation (mark : text) m :
  mark = [45; 32; 91; m; 93; 32] -> (m =? 10) = false -> checkbox mark.
Proof. intros -> Hm. exists m. split; [done|]. by apply N.eqb_neq. Qed.

Lemma keyword_DONE : keyword (u "DONE").
Proof. apply keyword_by_computation. vm_compute. reflexivity. Qed.
Lemma keyword_TODO : keyword (u "TODO").
Proof. apply keyword_by_computation. vm_compute. reflexivity. Qed.
Lemma keyword_LATER : keyword (u "LATER").
Proof. apply keyword_by_computation. vm_compute. reflexivity. Qed.
Lemma keyword_NOW : keyword (u "NOW").
Proof. apply keyword_by_computation. vm_compute. reflexivity. Qed.

Lemma checkbox_ticked : checkbox (u "- [x] ").
Proof. apply (checkbox_by_computation _ 120); vm_compute; reflexivity. Qed.
Lemma checkbox_open : checkbox (u "- [ ] ").
Proof. apply (checkbox_by_computation _ 32); vm_compute; reflexivity. Qed.

Lemma convert_logseq_syntax_stages (s : text) :
  Notion.convert_logseq_syntax s =
  re_sub query_pattern query_repl
    (re_sub block_ref_pattern block_ref_repl
       (re_sub property_pattern property_repl
          (re_sub (task_pattern (u "NOW")) (task_repl (u "- [ ] "))
             (re_sub (task_pattern (u "LATER")) (task_repl (u "- [ ] "))
                (re_sub (task_pattern (u "TODO")) (task_repl (u "- [ ] "))
                   (re_sub (task_pattern (u "DONE")) (task_repl (u "- [x] "))
                      s)))))).
Proof.
  unfold Notion.convert_logseq_syntax, Notion.task_marker, task_repl,
    property_repl, block_ref_repl, query_repl.
  cbv zeta.
  rewrite !re_task_pattern, re_property_pattern, re_block_ref_pattern,
    re_query_pattern.
  reflexivity.
Qed.

Lemma task_survives_later_stages (k s : text) :
  keyword k -> quiet (task_pattern k) s ->
  quiet (task_pattern k)
    (re_sub query_pattern query_repl
       (re_sub block_ref_pattern block_ref_repl
          (re_sub property_pattern property_repl s))).
Proof.
  intros Hk Hq.
  apply (task_keeps_silent k _ _ 60); [done|reflexivity|reflexivity|done|reflexivity|apply query_shape|].
  apply (task_keeps_silent k _ _ 62); [done|reflexivity|reflexivity|done|reflexivity|apply block_ref_shape|].
  apply (task_keeps_silent k _ _ 42); [done|reflexivity|reflexivity|done|reflexivity|apply property_shape|].
  exact Hq.
Qed.

Create HintDb syntax.

#[local] Hint Resolve keyword_DONE keyword_TODO keyword_LATER keyword_NOW
  checkbox_ticked checkbox_open : syntax.

(** After the conversion none of its seven patterns matches anywhere. *)
Lemma converted_quiet_tasks (s k : text) :
  k ∈ [u "DONE"; u "TODO"; u "LATER"; u "NOW"] ->
  quiet (task_pattern k) (Notion.convert_logseq_syntax s).
Proof.
  intros Hk. rewrite convert_logseq_syntax_stages.
  repeat (apply elem_of_cons in Hk as [->|Hk]);
    [| | | |by apply elem_of_nil in Hk];
    apply task_survives_later_stages; auto with syntax;
    repeat (first [ apply task_silences; by auto with syntax
                  | apply task_keeps_task_silent; [by auto with syntax|by auto with syntax|] ]).
Qed.

Lemma converted_quiet_property (s : text) :
  quiet property_pattern (Notion.convert_logseq_syntax s).
Proof.
  rewrite convert_logseq_syntax_stages.
  apply (property_keeps_silent _ _ 60); [reflexivity..|apply query_shape|].
  apply (property_keeps_silent _ _ 62); [reflexivity..|apply block_ref_shape|].
  apply property_silences.
Qed.

Lemma converted_quiet_block_ref (s : text) :
  quiet block_ref_pattern (Notion.convert_logseq_syntax s).
Proof.
  rewrite convert_logseq_syntax_stages.
  apply query_keeps_block_ref_silent, block_ref_silences.
Qed.

Lemma converted_quiet_query (s : text) :
  quiet query_pattern (Notion.convert_logseq_syntax s).
Proof. rewrite convert_logseq_syntax_stages. apply query_silences. Qed.


(** ** Patterns that need a character *)

Lemma matched_needs r prev ms s res p :
  matched r prev ms s res -> Cls p ∈ r -> exists c, c ∈ s /\ p c = true.
Proof.
  induction 1 as [prev ms s
                 |p' r prev ms c s res Hp _ IH
                 |g p' r prev ms s res _ IH
                 |g p' r prev ms c s res Hp _ IH
                 |r prev ms s res _ IH
                 |r prev ms s res _ IH
                 |r prev ms s res Hb _ IH
                 |r prev ms s res He _ IH]; intros Hin.
  - by apply elem_of_nil in Hin.
  - apply elem_of_cons in Hin as [E|Hin].
    + injection E as <-. exists c. split; [left|done].
    + destruct (IH Hin) as (d & Hd & Hpd). exists d. split; [by right|done].
  - apply elem_of_cons in Hin as [E|Hin]; [discriminate|]. by apply IH.
  - destruct (IH Hin) as (d & Hd & Hpd). exists d. split; [by right|done].
  - apply elem_of_cons in Hin as [E|Hin]; [discriminate|]. by apply IH.
  - apply elem_of_cons in Hin as [E|Hin]; [discriminate|]. by apply IH.
  - apply elem_of_cons in Hin as [E|Hin]; [discriminate|]. by apply IH.
  - apply elem_of_cons in Hin as [E|Hin]; [discriminate|]. by apply IH.
Qed.

(** A pattern with a mandatory character of the class [p] matches nowhere
    in a text without such a character. *)
Lemma quiet_without r p s :
  Cls p ∈ r -> free_of p s -> quiet r s.
Proof.
  intros Hin Hfree. unfold quiet. generalize (@None N) as prev.
  induction s as [|c s IH]; intros prev.
  - split; [|done]. apply rmatch_none. intros (ms & res & H).
    destruct (matched_needs _ _ _ _ _ p H Hin) as (d & Hd & _).
    by apply elem_of_nil in Hd.
  - split.
    + apply rmatch_none. intros (ms & res & H).
      destruct (matched_needs _ _ _ _ _ p H Hin) as (d & Hd & Hpd).
      unfold free_of in Hfree. rewrite Forall_forall in Hfree.
      specialize (Hfree d Hd). congruence.
    + apply IH. by inversion Hfree.
Qed.

Lemma free_of_absent (c : N) (s : text) : c ∉ s -> free_of (N.eqb c) s.
Proof.
  intros Hc. apply Forall_forall. intros d Hd.
  apply N.eqb_neq. intros ->. done.
Qed.

Lemma re_sub_without r p repl s :
  Cls p ∈ r -> free_of p s -> re_sub r repl s = s.
Proof. intros Hin Hfree. apply quiet_re_sub. by apply (quiet_without r p). Qed.

Lemma scan_without r p s :
  Cls p ∈ r -> free_of p s -> scan r s = map Keep s.
Proof. intros Hin Hfree. apply quiet_scan. by apply (quiet_without r p). Qed.

Lemma render_m_keep {S} (repl : text -> list text -> M S text) (s : text) (st : S) :
  render_m repl (map Keep s) st = (Val s, st).
Proof.
  induction s as [|c s IH]; [reflexivity|].
  cbn [map render_m]. rewrite run_bind, IH. reflexivity.
Qed.

Lemma lacks_by_computation (s cs : text) :
  forallb (fun c => negb (one_of cs c)) s = true -> lacks s cs.
Proof.
  intros H c Hc Hin. rewrite forallb_forall in H.
  specialize (H c (proj1 (list_elem_of_In _ _) Hin)).
  apply negb_true_iff, one_of_not_elem in H. done.
Qed.

Lemma lacks_free_of (s cs : text) (c : N) :
  lacks s cs -> one_of cs c = true -> free_of (N.eqb c) s.
Proof.
  intros H Hc. apply free_of_absent, H. by apply one_of_elem.
Qed.

Lemma lit_needs (l : string) (c : N) (r : regex) :
  one_of (u l) c = true -> Cls (N.eqb c) ∈ lit l ++ r.
Proof.
  intros H. apply elem_of_app. left. unfold lit.
  apply (list_elem_of_fmap_2 (fun c => Cls (N.eqb c))). by apply one_of_elem.
Qed.

Lemma task_needs_hyphen (k : text) : Cls (N.eqb 45) ∈ task_pattern k.
Proof. unfold task_pattern. do 4 right. left. Qed.

Lemma property_needs_colon : Cls (N.eqb 58) ∈ property_pattern.
Proof. unfold property_pattern. do 5 right. left. Qed.

Lemma block_ref_needs_parenthesis : Cls (N.eqb 40) ∈ block_ref_pattern.
Proof. left. Qed.

Lemma query_needs_brace : Cls (N.eqb 123) ∈ query_pattern.
Proof. left. Qed.

(** ** Stripping, sanitising and collapsing *)

Lemma lstrip_by_fixed (p : N -> bool) (s : text) :
  (forall c t, s = c :: t -> p c = false) -> lstrip_by p s = s.
Proof.
  destruct s as [|c s]; [done|]. intros H. cbn. by rewrite (H c s eq_refl).
Qed.

Lemma rstrip_by_fixed (p : N -> bool) (s : text) :
  (forall c t, s = t ++ [c] -> p c = false) -> rstrip_by p s = s.
Proof.
  intros H. unfold rstrip_by. rewrite lstrip_by_fixed; [apply reverse_involutive|].
  intros c t E. apply (H c (reverse t)).
  apply (inj reverse). rewrite E, reverse_app, reverse_involutive. reflexivity.
Qed.

Lemma strip_by_idempotent (p : N -> bool) (s : text) :
  strip_by p (strip_by p s) = strip_by p s.
Proof.
  unfold strip_by at 1.
  rewrite lstrip_by_fixed by (intros c t; apply strip_by_head).
  apply rstrip_by_fixed. intros c t. apply strip_by_last.
Qed.

Lemma replace_hostile_fixed (s : text) :
  hostile_free s -> map replace_hostile s = s.
Proof.
  intros H. induction s as [|c s IH]; [done|].
  cbn [map]. rewrite IH by (intros d Hd; apply H; by right).
  unfold replace_hostile.
  assert (Hc : one_of path_hostile c = false)
    by (apply one_of_not_elem, H; left).
  by rewrite Hc.
Qed.

Lemma replace_hostile_idempotent (c : N) :
  replace_hostile (replace_hostile c) = replace_hostile c.
Proof.
  unfold replace_hostile. destruct (one_of path_hostile c) eqn:E; [reflexivity|].
  by rewrite E.
Qed.

Lemma lstrip_by_all (p : N -> bool) (s : text) :
  forallb p s = true -> lstrip_by p s = [].
Proof.
  induction s as [|c s IH]; [done|]. cbn. intros [Hc Hs]%andb_prop.
  rewrite Hc. by apply IH.
Qed.

Lemma words_from_solid (cur s : text) :
  Forall (fun c => is_space c = false) cur ->
  Forall (Forall (fun c => is_space c = false)) (words_from cur s).
Proof.
  revert cur. induction s as [|c s IH]; intros cur Hcur; cbn [words_from].
  - destruct cur; [constructor|]. constructor; [|constructor].
    by apply Forall_reverse.
  - destruct (is_space c) eqn:Hc.
    + destruct cur; [by apply IH|].
      constructor; [by apply Forall_reverse|by apply IH].
    + apply IH. by constructor.
Qed.

Lemma join_chars (P : N -> Prop) (sep : text) (parts : list text) :
  Forall P sep -> Forall (Forall P) parts -> Forall P (join sep parts).
Proof.
  intros Hsep. induction 1 as [|p ps Hp Hps IH]; [constructor|].
  cbn [join]. destruct ps as [|q ps]; [done|].
  apply Forall_app. split; [done|]. apply Forall_app. by split.
Qed.

Lemma collapsed_inline (s : text) : Forall inline_char (join (u " ") (words s)).
Proof.
  assert (Hsp : u " " = [32]) by (vm_compute; reflexivity).
  apply join_chars.
  - rewrite Hsp. constructor; [by right|constructor].
  - eapply Forall_impl; [apply words_from_solid; constructor|].
    intros p Hp. eapply Forall_impl; [exact Hp|]. intros c Hc. by left.
Qed.

Lemma strip_by_shorter (p : N -> bool) (s : text) :
  (length (strip_by p s) <= length s)%nat.
Proof.
  unfold strip_by.
  destruct (rstrip_by_prefix p (lstrip_by p s)) as [k Hk].
  destruct (lstrip_by_suffix p s) as [k' Hk'].
  apply (f_equal length) in Hk, Hk'. rewrite length_app in Hk, Hk'. lia.
Qed.

Lemma strip_by_Forall (P : N -> Prop) (p : N -> bool) (s : text) :
  Forall P s -> Forall P (strip_by p s).
Proof.
  rewrite !Forall_forall. intros H c Hc. by apply H, (strip_by_sublist p).
Qed.


(** ** One step of the tabular converter *)

Lemma team_fresh_page_uuid_run (w : world) (st : Team.converter) :
  Team.fresh_page_uuid w st = (Val (team_token w st), team_drawn st).
Proof.
  unfold Team.fresh_page_uuid, team_token, team_drawn.
  rewrite run_bind. cbn [get]. destruct (Team.with_uuid st); reflexivity.
Qed.

Lemma team_display_run (page_type key : text) (st : Team.converter) :
  (if bool_decide (page_type = Team.journal_type)
   then Team.convert_date_format key
   else mret (key, [])) st
  = (team_display page_type key, st).
Proof.
  unfold team_display. case_bool_decide;
    [apply TeamFacts.convert_date_format_pure | reflexivity].
Qed.

Lemma team_drawn_flag (st : Team.converter) :
  Team.with_uuid (team_drawn st) = Team.with_uuid st.
Proof. unfold team_drawn. by destruct (Team.with_uuid st) eqn:E. Qed.

Lemma process_page_file_run (w : world) (e : export) (parts : list text)
  (dir : string) (f : text * source) (st : Team.converter) :
  Team.process_page_file w e parts dir f st = team_step w e parts dir f st.
Proof.
  destruct f as [key src]. unfold Team.process_page_file, team_step.
  cbn [fst snd].
  case_bool_decide as Hc.
  { unfold team_skip_entry, Team.log, modify. reflexivity. }
 
  rewrite run_bind, team_fresh_page_uuid_run.
  fold (team_page_type parts dir key).
  rewrite run_bind, team_display_run.
  destruct (team_display (team_page_type parts dir key) key)
    as [[display start]|err]; [|reflexivity].
  destruct src as [body|why].
  2:{ unfold team_unreadable_entry, Team.log, modify. reflexivity. }
 
  repeat (rewrite run_bind; cbn [get modify]).
  unfold Team.create_notion_page.
  repeat (rewrite run_bind; cbn [get modify]).
  assert (Hname : Team.create_notion_filename (team_drawn st) display (team_token w st)
                  = Team.create_notion_filename st display (team_token w st)).
  { unfold Team.create_notion_filename. by rewrite team_drawn_flag. }
  rewrite Hname.
  unfold team_done_entry, team_write_failure_entry, team_page_content,
    team_registered, team_entry, team_truncated, Team.log, modify.
  destruct (write_error w _) as [why|]; [|reflexivity].
  rewrite run_bind. destruct (write_progress w _) as [n|]; reflexivity.
Qed.

(** The cases of a step. *)
Ltac team_step_cases H :=
  unfold team_step in H;
  let Hc := fresh "Hc" in
  case_bool_decide as Hc;
  [ | match type of H with
      | context [team_display ?t ?k] =>
        let display := fresh "display" in
        let start := fresh "start" in
        let err := fresh "err" in
        let Hd := fresh "Hd" in
        destruct (team_display t k) as [[display start]|err] eqn:Hd;
        [ match type of H with
          | context [match ?src with Content _ => _ | Unreadable _ => _ end] =>
            let body := fresh "body" in
            let why := fresh "why" in
            let Hs := fresh "Hs" in
            destruct src as [body|why] eqn:Hs;
            [ match type of H with
              | context [write_error ?w ?n] =>
                let Hw := fresh "Hw" in
                destruct (write_error w n) as [why|] eqn:Hw
              end | ]
          end | ]
      end ];
  apply pair_equal_spec in H as [<- <-].

(** A property that every step keeps holds whenever the scan stops. *)
Lemma team_scan_always (I : Team.converter -> Prop) (w : world) (e : export)
  (parts : list text) :
  (forall st msg, I st -> I (Team.append_log msg st)) ->
  (forall dir f st r st',
     f ∈ pages e ++ journals e ->
     I st -> team_step w e parts dir f st = (r, st') -> I st') ->
  forall st r st',
    I st -> Team.scan_and_convert_pages w e parts st = (r, st') -> I st'.
Proof.
  intros Hlog Hstep st r st' Hst Hrun.
  unfold Team.scan_and_convert_pages in Hrun.
  rewrite run_bind in Hrun. unfold Team.log at 1, modify at 1 in Hrun.
  rewrite run_bind in Hrun.
  assert (Hloop : forall dir files s q s',
             files ⊆ pages e ++ journals e ->
             I s -> for_each files (Team.process_page_file w e parts dir) s = (q, s') ->
             I s').
  { intros dir files s q s' Hsub. apply for_each_always.
    intros f s0 q0 s1 Hin Hs Hf. rewrite process_page_file_run in Hf.
    apply (Hstep dir f s0 q0 s1); [by apply Hsub|done|done]. }
  assert (Hp : pages e ⊆ pages e ++ journals e)
    by (intros x Hx; apply elem_of_app; by left).
  assert (Hj : journals e ⊆ pages e ++ journals e)
    by (intros x Hx; apply elem_of_app; by right).
  destruct (for_each (pages e) _ _) as [[[]|err] st1] eqn:Hpages.
  - apply (Hloop "journals"%string (journals e) st1 r st' Hj); [|exact Hrun].
    apply (Hloop "pages"%string (pages e) _ _ _ Hp (Hlog _ _ Hst) Hpages).
  - apply pair_equal_spec in Hrun as [_ <-].
    apply (Hloop "pages"%string (pages e) _ _ _ Hp (Hlog _ _ Hst) Hpages).
Qed.

Lemma team_drawn_registry (st : Team.converter) :
  Team.page_mapping (team_drawn st) = Team.page_mapping st.
Proof. unfold team_drawn. by destruct (Team.with_uuid st). Qed.

Lemma team_drawn_entries (st : Team.converter) :
  Team.database_entries (team_drawn st) = Team.database_entries st.
Proof. unfold team_drawn. by destruct (Team.with_uuid st). Qed.

Lemma team_drawn_files (st : Team.converter) :
  Team.database_files (team_drawn st) = Team.database_files st.
Proof. unfold team_drawn. by destruct (Team.with_uuid st). Qed.

Lemma team_drawn_log (st : Team.converter) :
  Team.conversion_log (team_drawn st) = Team.conversion_log st.
Proof. unfold team_drawn. by destruct (Team.with_uuid st). Qed.

Lemma team_truncated_flag (w : world) (filename content : text)
  (self : Team.converter) :
  Team.with_uuid (team_truncated w filename content self) = Team.with_uuid self.
Proof. unfold team_truncated. by destruct (write_progress w filename). Qed.

Lemma team_truncated_registry (w : world) (filename content : text)
  (self : Team.converter) :
  Team.page_mapping (team_truncated w filename content self)
  = Team.page_mapping self.
Proof. unfold team_truncated. by destruct (write_progress w filename). Qed.

Lemma team_truncated_entries (w : world) (filename content : text)
  (self : Team.converter) :
  Team.database_entries (team_truncated w filename content self)
  = Team.database_entries self.
Proof. unfold team_truncated. by destruct (write_progress w filename). Qed.

Lemma team_truncated_log (w : world) (filename content : text)
  (self : Team.converter) :
  Team.conversion_log (team_truncated w filename content self)
  = Team.conversion_log self.
Proof. unfold team_truncated. by destruct (write_progress w filename). Qed.

(** What a step does to flag, registry and database: nothing, or one
    entry and one row for a readable document other than [contents]. *)
Lemma team_step_effect (w : world) (e : export) (parts : list text)
  (dir : string) (f : text * source) (st : Team.converter) (r : res unit)
  (st' : Team.converter) :
  team_step w e parts dir f st = (r, st') ->
  Team.with_uuid st' = Team.with_uuid st /\
  (Team.page_mapping st' = Team.page_mapping st /\
   Team.database_entries st' = Team.database_entries st \/
   exists display start body,
     r = Val tt /\ f.1 <> u "contents" /\ f.2 = Content body /\
     team_display (team_page_type parts dir f.1) f.1 = Val (display, start) /\
     Team.page_mapping st'
     = <[f.1 := (Team.create_notion_filename st display (team_token w st),
                 team_token w st)]> (Team.page_mapping st) /\
     Team.database_entries st'
     = Team.database_entries st ++
       [team_entry display start (team_page_type parts dir f.1)
          (Team.extract_summary body)]).
Proof.
  intros H. team_step_cases H;
    cbn [Team.with_uuid Team.page_mapping Team.database_entries Team.append_log
         Team.put_file Team.append_entry Team.set_page_mapping team_registered];
    rewrite ?team_truncated_flag, ?team_truncated_registry,
      ?team_truncated_entries;
    cbn [Team.with_uuid Team.page_mapping Team.database_entries Team.append_log
         Team.put_file Team.append_entry Team.set_page_mapping team_registered];
    rewrite ?team_drawn_flag, ?team_drawn_registry, ?team_drawn_entries;
    (split; [reflexivity|]);
    try (left; split; reflexivity);
    right; exists display, start, body; by repeat split.
Qed.

(** The head that [create_notion_page] builds is the head that the claim
    describes. *)
Lemma created_by_line :
  u "Created by: LogSeq导入" ++ [10]
  = property_line (u "Created by") (u "LogSeq导入").
Proof. vm_compute. reflexivity. Qed.

Lemma status_line :
  u "状态: Not started" ++ [10] = property_line (u "状态") (u "Not started").
Proof. vm_compute. reflexivity. Qed.

Lemma start_date_label : u "开始日期: " = u "开始日期" ++ u ": ".
Proof. vm_compute. reflexivity. Qed.

Lemma page_type_label : u "页面类型: " = u "页面类型" ++ u ": ".
Proof. vm_compute. reflexivity. Qed.

Lemma summary_label : u "摘要: " = u "摘要" ++ u ": ".
Proof. vm_compute. reflexivity. Qed.

Lemma page_header_spelled (display page_type start_date summary : text) :
  Team.page_header display page_type start_date summary
  = metadata_header display start_date page_type summary.
Proof.
  unfold Team.page_header, metadata_header. cbv zeta.
  cbn [concat]. rewrite <- created_by_line, <- status_line.
  unfold optional_line, property_line.
  rewrite start_date_label, page_type_label, summary_label.
  destruct start_date as [|c cs], summary as [|d ds];
    rewrite <- ?app_assoc; cbn [app]; reflexivity.
Qed.

Lemma create_notion_filename_flag (a b : Team.converter) (name token : text) :
  Team.with_uuid a = Team.with_uuid b ->
  Team.create_notion_filename a name token = Team.create_notion_filename b name token.
Proof. intros H. unfold Team.create_notion_filename. by rewrite H. Qed.

Lemma journal_is_not_article : Team.journal_type <> Team.article_type.
Proof. vm_compute. discriminate. Qed.

Lemma determine_page_type_cases (parts : list text) (page_name : text) :
  Team.determine_page_type parts page_name = Team.journal_type \/
  Team.determine_page_type parts page_name = Team.article_type.
Proof.
  unfold Team.determine_page_type. case_bool_decide; [by left|].
  destruct (_ || _); [by left|by right].
Qed.

Lemma count_type_app (t : text) (a b : list Team.entry) :
  count_type t (a ++ b) = (count_type t a + count_type t b)%nat.
Proof. unfold count_type. by rewrite filter_app, length_app. Qed.

Lemma count_type_single (t : text) (en : Team.entry) :
  count_type t [en] = if decide (Team.e_page_type en = t) then 1%nat else 0%nat.
Proof.
  unfold count_type. rewrite filter_cons, filter_nil.
  by destruct (decide (Team.e_page_type en = t)).
Qed.

(** ** Percent-encoding and file names *)

Lemma quote_app (safe a b : text) :
  quote safe (a ++ b) = quote safe a ++ quote safe b.
Proof. unfold quote. by rewrite map_app, concat_app, map_app, concat_app. Qed.

Lemma quote_space : quote (u "/") (u " ") = u "%20".
Proof. vm_compute. reflexivity. Qed.

Lemma quote_md : quote (u "/") (u ".md") = u ".md".
Proof. vm_compute. reflexivity. Qed.

Lemma without_extension (a : text) :
  take (length (a ++ u ".md") - 3) (a ++ u ".md") = a.
Proof.
  assert (E : length (u ".md") = 3%nat) by (vm_compute; reflexivity).
  rewrite length_app, E.
  replace (length a + 3 - 3)%nat with (length a) by lia.
  apply take_app_length.
Qed.

(** ** Texts in which a scan finds nothing to replace *)

(** The pieces of a scan, each match taken as it stands, are the text. *)
Lemma scan_whole (r : regex) (s : text) (prev : option N) (skip : nat) :
  concat (map (render (fun whole _ => whole)) (scan_from r prev skip s))
  = drop skip s.
Proof.
  revert prev skip. induction s as [|c s IH]; intros prev skip.
  - cbn [scan_from]. destruct skip; [|reflexivity].
    destruct (rmatch r prev ms0 []) as [[n caps]|]; reflexivity.
  - cbn [scan_from]. destruct skip as [|k]; [|apply IH].
    destruct (rmatch r prev ms0 (c :: s)) as [[[|n] caps]|];
      cbn [map concat render app drop].
    + f_equal. apply (IH (Some c) 0%nat).
    + rewrite IH. cbn [take]. cbn [app]. f_equal. apply take_drop.
    + f_equal. apply (IH (Some c) 0%nat).
Qed.

(** A substitution whose replacement gives back every match it finds
    changes nothing. *)
Lemma re_sub_settled (r : regex) (repl : text -> list text -> text) (s : text) :
  forallb (fun p => match p with
                    | Keep _ => true
                    | Hit whole gs => bool_decide (repl whole gs = whole)
                    end) (scan r s) = true ->
  re_sub r repl s = s.
Proof.
  intros Hall. unfold re_sub.
  rewrite <- (scan_whole r s None 0) at 2. fold (scan r s).
  f_equal. induction (scan r s) as [|p ps IH]; [reflexivity|].
  cbn [forallb] in Hall. apply andb_true_iff in Hall as [Hp Hps].
  cbn [map]. f_equal; [|by apply IH].
  destruct p as [c|whole gs]; [reflexivity|]. cbn [render].
  by apply bool_decide_eq_true in Hp.
Qed.

Lemma render_m_settled {S} (repl : text -> list text -> M S text)
  (ps : list piece) (st : S) :
  forallb (fun p => match p with
                    | Keep _ => true
                    | Hit _ _ => false
                    end) ps = true ->
  render_m repl ps st
  = (Val (concat (map (render (fun whole _ => whole)) ps)), st).
Proof.
  induction ps as [|[c|whole gs] ps IH]; intros Hall.
  - reflexivity.
  - cbn [render_m]. rewrite run_bind, IH by exact Hall. reflexivity.
  - discriminate Hall.
Qed.

Lemma convert_image_links_settled (s : text) :
  images_settled s = true -> Notion.convert_image_links s = s.
Proof.
  intros Hall. unfold Notion.convert_image_links. apply re_sub_settled.
  unfold images_settled in Hall.
  induction (scan Notion.re_image s) as [|p ps IH]; [reflexivity|].
  cbn [forallb] in *. apply andb_true_iff in Hall as [Hp Hps].
  apply andb_true_iff. split; [|by apply IH].
  destruct p as [c|whole gs]; [reflexivity|].
  apply bool_decide_eq_true. unfold Notion.replace_image_link.
  cbv zeta. unfold mentions_assets in Hp.
  apply negb_true_iff in Hp. by rewrite Hp.
Qed.

(** On a text without a cross-reference and without an image below the
    asset directory [convert_links] returns the text and logs nothing. *)
Lemma convert_links_settled (s : text) (self : Notion.converter) :
  links_settled s = true -> images_settled s = true ->
  Notion.convert_links s self = (Val s, self).
Proof.
  intros Hl Hi. unfold Notion.convert_links, re_sub_m.
  rewrite run_bind, render_m_settled by exact Hl.
  unfold scan. rewrite scan_whole. cbn [drop].
  by rewrite run_ret, convert_image_links_settled.
Qed.

(** * The claims *)

(** ** C1: the registry is complete before rewriting begins *)

(** C1 (fails in the tabular converter).  [scan_and_convert_pages] registers
    and rewrites one document at a time: with [pages/A.md] holding
    [See [[B]]] and [pages/B.md] coming later in the listing, the file
    written for A carries the bare text [[B]] instead of a link, although B
    is a page of the export and is in the registry when the run ends. *)
Theorem team_forward_reference_unresolved :
  let run := Team.scan_and_convert_pages calm_world forward_reference
               notes_parts (Team.init false) in
  outcome run = Val tt /\
  Team.database_files (final run) !! u "A.md" =
    Some (Team.page_header (u "A") Team.article_type [] (u "See [[B]]")
          ++ u "See [B]") /\
  Team.page_mapping (final run) !! u "B" = Some (u "B.md", []).
Proof. vm_compute. repeat split; reflexivity. Qed.

(** On the same export the page-per-file converter, which scans first,
    resolves the reference. *)
Lemma notion_forward_reference_resolved :
  let run := Notion.convert calm_world forward_reference (u "notes")
               (Notion.init false) in
  outcome run = Val tt /\
  Notion.output_files (final run) !! u "A.md" = Some (u "See [B](B.md)").
Proof. vm_compute. split; reflexivity. Qed.

(** ** C2: output filenames with and without identifiers *)

(** C2 (the code fails with identifiers enabled).  [__init__] stores the
    flag under the name of the method [generate_uuid]; in [scan_pages] the
    call [self.generate_uuid()] then applies a [bool].  Whenever the export
    has a page, the scan raises [TypeError] at the first one and the
    registry receives no entry: no filename with a token is ever built. *)
Theorem enabled_identifiers_abort_scan (w : world) (e : export)
  (st : Notion.converter) :
  Notion.generate_uuid st = true ->
  pages e <> [] ->
  outcome (Notion.scan_pages w e st) = Exc shadow_error /\
  Notion.page_mapping (final (Notion.scan_pages w e st)) = Notion.page_mapping st.
Proof.
  intros Hon Hpages. destruct (pages e) as [|[k src] ps] eqn:E; [congruence|].
  unfold Notion.scan_pages. rewrite run_bind. cbn [Notion.log modify].
  rewrite run_bind, E, for_each_cons. cbn [fst].
  rewrite (NotionFacts.scan_page_shadowed w
             (Notion.append_log (u "开始扫描页面...") st) k Hon).
  split; reflexivity.
Qed.

Lemma enabled_identifiers_abort_scan_witness :
  outcome (Notion.scan_pages calm_world forward_reference (Notion.init true))
  = Exc shadow_error /\
  Notion.page_mapping
    (final (Notion.scan_pages calm_world forward_reference (Notion.init true)))
  = Notion.page_mapping (Notion.init true).
Proof.
  apply enabled_identifiers_abort_scan; [reflexivity | discriminate].
Defined.

(** The tabular converter keeps flag and token apart and builds the
    filename the claim describes. *)
Lemma team_filename_with_identifier (self : Team.converter) (name token : text) :
  Team.with_uuid self = true ->
  Team.create_notion_filename self name token =
  sanitize_filename name ++ u " " ++ token ++ u ".md".
Proof. intros H. unfold Team.create_notion_filename. by rewrite H. Qed.

(** ** C3: a page and a journal entry with the same stem *)

Lemma same_stem_page_entry_lost :
  let run := Notion.scan_pages calm_world same_stem (Notion.init false) in
  outcome run = Val tt /\
  u "2025_01_01" ∈ stems (pages same_stem) /\
  u "2025_01_01" ∈ stems (journals same_stem) /\
  Notion.page_mapping (final run) !! u "2025_01_01"
  = Some (u "2025年01月01日.md", []) /\
  Notion.page_mapping (final run) !! u "2025_01_01"
  <> Some (plain_entry (u "2025_01_01")) /\
  size (Notion.page_mapping (final run)) = 1%nat.
Proof.
  vm_compute. repeat split; try reflexivity; try discriminate; left.
Qed.

(** C3 (amended).  The registry is one dictionary keyed by stem, filled
    from the pages first and from the journals next: when a page and a
    journal entry share a stem, a completed scan leaves a single entry
    under it, the journal's. *)
Theorem journal_entry_replaces_page_entry (w : world) (e : export)
  (st st' : Notion.converter) (K : text) :
  Notion.scan_pages w e st = (Val tt, st') ->
  K ∈ stems (pages e) ->
  K ∈ stems (journals e) ->
  exists name,
    journal_display K = Val name /\
    Notion.page_mapping st' !! K = Some (plain_entry name).
Proof.
  intros Hrun _ Hj. destruct (Notion.generate_uuid st) eqn:Hflag.
  - destruct (NotionFacts.scan_pages_shadowed w e st st' Hflag Hrun) as (_ & Hnil & _).
    rewrite Hnil in Hj. by apply elem_of_nil in Hj.
  - by apply (NotionFacts.scan_pages_off w e st st' Hflag Hrun K).
Qed.

Lemma journal_entry_replaces_page_entry_witness :
  exists name,
    journal_display (u "2025_01_01") = Val name /\
    Notion.page_mapping
      (final (Notion.scan_pages calm_world same_stem (Notion.init false)))
    !! u "2025_01_01" = Some (plain_entry name).
Proof.
  apply (journal_entry_replaces_page_entry calm_world same_stem (Notion.init false));
    [reflexivity | left | left].
Defined.

(** ** C4: display names of journal entries *)

(** C4 (the code fails).  The date pattern is tried with [re.match], which
    does not anchor the end, and the stem is then split on every
    underscore: a journal file named [2025_01_01_draft.md] passes the test,
    yields four parts where three are unpacked, and the scan raises
    [ValueError] instead of falling back to the raw stem.  Both converters
    share the defect. *)
Theorem dated_stem_with_suffix_aborts :
  outcome (Notion.scan_pages calm_world dated_suffix (Notion.init false))
  = Exc (ValueError (u "too many values to unpack (expected 3)")) /\
  outcome (Team.scan_and_convert_pages calm_world dated_suffix notes_parts
             (Team.init false))
  = Exc (ValueError (u "too many values to unpack (expected 3)")).
Proof. vm_compute. split; reflexivity. Qed.

Lemma digit_not_underscore (c : N) : is_digit c = true -> (c =? 95) = false.
Proof.
  intros H. destruct (c =? 95) eqn:E; [|reflexivity].
  apply N.eqb_eq in E. subst c. vm_compute in H. discriminate.
Qed.

Arguments is_digit : simpl never.

(** A stem that is exactly a date, four digits, two digits and two digits
    joined by underscores, is displayed with the same three numbers. *)
Lemma journal_display_date (y1 y2 y3 y4 m1 m2 d1 d2 : N) :
  forallb is_digit [y1; y2; y3; y4; m1; m2; d1; d2] = true ->
  journal_display ([y1; y2; y3; y4] ++ u "_" ++ [m1; m2] ++ u "_" ++ [d1; d2])
  = Val ([y1; y2; y3; y4] ++ u "年" ++ [m1; m2] ++ u "月" ++ [d1; d2] ++ u "日").
Proof.
  intros H. cbn [forallb] in H.
  repeat (apply andb_prop in H as [? H]).
  unfold journal_display, Notion.journal_page_name, re_match.
  change (u "_") with [95].
  assert (Hm : rmatch re_date_key None ms0
                 ([y1; y2; y3; y4] ++ [95] ++ [m1; m2] ++ [95] ++ [d1; d2])
               = Some (10%nat, [])).
  { unfold re_date_key. change (lit "_") with [Cls (N.eqb 95)].
    cbn. repeat match goal with E : is_digit _ = true |- _ => rewrite E; clear E end.
    reflexivity. }
  rewrite Hm. rewrite run_bind.
  assert (Hs : split_on 95 ([y1; y2; y3; y4] ++ [95] ++ [m1; m2] ++ [95] ++ [d1; d2])
               = [[y1; y2; y3; y4]; [m1; m2]; [d1; d2]]).
  { cbn. repeat match goal with E : is_digit _ = true |- _ =>
                  rewrite (digit_not_underscore _ E); clear E end.
    reflexivity. }
  rewrite Hs. reflexivity.
Qed.

(** A stem that the pattern does not match at its start is displayed as it
    is. *)
Lemma journal_display_fallback (k : text) :
  re_match re_date_key k = None -> journal_display k = Val k.
Proof.
  intros H. unfold journal_display, Notion.journal_page_name. by rewrite H.
Qed.

(** ** C7: a document whose file cannot be written *)

(** C7 (the code fails on the count).  With two pages of which the first
    cannot be written, the failure is caught and logged and the second page
    is converted, but both the report and the summary line give
    [len(self.page_mapping)], the number of registry entries: two pages are
    reported as converted while one file exists. *)
Theorem failed_write_still_counted :
  let run := Notion.convert failing_world forward_reference (u "notes")
               (Notion.init false) in
  outcome run = Val tt /\
  Notion.output_files (final run) !! u "A.md" = None /\
  Notion.output_files (final run) !! u "B.md" = Some (u "b") /\
  size (Notion.output_files (final run)) = 1%nat /\
  u "转换文件失败 logseq-export/notes/pages/A.md: [Errno 28] No space left on device"
    ∈ Notion.conversion_log (final run) /\
  Notion.total_pages <$> Notion.written_report (final run) = Some 2%nat /\
  Notion.summary_line 2 ∈ Notion.conversion_log (final run).
Proof.
  repeat split; try (vm_compute; reflexivity);
    apply elem_of_by_computation; vm_compute; reflexivity.
Qed.

(** ** C9: block references *)

(** C9 (the code fails).  LogSeq writes a block reference as an identifier
    between two pairs of parentheses; the pattern of
    [convert_logseq_syntax] asks for three, so the reference goes through
    the Content Transformer unchanged and no placeholder is written. *)
Theorem block_reference_left_verbatim :
  transform empty_registry block_reference_body = block_reference_body /\
  Notion.convert_logseq_syntax block_reference_body = block_reference_body.
Proof. vm_compute. split; reflexivity. Qed.

(** Only when a third pair of parentheses surrounds it is the identifier
    replaced. *)
Lemma tripled_parentheses_replaced :
  Notion.convert_logseq_syntax (u "see (((64a1f3e2)))")
  = u "see " ++ Notion.block_ref_placeholder.
Proof. vm_compute. reflexivity. Qed.

(** ** C5: the Content Transformer applied twice *)

(** A reference between two further pairs of brackets: the first pass
    takes the outer reference, whose name begins with two brackets, and
    writes this name into the anchor of the placeholder, where the second
    pass finds a reference that the first did not see. *)
Lemma nested_reference_transformed_twice :
  let once := transform empty_registry (u "[[[[a]]]]") in
  once = u "[[[a](#[[a)]]" /\
  transform empty_registry once = u "[[[a](#[a)](#a))" /\
  transform empty_registry once <> once.
Proof. vm_compute. repeat split; try reflexivity; discriminate. Qed.

(** The image step is undone in the same way by the block-reference step,
    which runs after it: a block reference inside the path of an image
    hides the closing parenthesis from the first pass. *)
Lemma hidden_image_transformed_twice :
  let once := transform empty_registry (u "![a](x(((abcd)))assets/y)") in
  transform empty_registry once = u "![a](y)" /\
  transform empty_registry once <> once.
Proof. vm_compute. split; [reflexivity|discriminate]. Qed.

(** C5 (amended).  For every text and every registry, when the text that
    the Content Transformer returns holds no cross-reference and no image
    below the asset directory, that is when nothing is left for the first
    two steps to replace, applying the Transformer to it again returns it
    unchanged: the cross-reference and image steps find nothing, and the
    four syntax steps undo none of their own replacements. *)
Theorem transform_idempotent_when_settled (self : Notion.converter)
  (content : text) :
  let once := transform self content in
  links_settled once = true ->
  images_settled once = true ->
  transform self once = once.
Proof.
  cbv zeta. intros Hlinks Himages.
  unfold transform at 1. rewrite convert_links_settled by assumption.
  unfold transform. rewrite NotionFacts.convert_links_run.
  set (linked := Notion.convert_image_links _).
  rewrite (convert_logseq_syntax_stages (Notion.convert_logseq_syntax linked)).
  rewrite (quiet_re_sub (task_pattern (u "DONE")))
    by (apply converted_quiet_tasks; repeat constructor).
  rewrite (quiet_re_sub (task_pattern (u "TODO")))
    by (apply converted_quiet_tasks; repeat constructor).
  rewrite (quiet_re_sub (task_pattern (u "LATER")))
    by (apply converted_quiet_tasks; repeat constructor).
  rewrite (quiet_re_sub (task_pattern (u "NOW")))
    by (apply converted_quiet_tasks; repeat constructor).
  rewrite (quiet_re_sub property_pattern) by apply converted_quiet_property.
  rewrite (quiet_re_sub block_ref_pattern) by apply converted_quiet_block_ref.
  rewrite (quiet_re_sub query_pattern) by apply converted_quiet_query.
  reflexivity.
Qed.

Lemma transform_idempotent_when_settled_witness :
  let content := u "- TODO see [[B]] and ![p](assets/i.png)" in
  transform empty_registry (transform empty_registry content)
  = transform empty_registry content.
Proof.
  apply (transform_idempotent_when_settled empty_registry
           (u "- TODO see [[B]] and ![p](assets/i.png)")).
  - vm_compute. reflexivity.
  - vm_compute. reflexivity.
Defined.

(** ** C6: references that the registry does not resolve *)

(** C6 (the code fails in the tabular converter).  A page [A] refers to a
    page [X] that the export does not have.  The page-per-file converter
    does what the claim says: [convert_links] puts the anchor-style
    placeholder in the place of the reference and logs one warning.  The
    tabular converter puts the bare name in square brackets there, without
    an anchor, and its log has no entry for the miss: after the scan it
    holds the opening line and the line that reports [A] as converted. *)
Theorem team_unresolved_reference_no_anchor_no_warning :
  let run := Team.scan_and_convert_pages calm_world dangling_reference
               notes_parts (Team.init false) in
  let sibling := Notion.convert_links (u "[[X]]") (Notion.init false) in
  Team.convert_links (Team.init false) (u "[[X]]") = u "[X]" /\
  u "[X]" <> anchor_placeholder (u "X") /\
  outcome run = Val tt /\
  Team.conversion_log (final run)
  = [u "开始扫描和转换页面..."; u "转换页面: A -> A (文章)"] /\
  outcome sibling = Val (anchor_placeholder (u "X")) /\
  Notion.conversion_log (final sibling) = [miss_warning (u "X")].
Proof. vm_compute. repeat split; try reflexivity; discriminate. Qed.

(** ** C8: the sanitisation invariant of registry filenames *)

Lemma blank_stem_gives_leading_dot :
  let run := Notion.scan_pages calm_world blank_stem (Notion.init false) in
  outcome run = Val tt /\
  Notion.page_mapping (final run) !! u " " = Some (u ".md", []) /\
  ~ no_leading_dot_or_space (u ".md").
Proof.
  repeat split; try (vm_compute; reflexivity).
  intros H. destruct (H 46 (u "md") eq_refl) as [Hdot _]. by apply Hdot.
Qed.

(** C8 (amended).  In a completed registry every filename is free of the
    path-hostile characters and does not end with a dot or a space; it does
    not begin with one either, provided the key has at least one character
    other than dots and spaces.  (A key made of dots and spaces only is
    sanitised to the empty name, and the filename is then the bare
    extension.) *)
Theorem registry_filenames_sanitized (w : world) (e : export) (flag : bool)
  (st' : Notion.converter) (K filename token : text) :
  Notion.scan_pages w e (Notion.init flag) = (Val tt, st') ->
  Notion.page_mapping st' !! K = Some (filename, token) ->
  hostile_free filename /\
  no_trailing_dot_or_space filename /\
  (solid K -> no_leading_dot_or_space filename).
Proof.
  intros Hrun Hk. destruct flag.
  - destruct (NotionFacts.scan_pages_shadowed w e (Notion.init true) st' eq_refl Hrun) as (_ & _ & Hreg).
    rewrite Hreg in Hk. cbn in Hk. by rewrite lookup_empty in Hk.
  - destruct (NotionFacts.scan_pages_off w e (Notion.init false) st' eq_refl Hrun K)
      as (Hjournal & Hpage & Hnone).
    assert (Hshape : exists name,
               filename = sanitize_filename name ++ u ".md" /\ (solid K -> solid name)).
    { destruct (decide (K ∈ stems (journals e))) as [Hj|Hj].
      - destruct (Hjournal Hj) as (name & Hname & Hentry).
        rewrite Hentry in Hk. injection Hk as <- _.
        exists name. split; [reflexivity|].
        by apply NotionFacts.journal_display_solid.
      - destruct (decide (K ∈ stems (pages e))) as [Hp|Hp].
        + rewrite (Hpage Hj Hp) in Hk. injection Hk as <- _. by exists K.
        + rewrite (Hnone Hj Hp) in Hk. cbn in Hk. by rewrite lookup_empty in Hk. }
    destruct Hshape as (name & -> & Hsolid). split; [|split].
    + apply md_hostile_free, sanitize_hostile_free.
    + apply md_no_trailing.
    + intros HK. apply md_no_leading; [|apply sanitize_no_leading].
      by apply sanitize_solid, Hsolid.
Qed.

Lemma registry_filenames_sanitized_witness :
  hostile_free (u "A.md") /\
  no_trailing_dot_or_space (u "A.md") /\
  no_leading_dot_or_space (u "A.md").
Proof.
  destruct (registry_filenames_sanitized calm_world forward_reference false
              (final (Notion.scan_pages calm_world forward_reference
                        (Notion.init false)))
              (u "A") (u "A.md") [] eq_refl eq_refl) as (H1 & H2 & H3).
  split; [exact H1|]. split; [exact H2|].
  apply H3. exists 65. split; [left | split; discriminate].
Defined.
(** ** C10: page files of the tabular converter *)

(** C10.  Every document that the tabular converter emits, that is every
    readable document other than [contents] whose display name can be
    computed and whose page file can be written, has a page file that is
    the generated header (title line with the display name, [Created by],
    start date if any, status, page type, summary if any, horizontal rule)
    followed by the body of the document with only its cross-references
    converted, against the registry in which the document itself is
    entered under the name of that file; the file is never that converted
    body alone. *)
Theorem team_page_file_has_header (w : world) (e : export)
  (logseq_parts : list text) (dir : string)
  (key body display start_date : text) (st : Team.converter) :
  key <> u "contents" ->
  team_display (team_page_type logseq_parts dir key) key
  = Val (display, start_date) ->
  write_error w (Team.create_notion_filename st display (team_token w st))
  = None ->
  let run :=
    Team.process_page_file w e logseq_parts dir (key, Content body) st in
  let filename := Team.create_notion_filename st display (team_token w st) in
  let header :=
    metadata_header display start_date (team_page_type logseq_parts dir key)
      (Team.extract_summary body) in
  let converted := Team.convert_links (final run) body in
  outcome run = Val tt /\
  Team.page_mapping (final run) !! key = Some (filename, team_token w st) /\
  Team.database_files (final run) !! filename = Some (header ++ converted) /\
  header ++ converted <> converted.
Proof.
  intros Hkey Hdisp Hw. cbv zeta. rewrite process_page_file_run.
  unfold team_step. cbn [fst snd].
  rewrite (bool_decide_eq_false_2 _ Hkey), Hdisp, Hw.
  unfold outcome, final. cbn [fst snd].
  split; [reflexivity|]. split; [|split].
  - cbn [Team.page_mapping Team.append_log Team.put_file team_registered
         Team.append_entry Team.set_page_mapping].
    apply lookup_insert_eq.
  - cbn [Team.database_files Team.append_log Team.put_file].
    rewrite lookup_insert_eq. f_equal. unfold team_page_content.
    rewrite page_header_spelled. f_equal.
  - rewrite <- page_header_spelled.
    apply TeamFacts.header_shows, TeamFacts.page_header_not_empty.
Qed.

Lemma team_page_file_has_header_witness :
  let run :=
    Team.process_page_file calm_world forward_reference notes_parts "pages"
      (u "A", Content (u "See [[B]]")) (Team.init false) in
  let header :=
    metadata_header (u "A") [] (team_page_type notes_parts "pages" (u "A"))
      (Team.extract_summary (u "See [[B]]")) in
  let converted := Team.convert_links (final run) (u "See [[B]]") in
  outcome run = Val tt /\
  Team.page_mapping (final run) !! u "A"
  = Some (Team.create_notion_filename (Team.init false) (u "A")
            (team_token calm_world (Team.init false)),
          team_token calm_world (Team.init false)) /\
  Team.database_files (final run)
    !! Team.create_notion_filename (Team.init false) (u "A")
         (team_token calm_world (Team.init false))
  = Some (header ++ converted) /\
  header ++ converted <> converted.
Proof.
  apply (team_page_file_has_header calm_world forward_reference notes_parts
           "pages" (u "A") (u "See [[B]]") (u "A") [] (Team.init false)).
  - vm_compute. discriminate.
  - vm_compute. reflexivity.
  - reflexivity.
Defined.

(** ** Dates *)

Lemma split_on_not_nil (sep : N) (s : text) : split_on sep s <> [].
Proof.
  destruct s as [|c s]; [done|]. cbn. destruct (c =? sep); [done|].
  by destruct (split_on sep s).
Qed.

Lemma split_on_without (sep : N) (s : text) : sep ∉ s -> split_on sep s = [s].
Proof.
  induction s as [|c s IH]; [done|]. intros H.
  apply not_elem_of_cons in H as [Hc Hs]. cbn.
  rewrite (proj2 (N.eqb_neq c sep)) by done. by rewrite IH.
Qed.

Lemma split_on_with (sep : N) (s : text) :
  sep ∈ s -> exists a b rest, split_on sep s = a :: b :: rest.
Proof.
  induction s as [|c s IH]; [by intros ?%elem_of_nil|]. intros H. cbn.
  destruct (c =? sep) eqn:E.
  - pose proof (split_on_not_nil sep s). destruct (split_on sep s) as [|b rest]; [done|].
    by exists [], b, rest.
  - apply N.eqb_neq in E. apply elem_of_cons in H as [->|H]; [done|].
    destruct (IH H) as (a & b & rest & ->). by exists (c :: a), b, rest.
Qed.

Lemma dated_key_matches (y1 y2 y3 y4 m1 m2 d1 d2 : N) (rest : text) :
  forallb is_digit [y1; y2; y3; y4; m1; m2; d1; d2] = true ->
  rmatch re_date_key None ms0 (dated_key y1 y2 y3 y4 m1 m2 d1 d2 rest)
  = Some (10%nat, []).
Proof.
  intros H. cbn [forallb] in H. repeat (apply andb_prop in H as [? H]).
  unfold dated_key, re_date_key. change (u "_") with [95].
  change (lit "_") with [Cls (N.eqb 95)].
  cbn. repeat match goal with E : is_digit _ = true |- _ => rewrite E; clear E end.
  reflexivity.
Qed.

Lemma dated_key_split (y1 y2 y3 y4 m1 m2 d1 d2 : N) (rest : text) :
  forallb is_digit [y1; y2; y3; y4; m1; m2; d1; d2] = true ->
  exists tail,
    split_on 95 (dated_key y1 y2 y3 y4 m1 m2 d1 d2 rest)
    = [y1; y2; y3; y4] :: [m1; m2] :: tail /\
    (forall w ws, split_on 95 rest = w :: ws -> tail = (d1 :: d2 :: w) :: ws).
Proof.
  intros H. cbn [forallb] in H. repeat (apply andb_prop in H as [? H]).
  unfold dated_key. change (u "_") with [95].
  pose proof (split_on_not_nil 95 rest) as Hne.
  destruct (split_on 95 rest) as [|w ws] eqn:E; [done|].
  exists ((d1 :: d2 :: w) :: ws). split.
  - cbn. rewrite E.
    repeat match goal with E : is_digit _ = true |- _ =>
             rewrite (digit_not_underscore _ E); clear E end.
    reflexivity.
  - by intros w' ws' [= <- <-].
Qed.

Lemma chinese_dated_not_key (y1 y2 y3 y4 m1 m2 d1 d2 : N) (rest : text) :
  forallb is_digit [y1; y2; y3; y4; m1; m2; d1; d2] = true ->
  re_match re_date_key (chinese_dated y1 y2 y3 y4 m1 m2 d1 d2 rest) = None.
Proof.
  intros H. cbn [forallb] in H. repeat (apply andb_prop in H as [? H]).
  unfold re_match, chinese_dated, re_date_key.
  assert (E1 : u "年" = [24180]) by (vm_compute; reflexivity).
  rewrite E1. change (lit "_") with [Cls (N.eqb 95)].
  cbn. repeat match goal with E : is_digit _ = true |- _ => rewrite E; clear E end.
  reflexivity.
Qed.

Lemma chinese_dated_groups (y1 y2 y3 y4 m1 m2 d1 d2 : N) (rest : text) :
  forallb is_digit [y1; y2; y3; y4; m1; m2; d1; d2] = true ->
  re_match Team.re_chinese_date (chinese_dated y1 y2 y3 y4 m1 m2 d1 d2 rest)
  = Some [[y1; y2; y3; y4]; [m1; m2]; [d1; d2]].
Proof.
  intros H. cbn [forallb] in H. repeat (apply andb_prop in H as [? H]).
  unfold re_match, chinese_dated, Team.re_chinese_date.
  assert (E1 : u "年" = [24180]) by (vm_compute; reflexivity).
  assert (E2 : u "月" = [26376]) by (vm_compute; reflexivity).
  assert (E3 : u "日" = [26085]) by (vm_compute; reflexivity).
  assert (L1 : lit "年" = [Cls (N.eqb 24180)]) by (unfold lit; by rewrite E1).
  assert (L2 : lit "月" = [Cls (N.eqb 26376)]) by (unfold lit; by rewrite E2).
  assert (L3 : lit "日" = [Cls (N.eqb 26085)]) by (unfold lit; by rewrite E3).
  rewrite E1, E2, E3, L1, L2, L3.
  cbn. repeat match goal with E : is_digit _ = true |- _ => rewrite E; clear E end.
  reflexivity.
Qed.

(** ** One file of the page-per-file converter *)

Lemma logged_settings (entries : list text) (self : Notion.converter) :
  same_settings (logged entries self) self.
Proof.
  revert self. induction entries as [|x xs IH]; intros self; [done|].
  rewrite NotionFacts.logged_cons.
  destruct (IH (Notion.append_log x self)) as (H1 & H2 & H3 & H4 & H5).
  by repeat split.
Qed.

Lemma convert_file_run (w : world) (e : export) (dir : string)
  (f : text * source) (target : text) (st : Notion.converter) :
  Notion.convert_file w e dir f target st = notion_file_step w e dir f target st.
Proof.
  destruct f as [stem src].
  unfold Notion.convert_file, notion_file_step, try_except. cbn [fst snd].
  rewrite run_bind.
  destruct src as [body|why].
  - cbn [Notion.read_file]. rewrite run_ret, run_bind.
    rewrite NotionFacts.convert_links_run, run_bind.
    fold (notion_linked (Notion.page_mapping st) body).
    fold (notion_warnings (Notion.page_mapping st) body).
    fold (notion_written (Notion.page_mapping st) body).
    unfold Notion.write_file.
    destruct (write_error w target) as [why|].
    + rewrite run_bind. unfold notion_truncated.
      destruct (write_progress w target) as [n|];
        unfold raise, notion_failure_entry, Notion.log, modify; reflexivity.
    + unfold notion_done_entry, Notion.log, modify. reflexivity.
  - cbn [Notion.read_file]. unfold raise, notion_failure_entry, Notion.log, modify.
    reflexivity.
Qed.

Lemma transform_written (self : Notion.converter) (body : text) :
  transform self body = notion_written (Notion.page_mapping self) body.
Proof. unfold transform. by rewrite NotionFacts.convert_links_run. Qed.

Lemma same_settings_refl (a : Notion.converter) : same_settings a a.
Proof. by repeat split. Qed.

Lemma same_settings_trans (a b c : Notion.converter) :
  same_settings a b -> same_settings b c -> same_settings a c.
Proof.
  intros (A1 & A2 & A3 & A4 & A5) (B1 & B2 & B3 & B4 & B5).
  repeat split; congruence.
Qed.

Lemma logged_append (entries : list text) (entry : text) (self : Notion.converter) :
  Notion.conversion_log (Notion.append_log entry (logged entries self))
  = Notion.conversion_log self ++ entries ++ [entry].
Proof.
  cbn [Notion.conversion_log Notion.append_log].
  by rewrite NotionFacts.logged_log, <- app_assoc.
Qed.

Lemma lookup_put_if_ne (w : world) (p q content : text) (files : gmap text text) :
  p <> q -> put_if w p content files !! q = files !! q.
Proof.
  intros Hne. unfold put_if.
  destruct (write_error w p); [destruct (write_progress w p)|];
    [by apply lookup_insert_ne|reflexivity|by apply lookup_insert_ne].
Qed.

Lemma lookup_put_if_eq (w : world) (p content : text) (files : gmap text text) :
  write_error w p = None -> put_if w p content files !! p = Some content.
Proof. intros Hw. unfold put_if. rewrite Hw. apply lookup_insert_eq. Qed.

Lemma lookup_put_if_same (w : world) (p q content : text)
  (files : gmap text text) :
  write_error w q = None ->
  files !! q = Some content -> put_if w p content files !! q = Some content.
Proof.
  intros Hw Hq. destruct (decide (p = q)) as [->|Hne].
  - by apply lookup_put_if_eq.
  - by rewrite lookup_put_if_ne.
Qed.

(** What is found in a file after a write to it. *)
Lemma lookup_put_if_left (w : world) (p content data : text)
  (files : gmap text text) :
  put_if w p content files !! p = Some data ->
  files !! p = Some data \/ left_by_write w p content data.
Proof.
  unfold put_if, left_by_write. destruct (write_error w p) as [why|].
  - destruct (write_progress w p) as [n|]; [|by left].
    rewrite lookup_insert_eq. intros [= <-]. right. by exists n.
  - rewrite lookup_insert_eq. intros [= <-]. by right.
Qed.

Lemma notion_truncated_settings (w : world) (target content : text)
  (st : Notion.converter) :
  same_settings (notion_truncated w target content st) st.
Proof. unfold notion_truncated. by destruct (write_progress w target). Qed.

Lemma notion_truncated_log (w : world) (target content : text)
  (st : Notion.converter) :
  Notion.conversion_log (notion_truncated w target content st)
  = Notion.conversion_log st.
Proof. unfold notion_truncated. by destruct (write_progress w target). Qed.

(** What a file step does: it returns, keeps the settings, appends to the
    log, and leaves in the target what the write of the transformed body
    leaves there. *)
Lemma notion_file_step_effect (w : world) (e : export) (dir : string)
  (f : text * source) (target : text) (st : Notion.converter) :
  exists st' more,
    notion_file_step w e dir f target st = (Val tt, st') /\
    same_settings st' st /\
    Notion.conversion_log st' = Notion.conversion_log st ++ more /\
    Notion.output_files st' = notion_files_after w f target st.
Proof.
  unfold notion_file_step, notion_files_after, put_if.
  destruct f as [stem [body|why]]; cbn [fst snd].
  - set (st1 := logged (notion_warnings (Notion.page_mapping st) body) st).
    assert (H1 : same_settings st1 st) by apply logged_settings.
    assert (F1 : Notion.output_files st1 = Notion.output_files st)
      by apply NotionFacts.logged_files.
    assert (L1 : Notion.conversion_log st1
                 = Notion.conversion_log st
                   ++ notion_warnings (Notion.page_mapping st) body)
      by apply NotionFacts.logged_log.
    destruct (write_error w target) as [why|] eqn:Hw.
    + eexists _, _. split; [reflexivity|]. split; [|split].
      * apply (same_settings_trans _ st1); [|exact H1].
        apply (same_settings_trans _ (notion_truncated w target
                 (notion_written (Notion.page_mapping st) body) st1));
          [by repeat split|apply notion_truncated_settings].
      * cbn [Notion.conversion_log Notion.append_log].
        rewrite notion_truncated_log, L1, <- app_assoc. reflexivity.
      * cbn [Notion.output_files Notion.append_log]. unfold notion_truncated.
        destruct (write_progress w target) as [n|];
          cbn [Notion.output_files Notion.put_file]; by rewrite F1.
    + eexists _, _. split; [reflexivity|]. split; [|split].
      * apply (same_settings_trans _ st1); [by repeat split|exact H1].
      * cbn [Notion.conversion_log Notion.append_log Notion.put_file].
        rewrite L1, <- app_assoc. reflexivity.
      * cbn [Notion.output_files Notion.append_log Notion.put_file].
        by rewrite F1.
  - eexists _, [_]. split; [reflexivity|]. split; [by repeat split|].
    split; reflexivity.
Qed.

Lemma convert_one_run (w : world) (e : export) (dir : string)
  (f : text * source) (st : Notion.converter) :
  Notion.convert_one w e dir f st =
  match Notion.page_mapping st !! f.1 with
  | Some (notion_filename, _) => notion_file_step w e dir f notion_filename st
  | None => (Val tt, st)
  end.
Proof.
  unfold Notion.convert_one. rewrite run_bind. cbn [get].
  destruct (Notion.page_mapping st !! f.1) as [[fn tok]|]; [|reflexivity].
  apply convert_file_run.
Qed.

(** A loop whose body always returns returns, and keeps what the body
    keeps. *)
Lemma for_each_returns {S A} (I : S -> Prop) (xs : list A) (body : A -> M S unit) :
  (forall x s, x ∈ xs -> I s -> exists s', body x s = (Val tt, s') /\ I s') ->
  forall s, I s -> exists s', for_each xs body s = (Val tt, s') /\ I s'.
Proof.
  induction xs as [|x xs IH]; intros Hstep s Hs.
  - exists s. by split.
  - rewrite for_each_cons.
    destruct (Hstep x s) as (s1 & -> & Hs1); [left|done|].
    apply IH; [|done]. intros y s0 Hy. apply Hstep. by right.
Qed.

(** ** Assets *)

Lemma split_on_parts (sep : N) (s : text) :
  Forall (fun part => sep ∉ part) (split_on sep s).
Proof.
  induction s as [|c s IH]; cbn.
  - constructor; [apply not_elem_of_nil|constructor].
  - destruct (c =? sep) eqn:E.
    + constructor; [apply not_elem_of_nil|done].
    + apply N.eqb_neq in E. destruct (split_on sep s) as [|p ps].
      * constructor; [|constructor].
        apply not_elem_of_cons. split; [congruence|apply not_elem_of_nil].
      * inversion IH; subst. constructor; [|done].
        apply not_elem_of_cons. split; [congruence|done].
Qed.

Lemma basename_no_slash (p : text) : 47 ∉ basename p.
Proof.
  unfold basename. destruct (last (split_on 47 p)) as [b|] eqn:E; [|apply not_elem_of_nil].
  cbn. apply last_Some in E as [l' E].
  pose proof (split_on_parts 47 p) as H. rewrite E in H.
  apply Forall_app in H as [_ H]. by inversion H.
Qed.

Lemma copy_assets_loop (w : world) (e : export) (files : list text)
  (st : Notion.converter) :
  exists st',
    for_each files (fun rel =>
      modify (Notion.set_asset_mapping (asset_source e rel) (asset_destination w rel));;
      Notion.log (u "复制资源文件: " ++ basename rel)) st = (Val tt, st') /\
    Notion.page_mapping st' = Notion.page_mapping st /\
    Notion.output_files st' = Notion.output_files st /\
    (forall rel, rel ∈ files ->
       Notion.asset_mapping st' !! asset_source e rel = Some (asset_destination w rel)) /\
    (forall k, (forall rel, rel ∈ files -> k <> asset_source e rel) ->
       Notion.asset_mapping st' !! k = Notion.asset_mapping st !! k).
Proof.
  revert st. induction files as [|x xs IH]; intros st.
  - exists st. split; [reflexivity|]. split; [reflexivity|]. split; [reflexivity|].
    split; [by intros rel ?%elem_of_nil|done].
  - rewrite for_each_cons, run_bind. unfold modify at 1.
    unfold Notion.log at 1, modify at 1.
    destruct (IH (Notion.append_log (u "复制资源文件: " ++ basename x)
                    (Notion.set_asset_mapping (asset_source e x)
                       (asset_destination w x) st)))
      as (st' & Hrun & Hreg & Hfiles & Hin & Hout).
    exists st'. split; [exact Hrun|]. split; [exact Hreg|]. split; [exact Hfiles|].
    split.
    + intros rel Hrel.
      destruct (decide (rel ∈ xs)) as [Hxs|Hxs]; [by apply Hin|].
      apply elem_of_cons in Hrel as [->|Hrel]; [|done].
      rewrite Hout.
      * cbn [Notion.asset_mapping Notion.append_log Notion.set_asset_mapping].
        apply lookup_insert_eq.
      * intros rel Hrel E. unfold asset_source in E.
        apply app_inv_head, app_inv_head in E. by subst.
    + intros k Hk. rewrite Hout by (intros rel Hrel; apply Hk; by right).
      cbn [Notion.asset_mapping Notion.append_log Notion.set_asset_mapping].
      apply lookup_insert_ne. intros E. by apply (Hk x); [left|].
Qed.

(** ** Link targets *)

Lemma hex_digit_char (d : N) : 48 <= hex_digit d.
Proof. unfold hex_digit. destruct (d <? 10); lia. Qed.

Lemma quote_byte_chars (b : N) : Forall target_char (quote_byte [] b).
Proof.
  unfold quote_byte.
  destruct (is_upper b || is_lower b || is_ascii_digit b
            || one_of (u "_.-~") b || one_of [] b) eqn:E.
  - constructor; [|constructor]. unfold target_char.
    rewrite !orb_true_iff in E.
    destruct E as [[[[E|E]|E]|E]|E].
    + unfold is_upper, in_range in E. apply andb_prop in E as [E _].
      apply N.leb_le in E. lia.
    + unfold is_lower, in_range in E. apply andb_prop in E as [E _].
      apply N.leb_le in E. lia.
    + unfold is_ascii_digit, in_range in E. apply andb_prop in E as [E _].
      apply N.leb_le in E. lia.
    + apply one_of_elem in E.
      assert (Hs : u "_.-~" = [95; 46; 45; 126]) by (vm_compute; reflexivity).
      rewrite Hs in E.
      repeat (apply elem_of_cons in E as [->|E]; [lia|]).
      by apply elem_of_nil in E.
    + discriminate.
  - repeat constructor; unfold target_char;
      first [by left | pose proof (hex_digit_char (b / 16)); pose proof (hex_digit_char (b mod 16)); lia].
Qed.

Lemma quote_chars (s : text) : Forall target_char (quote [] s).
Proof.
  unfold quote. apply Forall_concat, Forall_fmap, Forall_forall.
  intros b _. apply quote_byte_chars.
Qed.

Lemma quote_safe_target (s : text) : safe_target (quote [] s).
Proof.
  pose proof (quote_chars s) as H. rewrite Forall_forall in H.
  unfold safe_target.
  repeat split; intros Hin; apply H in Hin; unfold target_char in Hin; lia.
Qed.

(** ** Image links *)

Lemma rmatch_greedy_run p r prev ms run s' x :
  forallb p run = true ->
  (forall c t, s' = c :: t -> p c = false) ->
  rmatch r (last_read prev run) (ms_skip (length run) ms) s' = Some x ->
  rmatch (Star Greedy p :: r) prev ms (run ++ s') = Some x.
Proof.
  revert prev ms. induction run as [|c run IH]; intros prev ms Hrun Hstop Hr.
  - cbn [app length] in *. rewrite ms_skip_0 in Hr.
    destruct s' as [|d t]; [by rewrite rmatch_greedy_nil|].
    rewrite rmatch_greedy_cons, (Hstop d t eq_refl). exact Hr.
  - cbn [forallb] in Hrun. apply andb_prop in Hrun as [Hc Hrun].
    cbn [app]. rewrite rmatch_greedy_cons, Hc.
    rewrite (IH (Some c) (ms_adv ms)); [done|done|done|].
    rewrite last_read_cons in Hr. cbn [length] in Hr.
    rewrite <- ms_skip_adv in Hr. exact Hr.
Qed.

Lemma rmatch_lits (l : text) r prev ms s' :
  rmatch (lits l ++ r) prev ms (l ++ s')
  = rmatch r (last_read prev l) (ms_skip (length l) ms) s'.
Proof.
  revert prev ms. induction l as [|c l IH]; intros prev ms.
  - by rewrite ms_skip_0.
  - cbn [lits map app rmatch]. rewrite N.eqb_refl. fold (lits l).
    rewrite IH, ms_skip_adv, last_read_cons. reflexivity.
Qed.

Lemma re_image_pattern : Notion.re_image = image_pattern.
Proof. reflexivity. Qed.

Lemma rmatch_open r prev ms s :
  rmatch (GOpen :: r) prev ms s = rmatch r prev (ms_open ms) s.
Proof. reflexivity. Qed.

Lemma rmatch_close r prev ms s :
  rmatch (GClose :: r) prev ms s = rmatch r prev (ms_close ms) s.
Proof. reflexivity. Qed.

Lemma rmatch_cls p r prev ms c s :
  rmatch (Cls p :: r) prev ms (c :: s)
  = if p c then rmatch r (Some c) (ms_adv ms) s else None.
Proof. reflexivity. Qed.

Lemma rmatch_end prev ms s : rmatch [] prev ms s = Some (m_pos ms, m_caps ms).
Proof. reflexivity. Qed.

Lemma bracket_stops : not_bracket 93 = false.
Proof. vm_compute. reflexivity. Qed.

Lemma paren_stops : not_paren 41 = false.
Proof. vm_compute. reflexivity. Qed.

Lemma path_matches (path s : text) prev ms :
  forallb not_paren path = true -> path <> [] ->
  rmatch (GOpen :: Cls not_paren :: Star Greedy not_paren :: GClose :: lits [41])
    prev ms (path ++ [41] ++ s)
  = Some (S (length path + m_pos ms),
          m_caps ms ++ [(m_pos ms, length path + m_pos ms)])%nat.
Proof.
  intros Hpath Hne. destruct path as [|p0 ps]; [done|].
  cbn [forallb] in Hpath. apply andb_prop in Hpath as [Hp0 Hps].
  rewrite rmatch_open. cbn [app]. rewrite rmatch_cls, Hp0.
  erewrite rmatch_greedy_run; [reflexivity|exact Hps| |].
  - intros c t E. cbn [app] in E. injection E as <- _. exact paren_stops.
  - rewrite rmatch_close.
    change (lits [41]) with (lits [41] ++ []).
    rewrite (rmatch_lits [41] [] _ _ s), rmatch_end.
    destruct ms as [pos op caps].
    unfold ms_skip, ms_close, ms_open, ms_adv. cbn [m_pos m_caps m_open app length].
    repeat (f_equal; try lia).
Qed.

Lemma alt_matches (alt s : text) (r : regex) prev ms x :
  forallb not_bracket alt = true ->
  rmatch r (Some 40)
    (MState (2 + (length alt + m_pos ms)) (m_open ms)
       (m_caps ms ++ [(m_pos ms, length alt + m_pos ms)]))%nat s = Some x ->
  rmatch (GOpen :: Star Greedy not_bracket :: GClose :: lits [93; 40] ++ r)
    prev ms (alt ++ [93; 40] ++ s) = Some x.
Proof.
  intros Halt Hr. rewrite rmatch_open.
  erewrite rmatch_greedy_run; [reflexivity|exact Halt| |].
  - intros c t E. cbn [app] in E. injection E as <- _. exact bracket_stops.
  - rewrite rmatch_close, rmatch_lits.
    destruct ms as [pos op caps].
    unfold ms_skip, ms_close, ms_open. cbn [m_pos m_caps m_open length last_read last].
    cbn [m_pos m_open m_caps] in Hr. exact Hr.
Qed.

Lemma image_link_matches (alt path s : text) prev :
  forallb not_bracket alt = true -> forallb not_paren path = true -> path <> [] ->
  rmatch image_pattern prev ms0 (image_link alt path ++ s)
  = Some (length (image_link alt path),
          [(2, 2 + length alt); (4 + length alt, 4 + length alt + length path)])%nat.
Proof.
  intros Halt Hpath Hne. unfold image_pattern, image_link.
  rewrite <- !(app_assoc _ _ s), rmatch_lits.
  apply alt_matches; [exact Halt|].
  rewrite path_matches by done.
  unfold ms_skip, ms0. cbn [m_pos m_caps m_open app length].
  rewrite !length_app. cbn [length]. rewrite !length_app. cbn [length].
  repeat (f_equal; try lia).
Qed.

Lemma scan_image_link (alt path : text) :
  forallb not_bracket alt = true -> forallb not_paren path = true -> path <> [] ->
  scan image_pattern (image_link alt path)
  = [Hit (image_link alt path) [alt; path]].
Proof.
  intros Halt Hpath Hne. unfold scan.
  pose proof (image_link_matches alt path [] None Halt Hpath Hne) as Hm.
  rewrite app_nil_r in Hm.
  assert (Hshape : exists c rest, image_link alt path = c :: rest).
  { unfold image_link. eexists _, _. reflexivity. }
  destruct Hshape as (c & rest & E).
  rewrite E in Hm |- *. cbn [scan_from]. rewrite Hm. cbn [length].
  rewrite <- E.
  assert (Hlen : S (length rest) = length (image_link alt path)) by (by rewrite E).
  rewrite Hlen, firstn_all.
  assert (G1 : slice (image_link alt path) (2%nat, (2 + length alt)%nat) = alt).
  { unfold image_link. by apply (slice_at [33; 91] alt). }
  assert (G2 : slice (image_link alt path)
                 ((4 + length alt)%nat, (4 + length alt + length path)%nat) = path).
  { unfold image_link.
    replace ([33; 91] ++ alt ++ [93; 40] ++ path ++ [41])
      with (([33; 91] ++ alt ++ [93; 40]) ++ path ++ [41])
      by (by rewrite <- !app_assoc).
    apply slice_at; [|done]. rewrite !length_app. cbn [length]. lia. }
  cbn [map]. rewrite G1, G2. f_equal.
  pose proof (scan_from_skip image_pattern (Some c) rest []) as Hs.
  rewrite app_nil_r in Hs. rewrite Hs. reflexivity.
Qed.


(** ** The run of the page-per-file converter *)

Lemma for_each_app {S A} (xs ys : list A) (body : A -> M S unit) (s : S) :
  for_each (xs ++ ys) body s =
  match for_each xs body s with
  | (Val _, s') => for_each ys body s'
  | (Exc err, s') => (Exc err, s')
  end.
Proof.
  revert s. induction xs as [|x xs IH]; intros s; [reflexivity|].
  cbn [app]. rewrite !for_each_cons.
  destruct (body x s) as [[[]|err] s1]; [apply IH|reflexivity].
Qed.

Lemma for_each_map {S A B} (f : A -> B) (xs : list A) (body : B -> M S unit) (s : S) :
  for_each (map f xs) body s = for_each xs (fun x => body (f x)) s.
Proof.
  revert s. induction xs as [|x xs IH]; intros s; [reflexivity|].
  cbn [map]. rewrite !for_each_cons.
  destruct (body (f x) s) as [[[]|err] s1]; [apply IH|reflexivity].
Qed.

(** [convert_all_pages] as one loop over the documents. *)
Lemma convert_all_pages_documents (w : world) (e : export) (st : Notion.converter) :
  Notion.convert_all_pages w e st =
  for_each (documents e) (fun d => Notion.convert_one w e d.1 d.2)
    (Notion.append_log (u "开始转换页面内容...") st).
Proof.
  unfold Notion.convert_all_pages, documents.
  rewrite run_bind. unfold Notion.log at 1, modify at 1.
  rewrite run_bind, for_each_app, for_each_map. cbn [fst snd].
  destruct (for_each (pages e) _ _) as [[[]|err] s1]; [|reflexivity].
  rewrite for_each_map. reflexivity.
Qed.

(** One document: the step returns, keeps the registry, leaves alone every
    file but the one that the registry names for the document, and writes
    that one if the document can be read and the file written. *)
Lemma convert_one_effect (w : world) (e : export) (dir : string)
  (f : text * source) (st : Notion.converter) :
  exists st',
    Notion.convert_one w e dir f st = (Val tt, st') /\
    Notion.page_mapping st' = Notion.page_mapping st /\
    (forall name,
       (forall token, Notion.page_mapping st !! f.1 <> Some (name, token)) ->
       Notion.output_files st' !! name = Notion.output_files st !! name) /\
    (forall name token body,
       Notion.page_mapping st !! f.1 = Some (name, token) ->
       f.2 = Content body -> write_error w name = None ->
       Notion.output_files st' !! name
       = Some (notion_written (Notion.page_mapping st) body)).
Proof.
  rewrite convert_one_run.
  destruct (Notion.page_mapping st !! f.1) as [[fn tok]|] eqn:Hlook.
  2:{ exists st. split; [reflexivity|]. split; [reflexivity|]. by split. }
  destruct (notion_file_step_effect w e dir f fn st)
    as (st' & more & Hrun & (_ & Hreg & _) & _ & Hfiles).
  exists st'. split; [exact Hrun|]. split; [exact Hreg|].
  unfold notion_files_after in Hfiles. split.
  - intros name Hname. rewrite Hfiles.
    destruct (f.2) as [body|why]; [|reflexivity].
    apply lookup_put_if_ne. intros <-. by apply (Hname tok).
  - intros name token body [= <- <-] Hsrc Hw. rewrite Hfiles, Hsrc.
    by apply lookup_put_if_eq.
Qed.

(** A loop of steps that leave a file alone leaves it alone. *)
Lemma documents_leave_alone (w : world) (e : export)
  (ds : list (string * (text * source))) (name : text) (st : Notion.converter) :
  (forall d token, d ∈ ds -> Notion.page_mapping st !! d.2.1 <> Some (name, token)) ->
  exists st',
    for_each ds (fun d => Notion.convert_one w e d.1 d.2) st = (Val tt, st') /\
    Notion.page_mapping st' = Notion.page_mapping st /\
    Notion.output_files st' !! name = Notion.output_files st !! name.
Proof.
  revert st. induction ds as [|d ds IH]; intros st Hds.
  - by exists st.
  - rewrite for_each_cons.
    destruct (convert_one_effect w e d.1 d.2 st) as (s1 & -> & Hreg & Hout & _).
    destruct (IH s1) as (st' & -> & Hreg' & Hfiles').
    { intros d' token Hd'. rewrite Hreg. apply Hds. by right. }
    exists st'. split; [reflexivity|]. split; [congruence|].
    rewrite Hfiles'. apply Hout. intros token. apply Hds. left.
Qed.

Lemma documents_keep_registry (w : world) (e : export)
  (ds : list (string * (text * source))) (st : Notion.converter) :
  exists st',
    for_each ds (fun d => Notion.convert_one w e d.1 d.2) st = (Val tt, st') /\
    Notion.page_mapping st' = Notion.page_mapping st.
Proof.
  revert st. induction ds as [|d ds IH]; intros st.
  - by exists st.
  - rewrite for_each_cons.
    destruct (convert_one_effect w e d.1 d.2 st) as (s1 & -> & Hreg & _).
    destruct (IH s1) as (st' & -> & Hreg').
    exists st'. split; [reflexivity|congruence].
Qed.

(** A sequence that returns has run both its parts. *)
Lemma bind_val_inv {S A B} (m : M S A) (k : A -> M S B) (s s' : S) (b : B) :
  (m ≫= k) s = (Val b, s') ->
  exists a s1, m s = (Val a, s1) /\ k a s1 = (Val b, s').
Proof.
  rewrite run_bind. destruct (m s) as [[a|err] s1]; [|discriminate].
  intros H. by exists a, s1.
Qed.

(** ** The run of the tabular converter *)

Lemma steady_refl (a : TeamRun.converter) : steady a a.
Proof. by repeat split. Qed.

Lemma steady_trans (a b c : TeamRun.converter) :
  steady a b -> steady b c -> steady a c.
Proof.
  intros (A1 & A2 & A3 & A4 & A5 & A6 & A7 & A8)
         (B1 & B2 & B3 & B4 & B5 & B6 & B7 & B8).
  repeat split; congruence.
Qed.

Lemma unwritten_refl (a : TeamRun.converter) : unwritten a a.
Proof. by split. Qed.

Lemma unwritten_trans (a b c : TeamRun.converter) :
  unwritten a b -> unwritten b c -> unwritten a c.
Proof. intros [A1 A2] [B1 B2]. split; congruence. Qed.

Lemma team_log_run (message : text) (s : TeamRun.converter) :
  TeamRun.log message s
  = (Val tt, TeamRun.set_core (Team.append_log message (TeamRun.core s)) s).
Proof. reflexivity. Qed.

Lemma write_file_run (w : world) (path content : text) (s : TeamRun.converter) :
  TeamRun.write_file w path content s
  = match write_error w path with
    | Some why =>
      (Val (Some why),
       match write_progress w path with
       | Some n => TeamRun.put_file path (take n content) s
       | None => s
       end)
    | None => (Val None, TeamRun.put_file path content s)
    end.
Proof.
  unfold TeamRun.write_file.
  destruct (write_error w path); [|reflexivity].
  rewrite run_bind. by destruct (write_progress w path).
Qed.

(** Methods that only log, register assets, write files or the report keep
    every relation that these four updates keep. *)
Section Keeps.

Variable R : TeamRun.converter -> TeamRun.converter -> Prop.
Hypothesis R_refl : forall a, R a a.
Hypothesis R_trans : forall a b c, R a b -> R b c -> R a c.
Hypothesis R_log :
  forall message s,
    R s (TeamRun.set_core (Team.append_log message (TeamRun.core s)) s).
Hypothesis R_asset : forall k v s, R s (TeamRun.set_asset_mapping k v s).

Lemma keeps_log (message : text) : keeps R (TeamRun.log message).
Proof. intros s. eexists. split; [apply team_log_run|apply R_log]. Qed.

Lemma keeps_ret : keeps R (mret tt).
Proof. intros s. exists s. split; [reflexivity|apply R_refl]. Qed.

Lemma keeps_bind (m : M TeamRun.converter unit)
  (k : unit -> M TeamRun.converter unit) :
  keeps R m -> (forall x, keeps R (k x)) -> keeps R (m ≫= k).
Proof.
  intros Hm Hk s. destruct (Hm s) as (s1 & E1 & H1).
  destruct (Hk tt s1) as (s2 & E2 & H2).
  exists s2. rewrite run_bind, E1. split; [exact E2|].
  by apply (R_trans _ s1).
Qed.

Lemma keeps_get (k : TeamRun.converter -> M TeamRun.converter unit) :
  (forall self, keeps R (k self)) -> keeps R (get ≫= k).
Proof. intros Hk s. rewrite run_bind. cbn [get]. apply Hk. Qed.

Lemma keeps_for_each {A} (xs : list A) (body : A -> M TeamRun.converter unit) :
  (forall x, keeps R (body x)) -> keeps R (for_each xs body).
Proof.
  intros Hbody. induction xs as [|x xs IH]; [apply keeps_ret|].
  cbn [for_each]. apply keeps_bind; [apply Hbody|intros _; exact IH].
Qed.

Lemma keeps_modify (f : TeamRun.converter -> TeamRun.converter) :
  (forall s, R s (f s)) -> keeps R (modify f).
Proof. intros Hf s. exists (f s). by split. Qed.

Lemma keeps_process_assets (w : world) (e : export)
  (mkdir_error : option text) (copy_error : text -> option text) :
  keeps R (TeamRun.process_assets w e mkdir_error copy_error).
Proof.
  unfold TeamRun.process_assets.
  destruct (assets e) as [files|]; [|apply keeps_log].
  apply keeps_get. intros self.
  repeat (apply keeps_bind; [apply keeps_log|intros _]).
  destruct mkdir_error as [why|]; [apply keeps_log|].
  apply keeps_bind; [apply keeps_log|intros _].
  apply keeps_for_each. intros rel.
  apply keeps_bind; [apply keeps_log|intros _].
  destruct (copy_error rel) as [why|]; [apply keeps_log|].
  apply keeps_bind; [|intros _; apply keeps_log].
  apply keeps_modify. intros s. apply R_asset.
Qed.

Lemma keeps_create_zip_archive (w : world) :
  keeps R (TeamRun.create_zip_archive w).
Proof.
  unfold TeamRun.create_zip_archive.
  apply keeps_bind; [apply keeps_log|intros _].
  apply keeps_get. intros self.
  destruct (zip_error w); apply keeps_log.
Qed.

Lemma read_contents_file_keeps (e : export) (s : TeamRun.converter) :
  exists content s',
    TeamRun.read_contents_file e s = (Val content, s') /\ R s s'.
Proof.
  unfold TeamRun.read_contents_file.
  destruct (find _ (pages e)) as [[stem [content|why]]|].
  - rewrite run_bind. cbn [get]. eexists _, s. split; [reflexivity|apply R_refl].
  - rewrite run_bind, team_log_run. eexists _, _. split; [reflexivity|].
    apply R_log.
  - eexists _, s. split; [reflexivity|apply R_refl].
Qed.

Hypothesis R_report : forall r s, R s (TeamRun.put_report r s).

Lemma keeps_create_conversion_report (w : world) :
  keeps R (TeamRun.create_conversion_report w).
Proof.
  unfold TeamRun.create_conversion_report.
  apply keeps_get. intros self. cbv zeta.
  destruct (write_error w TeamRun.report_name) as [why|]; [apply keeps_log|].
  apply keeps_bind; [|intros _; apply keeps_log].
  apply keeps_modify. intros s. apply R_report.
Qed.

Hypothesis R_file : forall path content s, R s (TeamRun.put_file path content s).

(** A write followed by reactions to its two outcomes. *)
Lemma keeps_write (w : world) (path content : text)
  (k : option text -> M TeamRun.converter unit) :
  (forall failure, keeps R (k failure)) ->
  keeps R (TeamRun.write_file w path content ≫= k).
Proof.
  intros Hk s. rewrite run_bind, write_file_run.
  destruct (write_error w path) as [why|].
  - destruct (write_progress w path) as [n|]; [|apply Hk].
    destruct (Hk (Some why) (TeamRun.put_file path (take n content) s))
      as (s' & E & H).
    exists s'. split; [exact E|].
    apply (R_trans _ (TeamRun.put_file path (take n content) s));
      [apply R_file|exact H].
  - destruct (Hk None (TeamRun.put_file path content s)) as (s' & E & H).
    exists s'. split; [exact E|].
    apply (R_trans _ (TeamRun.put_file path content s)); [apply R_file|exact H].
Qed.

Lemma keeps_create_database_csv (w : world)
  (csv_text : list text -> list Team.entry -> text) :
  keeps R (TeamRun.create_database_csv w csv_text).
Proof.
  unfold TeamRun.create_database_csv.
  apply keeps_bind; [apply keeps_log|intros _].
  apply keeps_get. intros self.
  apply keeps_write. intros [why|]; apply keeps_log.
Qed.

Lemma keeps_create_main_page (w : world) (e : export) (now : nat -> text) :
  keeps R (TeamRun.create_main_page w e now).
Proof.
  unfold TeamRun.create_main_page.
  apply keeps_bind; [apply keeps_log|intros _].
  intros s. rewrite run_bind.
  destruct (read_contents_file_keeps e s) as (content & s1 & -> & H1).
  assert (Hrest : keeps R
            (self ← get;
             failure ← TeamRun.write_file w (TeamRun.main_page_name self ++ u ".md")
                         (TeamRun.main_content self content
                            (quote (u "/") (TeamRun.database_name self)) now);
             match failure with
             | Some why => TeamRun.log (u "创建主页面失败: " ++ why)
             | None => TeamRun.log (u "主页面创建完成")
             end)).
  { apply keeps_get. intros self.
    apply keeps_write. intros [why|]; apply keeps_log. }
  destruct (Hrest s1) as (s2 & E2 & H2).
  exists s2. split; [exact E2|]. by apply (R_trans _ s1).
Qed.

Lemma keeps_write_csv (w : world)
  (csv_text : list text -> list Team.entry -> text) (filename : text)
  (headers : list text) (entries : list Team.entry) :
  keeps R (TeamRun.write_csv w csv_text filename headers entries).
Proof.
  unfold TeamRun.write_csv. apply keeps_get. intros self.
  apply keeps_write. intros [why|]; [apply keeps_log|apply keeps_ret].
Qed.

Lemma keeps_create_view_csvs (w : world)
  (csv_text : list text -> list Team.entry -> text) :
  keeps R (TeamRun.create_view_csvs w csv_text).
Proof.
  unfold TeamRun.create_view_csvs.
  apply keeps_bind; [apply keeps_log|intros _].
  apply keeps_get. intros self. cbv zeta.
  repeat (apply keeps_bind; [apply keeps_write_csv|intros _]).
  apply keeps_log.
Qed.

End Keeps.

Lemma steady_log (message : text) (s : TeamRun.converter) :
  steady s (TeamRun.set_core (Team.append_log message (TeamRun.core s)) s).
Proof. by repeat split. Qed.

Lemma steady_asset (k v : text) (s : TeamRun.converter) :
  steady s (TeamRun.set_asset_mapping k v s).
Proof. by repeat split. Qed.

Lemma steady_report (r : TeamRun.report) (s : TeamRun.converter) :
  steady s (TeamRun.put_report r s).
Proof. by repeat split. Qed.

Lemma steady_file (path content : text) (s : TeamRun.converter) :
  steady s (TeamRun.put_file path content s).
Proof. by repeat split. Qed.

Lemma unwritten_log (message : text) (s : TeamRun.converter) :
  unwritten s (TeamRun.set_core (Team.append_log message (TeamRun.core s)) s).
Proof. by split. Qed.

Lemma unwritten_asset (k v : text) (s : TeamRun.converter) :
  unwritten s (TeamRun.set_asset_mapping k v s).
Proof. by split. Qed.

(** A step that keeps a relation, as an equation of its run. *)
Lemma keeps_run (R : TeamRun.converter -> TeamRun.converter -> Prop)
  (m : M TeamRun.converter unit) (s : TeamRun.converter) :
  keeps R m -> m s = (Val tt, (m s).2) /\ R s (m s).2.
Proof. intros H. destruct (H s) as (s' & E & HR). rewrite E. by split. Qed.

Lemma bind_exc_inv {S A B} (m : M S A) (k : A -> M S B) (s s' : S) (err : exn) :
  (m ≫= k) s = (Exc err, s') ->
  m s = (Exc err, s') \/
  exists a s1, m s = (Val a, s1) /\ k a s1 = (Exc err, s').
Proof.
  rewrite run_bind. destruct (m s) as [[a|err'] s1] eqn:E.
  - intros H. right. by exists a, s1.
  - intros H. left. by inversion H.
Qed.

Lemma intact_refl (a : TeamRun.converter) : intact a a.
Proof. split; [apply steady_refl|apply unwritten_refl]. Qed.

Lemma intact_trans (a b c : TeamRun.converter) :
  intact a b -> intact b c -> intact a c.
Proof.
  intros [A1 A2] [B1 B2].
  split; [by apply (steady_trans _ b)|by apply (unwritten_trans _ b)].
Qed.

Lemma intact_log (message : text) (s : TeamRun.converter) :
  intact s (TeamRun.set_core (Team.append_log message (TeamRun.core s)) s).
Proof. split; [apply steady_log|apply unwritten_log]. Qed.

Lemma intact_asset (k v : text) (s : TeamRun.converter) :
  intact s (TeamRun.set_asset_mapping k v s).
Proof. split; [apply steady_asset|apply unwritten_asset]. Qed.

Lemma same_files_refl (a : TeamRun.converter) : same_files a a.
Proof. split; [apply steady_refl|reflexivity]. Qed.

Lemma same_files_trans (a b c : TeamRun.converter) :
  same_files a b -> same_files b c -> same_files a c.
Proof.
  intros [A1 A2] [B1 B2].
  split; [by apply (steady_trans _ b)|congruence].
Qed.

Lemma same_files_log (message : text) (s : TeamRun.converter) :
  same_files s (TeamRun.set_core (Team.append_log message (TeamRun.core s)) s).
Proof. split; [apply steady_log|reflexivity]. Qed.

Lemma same_files_asset (k v : text) (s : TeamRun.converter) :
  same_files s (TeamRun.set_asset_mapping k v s).
Proof. split; [apply steady_asset|reflexivity]. Qed.

Lemma same_files_report (r : TeamRun.report) (s : TeamRun.converter) :
  same_files s (TeamRun.put_report r s).
Proof. split; [apply steady_report|reflexivity]. Qed.

Lemma intact_same_files (a b : TeamRun.converter) : intact a b -> same_files a b.
Proof. intros [H1 [H2 _]]. by split. Qed.

Create HintDb frame.

#[local] Hint Resolve steady_refl steady_trans steady_log steady_asset
  steady_report steady_file intact_refl intact_trans intact_log intact_asset
  same_files_refl same_files_trans same_files_log same_files_asset
  same_files_report : frame.

(** The steps of [convert] before and after the scan. *)
Lemma process_assets_intact (w : world) (e : export)
  (mkdir_error : option text) (copy_error : text -> option text) :
  keeps intact (TeamRun.process_assets w e mkdir_error copy_error).
Proof. apply keeps_process_assets; eauto with frame. Qed.

Lemma log_intact (message : text) : keeps intact (TeamRun.log message).
Proof. apply keeps_log; eauto with frame. Qed.

Lemma create_database_csv_steady (w : world)
  (csv_text : list text -> list Team.entry -> text) :
  keeps steady (TeamRun.create_database_csv w csv_text).
Proof. apply keeps_create_database_csv; eauto with frame. Qed.

Lemma create_main_page_steady (w : world) (e : export) (now : nat -> text) :
  keeps steady (TeamRun.create_main_page w e now).
Proof. apply keeps_create_main_page; eauto with frame. Qed.

Lemma create_view_csvs_steady (w : world)
  (csv_text : list text -> list Team.entry -> text) :
  keeps steady (TeamRun.create_view_csvs w csv_text).
Proof. apply keeps_create_view_csvs; eauto with frame. Qed.

Lemma create_conversion_report_same_files (w : world) :
  keeps same_files (TeamRun.create_conversion_report w).
Proof. apply keeps_create_conversion_report; eauto with frame. Qed.

Lemma create_zip_archive_same_files (w : world) :
  keeps same_files (TeamRun.create_zip_archive w).
Proof. apply keeps_create_zip_archive; eauto with frame. Qed.

Lemma log_same_files (message : text) : keeps same_files (TeamRun.log message).
Proof. apply keeps_log; eauto with frame. Qed.

Lemma keeps_weaken (R R' : TeamRun.converter -> TeamRun.converter -> Prop)
  (m : M TeamRun.converter unit) :
  (forall a b, R a b -> R' a b) -> keeps R m -> keeps R' m.
Proof.
  intros HR Hm s. destruct (Hm s) as (s' & E & H). exists s'. split; auto.
Qed.

(** The scan runs on the attributes of [Team] and leaves the others. *)
Lemma scan_run (w : world) (e : export) (logseq_parts : list text)
  (s : TeamRun.converter) :
  TeamRun.scan_and_convert_pages w e logseq_parts s
  = (outcome (Team.scan_and_convert_pages w e logseq_parts (TeamRun.core s)),
     TeamRun.set_core
       (final (Team.scan_and_convert_pages w e logseq_parts (TeamRun.core s))) s).
Proof.
  unfold TeamRun.scan_and_convert_pages, TeamRun.lift, outcome, final.
  by destruct (Team.scan_and_convert_pages w e logseq_parts (TeamRun.core s)).
Qed.

(** *** The files that the steps write *)

Lemma write_all_keeps (w : world) (content : text) (paths : list text)
  (files : gmap text text) (q : text) :
  write_error w q = None ->
  files !! q = Some content ->
  write_all w content paths files !! q = Some content.
Proof.
  intros Hw. revert files.
  induction paths as [|p paths IH]; intros files Hq; [exact Hq|].
  unfold write_all. cbn [foldl]. apply IH. by apply lookup_put_if_same.
Qed.

Lemma write_all_written (w : world) (content : text) (paths : list text)
  (files : gmap text text) (q : text) :
  q ∈ paths -> write_error w q = None ->
  write_all w content paths files !! q = Some content.
Proof.
  revert files. induction paths as [|p paths IH]; intros files Hin Hw.
  - by apply elem_of_nil in Hin.
  - unfold write_all. cbn [foldl]. apply elem_of_cons in Hin as [->|Hin].
    + apply write_all_keeps; [exact Hw|]. by apply lookup_put_if_eq.
    + by apply IH.
Qed.

Lemma write_csv_files (w : world)
  (csv_text : list text -> list Team.entry -> text) (filename : text)
  (headers : list text) (entries : list Team.entry) (s : TeamRun.converter) :
  exists s',
    TeamRun.write_csv w csv_text filename headers entries s = (Val tt, s') /\
    steady s s' /\
    TeamRun.output_files s'
    = put_if w (TeamRun.main_page_name s ++ u "/" ++ filename)
        (csv_text headers entries) (TeamRun.output_files s).
Proof.
  unfold TeamRun.write_csv, put_if.
  rewrite run_bind. cbn [get]. rewrite run_bind, write_file_run.
  destruct (write_error w _) as [why|].
  - rewrite team_log_run. eexists. split; [reflexivity|].
    destruct (write_progress w _) as [n|]; split; try reflexivity.
    + apply (steady_trans _ (TeamRun.put_file
               (TeamRun.main_page_name s ++ u "/" ++ filename)
               (take n (csv_text headers entries)) s));
        [apply steady_file|apply steady_log].
    + apply steady_log.
  - eexists. split; [reflexivity|]. split; [apply steady_file|reflexivity].
Qed.

Lemma create_database_csv_files (w : world)
  (csv_text : list text -> list Team.entry -> text) (s : TeamRun.converter) :
  exists s',
    TeamRun.create_database_csv w csv_text s = (Val tt, s') /\
    steady s s' /\
    TeamRun.output_files s'
    = put_if w (table_path s (u ".csv"))
        (csv_text TeamRun.headers (Team.database_entries (TeamRun.core s)))
        (TeamRun.output_files s).
Proof.
  unfold TeamRun.create_database_csv, put_if, table_path.
  rewrite run_bind, team_log_run. rewrite run_bind. cbn [get].
  rewrite run_bind, write_file_run.
  cbn [TeamRun.main_page_name TeamRun.database_name TeamRun.set_core
       TeamRun.core Team.database_entries Team.append_log].
  destruct (write_error w _) as [why|].
  - rewrite team_log_run. eexists. split; [reflexivity|].
    destruct (write_progress w _) as [n|]; (split; [|reflexivity]);
      by repeat split.
  - rewrite team_log_run. eexists. split; [reflexivity|].
    split; [|reflexivity]. by repeat split.
Qed.

Lemma create_main_page_files (w : world) (e : export) (now : nat -> text)
  (s : TeamRun.converter) :
  exists s' content,
    TeamRun.create_main_page w e now s = (Val tt, s') /\
    steady s s' /\
    TeamRun.output_files s'
    = put_if w (TeamRun.main_page_name s ++ u ".md") content
        (TeamRun.output_files s).
Proof.
  unfold TeamRun.create_main_page, put_if.
  rewrite run_bind, team_log_run. rewrite run_bind.
  destruct (read_contents_file_keeps same_files same_files_refl same_files_log e
              (TeamRun.set_core
                 (Team.append_log (u "创建主页面...") (TeamRun.core s)) s))
    as (content & s1 & -> & [H1 F1]).
  rewrite run_bind. cbn [get]. rewrite run_bind, write_file_run.
  assert (Hs : steady s s1).
  { apply (steady_trans _ (TeamRun.set_core
             (Team.append_log (u "创建主页面...") (TeamRun.core s)) s));
      [apply steady_log|exact H1]. }
  assert (Hmain : TeamRun.main_page_name s1 = TeamRun.main_page_name s).
  { symmetry. apply Hs. }
  rewrite Hmain. cbn [TeamRun.output_files TeamRun.set_core] in F1.
  destruct (write_error w _) as [why|].
  - rewrite team_log_run. eexists _, _.
    split; [reflexivity|].
    destruct (write_progress w _) as [n|]; split.
    + apply (steady_trans _ s1); [exact Hs|]. by repeat split.
    + cbn [TeamRun.output_files TeamRun.set_core TeamRun.put_file].
      by rewrite F1.
    + apply (steady_trans _ s1); [exact Hs|apply steady_log].
    + cbn [TeamRun.output_files TeamRun.set_core]. by rewrite F1.
  - rewrite team_log_run. eexists _, _.
    split; [reflexivity|]. split.
    + apply (steady_trans _ s1); [exact Hs|]. by repeat split.
    + cbn [TeamRun.output_files TeamRun.set_core TeamRun.put_file].
      by rewrite F1.
Qed.

Lemma create_view_csvs_files (w : world)
  (csv_text : list text -> list Team.entry -> text) (s : TeamRun.converter) :
  exists s',
    TeamRun.create_view_csvs w csv_text s = (Val tt, s') /\
    steady s s' /\
    TeamRun.output_files s'
    = write_all w
        (csv_text TeamRun.headers (Team.database_entries (TeamRun.core s)))
        (map (table_path s) view_suffixes) (TeamRun.output_files s).
Proof.
  unfold TeamRun.create_view_csvs.
  rewrite run_bind, team_log_run. rewrite run_bind. cbn [get]. cbv zeta.
  cbn [TeamRun.main_page_name TeamRun.database_name TeamRun.set_core
       TeamRun.core Team.database_entries Team.append_log].
  set (s0 := TeamRun.set_core _ s).
  assert (H0 : steady s s0) by apply steady_log.
  assert (F0 : TeamRun.output_files s0 = TeamRun.output_files s) by reflexivity.
  set (c := csv_text TeamRun.headers (Team.database_entries (TeamRun.core s))).
  unfold write_all, view_suffixes, table_path. cbn [map foldl].
  rewrite <- F0. clearbody s0.
  assert (Hstep : forall suffix a,
            steady s a ->
            exists b,
              TeamRun.write_csv w csv_text (TeamRun.database_name s ++ suffix)
                TeamRun.headers (Team.database_entries (TeamRun.core s)) a
              = (Val tt, b) /\
              steady s b /\
              TeamRun.output_files b
              = put_if w (TeamRun.main_page_name s ++ u "/" ++
                          TeamRun.database_name s ++ suffix) c
                  (TeamRun.output_files a)).
  { intros suffix a Ha.
    destruct (write_csv_files w csv_text (TeamRun.database_name s ++ suffix)
                TeamRun.headers (Team.database_entries (TeamRun.core s)) a)
      as (b & E & Hb & F).
    exists b. split; [exact E|]. split; [by apply (steady_trans _ a)|].
    rewrite F. f_equal. f_equal. symmetry. apply Ha. }
  destruct (Hstep (u "_today.csv") s0 H0) as (s1 & E1 & H1 & F1).
  destruct (Hstep (u "_global.csv") s1 H1) as (s2 & E2 & H2 & F2).
  destruct (Hstep (u "_projects.csv") s2 H2) as (s3 & E3 & H3 & F3).
  destruct (Hstep (u "_tasks.csv") s3 H3) as (s4 & E4 & H4 & F4).
  destruct (Hstep (u "_meetings.csv") s4 H4) as (s5 & E5 & H5 & F5).
  destruct (Hstep (u "_wiki.csv") s5 H5) as (s6 & E6 & H6 & F6).
  rewrite run_bind, E1, run_bind, E2, run_bind, E3, run_bind, E4,
          run_bind, E5, run_bind, E6, team_log_run.
  eexists. split; [reflexivity|]. split.
  - apply (steady_trans _ s6); [exact H6|apply steady_log].
  - cbn [TeamRun.output_files TeamRun.set_core].
    by rewrite F6, F5, F4, F3, F2, F1.
Qed.

Lemma steady_table_path (a b : TeamRun.converter) (suffix : text) :
  steady a b -> table_path b suffix = table_path a suffix.
Proof.
  intros (_ & _ & _ & _ & _ & _ & Hm & Hd). unfold table_path.
  by rewrite Hm, Hd.
Qed.

(** One logging step of a run; [H] relates the object in which the run
    started to the current one. *)
Ltac log_step lemma trans H :=
  rewrite run_bind;
  match goal with
  | |- context [TeamRun.log ?m ?s] =>
    let s' := fresh "s" in
    let E := fresh "E" in
    let I := fresh "I" in
    destruct (lemma m s) as (s' & E & I); rewrite E; clear E;
    apply (trans _ _ _ H) in I; clear H; rename I into H
  end.

(** [convert], step by step: the object in which the scan starts, and what
    the two outcomes of the scan lead to. *)
Lemma team_convert_run (w : world) (e : export) (logseq_parts : list text)
  (mkdir_error : option text) (copy_error : text -> option text)
  (csv_text : list text -> list Team.entry -> text) (now : nat -> text)
  (self : TeamRun.converter) :
  exists s0,
    intact self s0 /\
    let scanned :=
      Team.scan_and_convert_pages w e logseq_parts (TeamRun.core s0) in
    let a := TeamRun.set_core (final scanned) s0 in
    let table :=
      csv_text TeamRun.headers (Team.database_entries (TeamRun.core a)) in
    match outcome scanned with
    | Exc err =>
      TeamRun.convert w e logseq_parts mkdir_error copy_error csv_text now self
      = (Exc err,
         TeamRun.set_core
           (Team.append_log (team_error_entry err) (TeamRun.core a)) a)
    | Val _ =>
      exists s' content,
        TeamRun.convert w e logseq_parts mkdir_error copy_error csv_text now self
        = (Val tt, s') /\
        steady a s' /\
        last (Team.conversion_log (TeamRun.core s')) = Some TeamRun.rule /\
        TeamRun.output_files s'
        = write_all w table (map (table_path a) view_suffixes)
            (put_if w (TeamRun.main_page_name a ++ u ".md") content
               (put_if w (table_path a (u ".csv")) table
                  (TeamRun.output_files a)))
    end.
Proof.
  unfold TeamRun.convert.
  pose proof (intact_refl self) as Hhead.
  do 4 log_step log_intact intact_trans Hhead. rewrite run_bind. cbn [get].
  do 2 log_step log_intact intact_trans Hhead.
  unfold try_except. rewrite run_bind.
  match goal with
  | |- context [TeamRun.process_assets _ _ _ _ ?s] =>
    destruct (process_assets_intact w e mkdir_error copy_error s)
      as (t0 & -> & I0);
    apply (intact_trans _ _ _ Hhead) in I0
  end.
  exists t0. split; [exact I0|]. cbv zeta.
  rewrite run_bind, scan_run.
  set (scanned := Team.scan_and_convert_pages w e logseq_parts (TeamRun.core t0)).
  set (a := TeamRun.set_core (final scanned) t0).
  destruct (outcome scanned) as [[]|err].
  - rewrite run_bind.
    destruct (create_database_csv_files w csv_text a) as (b1 & -> & H1 & F1).
    rewrite run_bind.
    destruct (create_main_page_files w e now b1) as (b2 & content & -> & H2 & F2).
    rewrite run_bind.
    destruct (create_view_csvs_files w csv_text b2) as (b3 & -> & H3 & F3).
    rewrite run_bind.
    destruct (create_conversion_report_same_files w b3) as (b4 & -> & H4).
    rewrite run_bind.
    destruct (create_zip_archive_same_files w b4) as (b5 & -> & H5).
    pose proof (same_files_trans _ _ _ H4 H5) as Htail.
    do 3 log_step log_same_files same_files_trans Htail.
    rewrite run_bind. cbn [get].
    do 3 log_step log_same_files same_files_trans Htail.
    rewrite team_log_run.
    assert (Hab2 : steady a b2) by (by apply (steady_trans _ b1)).
    destruct Htail as [Ht Ft].
    eexists _, content. split; [reflexivity|]. split; [|split].
    + apply (steady_trans _ b2); [exact Hab2|].
      apply (steady_trans _ b3); [exact H3|].
      eapply steady_trans; [exact Ht|apply steady_log].
    + cbn [TeamRun.core TeamRun.set_core Team.conversion_log Team.append_log].
      apply last_snoc.
    + cbn [TeamRun.output_files TeamRun.set_core].
      rewrite <- Ft, F3, F2, F1.
      assert (Hentries : Team.database_entries (TeamRun.core b2)
                         = Team.database_entries (TeamRun.core a)).
      { symmetry. apply Hab2. }
      assert (Hmain : TeamRun.main_page_name b1 = TeamRun.main_page_name a).
      { symmetry. apply H1. }
      rewrite Hentries, Hmain. f_equal.
      apply map_ext. intros suffix. by apply steady_table_path.
  - rewrite run_bind, team_log_run. unfold team_error_entry, raise.
    reflexivity.
Qed.

(** *** The loop of [process_assets] *)

Lemma team_copy_loop (copy_error : text -> option text)
  (before : text -> text) (failed : text -> text -> text)
  (target after : text -> text) (files : list text) (s : TeamRun.converter) :
  exists s',
    for_each files (fun relative_path =>
      TeamRun.log (before relative_path);;
      match copy_error relative_path with
      | Some why => TeamRun.log (failed relative_path why)
      | None =>
        modify (TeamRun.set_asset_mapping relative_path (target relative_path));;
        TeamRun.log (after relative_path)
      end) s = (Val tt, s') /\
    forall rel,
      TeamRun.asset_mapping s' !! rel
      = if bool_decide (rel ∈ files /\ copy_error rel = None)
        then Some (target rel)
        else TeamRun.asset_mapping s !! rel.
Proof.
  revert s. induction files as [|x files IH]; intros s.
  - exists s. split; [reflexivity|]. intros rel.
    rewrite bool_decide_eq_false_2; [reflexivity|].
    intros [Hin _]. by apply elem_of_nil in Hin.
  - cbn [for_each]. rewrite run_bind, run_bind, team_log_run.
    destruct (copy_error x) as [why|] eqn:Hx.
    + rewrite team_log_run.
      match goal with
      | |- context [for_each files _ ?s1] =>
        destruct (IH s1) as (s' & -> & Hs')
      end.
      exists s'. split; [reflexivity|]. intros rel. rewrite Hs'.
      cbn [TeamRun.asset_mapping TeamRun.set_core].
      destruct (decide (rel ∈ files /\ copy_error rel = None)) as [[Hin Hc]|Hn].
      * rewrite !bool_decide_eq_true_2; [reflexivity| |by split].
        split; [by apply elem_of_cons; right|exact Hc].
      * rewrite !bool_decide_eq_false_2; [reflexivity| |exact Hn].
        intros [Hin Hc]. apply elem_of_cons in Hin as [->|Hin]; [congruence|].
        by apply Hn.
    + rewrite run_bind. unfold modify at 1. rewrite team_log_run.
      match goal with
      | |- context [for_each files _ ?s1] =>
        destruct (IH s1) as (s' & -> & Hs')
      end.
      exists s'. split; [reflexivity|]. intros rel. rewrite Hs'.
      cbn [TeamRun.asset_mapping TeamRun.set_core TeamRun.set_asset_mapping
           TeamRun.core].
      destruct (decide (rel ∈ files /\ copy_error rel = None)) as [[Hin Hc]|Hn].
      * rewrite !bool_decide_eq_true_2; [reflexivity| |by split].
        split; [by apply elem_of_cons; right|exact Hc].
      * rewrite (bool_decide_eq_false_2 _ Hn).
        destruct (decide (rel = x)) as [->|Hne].
        -- rewrite bool_decide_eq_true_2
             by (split; [apply elem_of_cons; by left|exact Hx]).
           apply lookup_insert_eq.
        -- rewrite bool_decide_eq_false_2.
           ++ by apply lookup_insert_ne.
           ++ intros [Hin Hc]. apply elem_of_cons in Hin as [?|Hin]; [done|].
              by apply Hn.
Qed.

Lemma md_not_below (x : text) : u ".md" <> u "/" ++ x.
Proof.
  assert (Hmd : u ".md" = [46; 109; 100]) by (vm_compute; reflexivity).
  assert (Hslash : u "/" = [47]) by (vm_compute; reflexivity).
  rewrite Hmd, Hslash. discriminate.
Qed.

Lemma elem_of_map_1 {A B} (f : A -> B) (l : list A) (x : A) :
  x ∈ l -> f x ∈ map f l.
Proof.
  induction l as [|y l IH]; intros Hin.
  - by apply elem_of_nil in Hin.
  - cbn [map]. apply elem_of_cons. apply elem_of_cons in Hin as [->|Hin].
    + by left.
    + right. by apply IH.
Qed.

(** * Further properties of the code *)

(** ** The syntax conversion *)

(** X1.  [convert_logseq_syntax] is idempotent: converting a text that has
    already been converted changes nothing.  After the seven substitutions
    none of the seven patterns matches anywhere: a task marker has become a
    checkbox, whose opening bracket no task pattern accepts; a property
    line begins with an asterisk; the two placeholders hold neither an
    opening parenthesis nor a brace, and no replacement completes a match
    that was not there before. *)
Theorem syntax_conversion_idempotent (s : text) :
  Notion.convert_logseq_syntax (Notion.convert_logseq_syntax s)
  = Notion.convert_logseq_syntax s.
Proof.
  rewrite (convert_logseq_syntax_stages (Notion.convert_logseq_syntax s)).
  rewrite (quiet_re_sub (task_pattern (u "DONE")))
    by (apply converted_quiet_tasks; repeat constructor).
  rewrite (quiet_re_sub (task_pattern (u "TODO")))
    by (apply converted_quiet_tasks; repeat constructor).
  rewrite (quiet_re_sub (task_pattern (u "LATER")))
    by (apply converted_quiet_tasks; repeat constructor).
  rewrite (quiet_re_sub (task_pattern (u "NOW")))
    by (apply converted_quiet_tasks; repeat constructor).
  rewrite (quiet_re_sub property_pattern) by apply converted_quiet_property.
  rewrite (quiet_re_sub block_ref_pattern) by apply converted_quiet_block_ref.
  rewrite (quiet_re_sub query_pattern) by apply converted_quiet_query.
  reflexivity.
Qed.

(** X2.  A text without hyphen, colon, opening parenthesis and opening
    brace is returned as it is: each of the seven patterns needs one of
    these characters. *)
Theorem syntax_conversion_keeps_plain_text (content : text) :
  lacks content (u "-:({") ->
  Notion.convert_logseq_syntax content = content.
Proof.
  intros H. rewrite convert_logseq_syntax_stages.
  assert (H45 : free_of (N.eqb 45) content)
    by (apply (lacks_free_of _ _ _ H); vm_compute; reflexivity).
  assert (H58 : free_of (N.eqb 58) content)
    by (apply (lacks_free_of _ _ _ H); vm_compute; reflexivity).
  assert (H40 : free_of (N.eqb 40) content)
    by (apply (lacks_free_of _ _ _ H); vm_compute; reflexivity).
  assert (H123 : free_of (N.eqb 123) content)
    by (apply (lacks_free_of _ _ _ H); vm_compute; reflexivity).
  rewrite !(re_sub_without _ _ _ _ (task_needs_hyphen _) H45).
  rewrite (re_sub_without _ _ _ _ property_needs_colon H58).
  rewrite (re_sub_without _ _ _ _ block_ref_needs_parenthesis H40).
  rewrite (re_sub_without _ _ _ _ query_needs_brace H123).
  reflexivity.
Qed.

Lemma syntax_conversion_keeps_plain_text_witness :
  Notion.convert_logseq_syntax (u "Meeting notes, 3 items") = u "Meeting notes, 3 items".
Proof.
  apply syntax_conversion_keeps_plain_text.
  apply lacks_by_computation. vm_compute. reflexivity.
Defined.

(** ** Cross-references *)

(** X3.  On a text without opening square bracket [convert_links] returns
    the text as it is and leaves the object alone: nothing is looked up and
    nothing is logged. *)
Theorem links_keep_unbracketed_text (content : text) (self : Notion.converter) :
  lacks content (u "[") ->
  Notion.convert_links content self = (Val content, self).
Proof.
  intros H.
  assert (H91 : free_of (N.eqb 91) content)
    by (apply (lacks_free_of _ _ _ H); vm_compute; reflexivity).
  unfold Notion.convert_links, re_sub_m.
  rewrite (scan_without re_page_link (N.eqb 91));
    [|apply lit_needs; vm_compute; reflexivity|done].
  rewrite run_bind, render_m_keep, run_ret.
  unfold Notion.convert_image_links.
  rewrite (re_sub_without Notion.re_image (N.eqb 91));
    [done|apply lit_needs; vm_compute; reflexivity|done].
Qed.

Lemma links_keep_unbracketed_text_witness :
  Notion.convert_links (u "no links here") (Notion.init false)
  = (Val (u "no links here"), Notion.init false).
Proof.
  apply links_keep_unbracketed_text.
  apply lacks_by_computation. vm_compute. reflexivity.
Defined.

(** ** File names *)

(** X4.  Whatever the name, [sanitize_filename] returns a text without
    path-hostile character that neither begins nor ends with a dot or a
    space, and that is not longer than the name. *)
Theorem sanitize_filename_clean (s : text) :
  hostile_free (sanitize_filename s) /\
  no_leading_dot_or_space (sanitize_filename s) /\
  no_trailing_dot_or_space (sanitize_filename s) /\
  (length (sanitize_filename s) <= length s)%nat.
Proof.
  split; [apply sanitize_hostile_free|].
  split; [apply sanitize_no_leading|].
  split; [apply sanitize_no_trailing|].
  rewrite sanitize_filename_eq. unfold strip, strip_by.
  destruct (rstrip_by_prefix (one_of (u ". "))
              (lstrip_by (one_of (u ". ")) (map replace_hostile s))) as [k Hk].
  destruct (lstrip_by_suffix (one_of (u ". ")) (map replace_hostile s)) as [k' Hk'].
  apply (f_equal length) in Hk, Hk'.
  rewrite length_app in Hk, Hk'. rewrite length_map in Hk'. lia.
Qed.

(** X5.  [sanitize_filename] is idempotent. *)
Theorem sanitize_filename_idempotent (s : text) :
  sanitize_filename (sanitize_filename s) = sanitize_filename s.
Proof.
  rewrite (sanitize_filename_eq (sanitize_filename s)).
  rewrite replace_hostile_fixed by apply sanitize_hostile_free.
  rewrite sanitize_filename_eq. apply strip_by_idempotent.
Qed.

(** X6.  The sanitised name is empty exactly when the name consists of
    dots and spaces only (the empty name included); the file is then
    called [.md]. *)
Theorem sanitize_filename_empty (s : text) :
  sanitize_filename s = [] <-> Forall (fun c => c = 46 \/ c = 32) s.
Proof.
  split.
  - intros E. apply Forall_forall. intros c Hc.
    destruct (decide (c = 46)) as [|H46]; [by left|].
    destruct (decide (c = 32)) as [|H32]; [by right|].
    destruct (sanitize_solid s); [by exists c|done].
  - intros H. rewrite sanitize_filename_eq.
    assert (Hp : forallb (one_of (u ". ")) (map replace_hostile s) = true).
    { induction H as [|c s Hc _ IH]; [done|].
      cbn [map forallb]. rewrite IH. by destruct Hc as [-> | ->]. }
    unfold strip, strip_by. by rewrite (lstrip_by_all _ _ Hp).
Qed.

(** ** Summaries *)

(** X7.  The summary that [extract_summary] returns has at most 153
    characters (150 and the ellipsis), holds no white space other than
    plain spaces, so that it fits on one line, and neither begins nor ends
    with white space. *)
Theorem summary_short_inline_trimmed (content : text) :
  (length (Team.extract_summary content) <= 153)%nat /\
  Forall inline_char (Team.extract_summary content) /\
  trimmed (Team.extract_summary content).
Proof.
  unfold Team.extract_summary. cbv zeta.
  match goal with |- context [words ?x] => generalize x end.
  intros x. pose proof (collapsed_inline x) as Hin.
  set (y := join (u " ") (words x)) in *.
  assert (Hdots : u "..." = [46; 46; 46]) by (vm_compute; reflexivity).
  set (z := if bool_decide (150 < length y)%nat
            then take 150 y ++ u "..." else y).
  assert (Hlen : (length z <= 153)%nat).
  { subst z. case_bool_decide.
    - rewrite length_app, length_take, Hdots. cbn [length]. lia.
    - lia. }
  assert (Hz : Forall inline_char z).
  { subst z. case_bool_decide; [|done].
    apply Forall_app. split; [by apply Forall_take|].
    rewrite Hdots. repeat (constructor; [by left|]). constructor. }
  split; [|split; [|split]].
  - pose proof (strip_by_shorter is_space z). unfold strip_space. lia.
  - by apply strip_by_Forall.
  - intros c t. apply strip_by_head.
  - intros c t. apply strip_by_last.
Qed.

(** ** The tabular converter, file by file *)

(** X8.  The tabular converter never registers the page [contents]:
    whenever [scan_and_convert_pages] stops, with or without an exception,
    the registry has no entry under that key unless it had one before, so
    that a reference to [contents] is never resolved. *)
Theorem contents_never_registered (w : world) (e : export)
  (logseq_parts : list text) (st : Team.converter) (r : res unit)
  (st' : Team.converter) :
  Team.page_mapping st !! u "contents" = None ->
  Team.scan_and_convert_pages w e logseq_parts st = (r, st') ->
  Team.page_mapping st' !! u "contents" = None.
Proof.
  intros H0.
  apply (team_scan_always
           (fun s => Team.page_mapping s !! u "contents" = None)); [done| |done].
  intros dir f s q s' _ Hs Hstep. team_step_cases Hstep;
    cbn [Team.page_mapping Team.append_log Team.put_file Team.append_entry
         Team.set_page_mapping team_registered];
    rewrite ?team_truncated_registry;
    cbn [Team.page_mapping Team.append_log Team.put_file Team.append_entry
         Team.set_page_mapping team_registered]; try done;
    try (unfold team_drawn; by destruct (Team.with_uuid s)).
  - rewrite lookup_insert_ne by done.
    unfold team_drawn; by destruct (Team.with_uuid s).
  - rewrite lookup_insert_ne by done.
    unfold team_drawn; by destruct (Team.with_uuid s).
Qed.

Lemma contents_never_registered_witness :
  Team.page_mapping
    (final (Team.scan_and_convert_pages calm_world with_contents notes_parts
              (Team.init false))) !! u "contents" = None.
Proof.
  apply (contents_never_registered calm_world with_contents notes_parts
           (Team.init false)
           (outcome (Team.scan_and_convert_pages calm_world with_contents
                       notes_parts (Team.init false)))).
  - vm_compute. reflexivity.
  - apply surjective_pairing.
Defined.

(** X9.  Registry and database agree whenever the scan of the tabular
    converter stops: the file of every registered document is named after
    the name column of a database row (sanitised, with the document's token
    when identifiers are enabled). *)
Theorem registry_names_database_rows (w : world) (e : export)
  (logseq_parts : list text) (flag : bool) (r : res unit)
  (st' : Team.converter) :
  Team.scan_and_convert_pages w e logseq_parts (Team.init flag) = (r, st') ->
  registry_in_database st'.
Proof.
  apply (team_scan_always registry_in_database).
  - intros st msg H. exact H.
  - intros dir f s q s' _ Hs Hstep key filename token Hlook.
    destruct (team_step_effect _ _ _ _ _ _ _ _ Hstep)
      as [Hflag [[Hreg Hrows]|(display & start & body & _ & _ & _ & _ & Hreg & Hrows)]].
    + rewrite Hreg in Hlook. destruct (Hs key filename token Hlook) as (en & Hen & ->).
      exists en. rewrite Hrows. split; [done|].
      by apply create_notion_filename_flag.
    + rewrite Hreg in Hlook. rewrite Hrows.
      destruct (decide (f.1 = key)) as [<-|Hne].
      * rewrite lookup_insert_eq in Hlook. injection Hlook as <- <-.
        eexists. split; [apply elem_of_app; right; left|].
        by apply create_notion_filename_flag.
      * rewrite lookup_insert_ne in Hlook by done.
        destruct (Hs key filename token Hlook) as (en & Hen & ->).
        exists en. split; [apply elem_of_app; by left|].
        by apply create_notion_filename_flag.
  - intros key filename token Hlook. cbn in Hlook.
    by rewrite lookup_empty in Hlook.
Qed.

Lemma registry_names_database_rows_witness :
  registry_in_database
    (final (Team.scan_and_convert_pages calm_world forward_reference notes_parts
              (Team.init false))).
Proof.
  apply (registry_names_database_rows calm_world forward_reference notes_parts
           false
           (outcome (Team.scan_and_convert_pages calm_world forward_reference
                       notes_parts (Team.init false)))).
  apply surjective_pairing.
Defined.

(** X10.  Whenever the scan of the tabular converter stops, every database
    row is of type journal or article, has the status [Not started], the
    creator [LogSeq导入] and empty end date, members, tags and progress;
    hence the three counts that [convert], the main page and the report
    give add up: the number of rows is the number of journal rows plus the
    number of article rows. *)
Theorem database_rows_typed (w : world) (e : export)
  (logseq_parts : list text) (flag : bool) (r : res unit)
  (st' : Team.converter) :
  Team.scan_and_convert_pages w e logseq_parts (Team.init flag) = (r, st') ->
  rows_well_formed st' /\
  length (Team.database_entries st')
  = (count_type Team.journal_type (Team.database_entries st')
     + count_type Team.article_type (Team.database_entries st'))%nat.
Proof.
  apply (team_scan_always
           (fun s => rows_well_formed s /\
                     length (Team.database_entries s)
                     = (count_type Team.journal_type (Team.database_entries s)
                        + count_type Team.article_type (Team.database_entries s))%nat)).
  - intros st msg H. exact H.
  - intros dir f s q s' _ [Hs Hn] Hstep.
    destruct (team_step_effect _ _ _ _ _ _ _ _ Hstep)
      as [Hflag [[Hreg Hrows]|(display & start & body & _ & _ & _ & _ & Hreg & Hrows)]].
    + unfold rows_well_formed. by rewrite Hrows.
    + unfold rows_well_formed. rewrite Hrows.
      pose proof (determine_page_type_cases
                    (logseq_parts ++ [u dir; Team.md_name f.1]) f.1) as Ht.
      fold (team_page_type logseq_parts dir f.1) in Ht.
      split.
      * apply Forall_app. split; [exact Hs|].
        constructor; [|constructor]. cbn. by repeat split.
      * rewrite !count_type_app, length_app, Hn, !count_type_single.
        cbn [length Team.e_page_type team_entry].
        pose proof journal_is_not_article as Hne.
        destruct Ht as [Ht|Ht]; rewrite Ht.
        -- rewrite decide_True by done. rewrite decide_False by done. lia.
        -- rewrite decide_False by done. rewrite decide_True by done. lia.
  - split; [constructor|reflexivity].
Qed.

Lemma database_rows_typed_witness :
  let st' := final (Team.scan_and_convert_pages calm_world same_stem notes_parts
                      (Team.init false)) in
  rows_well_formed st' /\
  length (Team.database_entries st')
  = (count_type Team.journal_type (Team.database_entries st')
     + count_type Team.article_type (Team.database_entries st'))%nat.
Proof.
  apply (database_rows_typed calm_world same_stem notes_parts false
           (outcome (Team.scan_and_convert_pages calm_world same_stem
                       notes_parts (Team.init false)))).
  apply surjective_pairing.
Defined.

(** X11.  The registry of the tabular converter is sound: whenever the
    scan stops, every key of the registry is the stem of a file of the
    export that could be read, and is not [contents].  A file that cannot
    be read is never registered. *)
Theorem registered_keys_are_readable (w : world) (e : export)
  (logseq_parts : list text) (flag : bool) (r : res unit)
  (st' : Team.converter) (key : text) :
  Team.scan_and_convert_pages w e logseq_parts (Team.init flag) = (r, st') ->
  is_Some (Team.page_mapping st' !! key) ->
  key <> u "contents" /\
  exists body, (key, Content body) ∈ pages e ++ journals e.
Proof.
  intros Hrun. revert key.
  refine (team_scan_always
            (fun s => forall key, is_Some (Team.page_mapping s !! key) ->
                        key <> u "contents" /\
                        exists body, (key, Content body) ∈ pages e ++ journals e)
            w e logseq_parts _ _ _ _ _ _ Hrun).
  - intros st msg H. exact H.
  - intros dir [k src] s q s' Hin Hs Hstep key Hkey.
    destruct (team_step_effect _ _ _ _ _ _ _ _ Hstep)
      as [_ [[Hreg _]|(display & start & body & _ & Hc & Hsrc & _ & Hreg & _)]].
    + rewrite Hreg in Hkey. by apply Hs.
    + cbn [fst snd] in *. subst src. rewrite Hreg in Hkey.
      destruct (decide (k = key)) as [<-|Hne].
      * split; [done|]. by exists body.
      * rewrite lookup_insert_ne in Hkey by done. by apply Hs.
  - intros key Hkey. cbn in Hkey. rewrite lookup_empty in Hkey.
    by destruct Hkey.
Qed.

Lemma registered_keys_are_readable_witness :
  u "A" <> u "contents" /\
  exists body, (u "A", Content body) ∈ pages with_contents ++ journals with_contents.
Proof.
  apply (registered_keys_are_readable calm_world with_contents notes_parts false
           (outcome (Team.scan_and_convert_pages calm_world with_contents
                       notes_parts (Team.init false)))
           (final (Team.scan_and_convert_pages calm_world with_contents
                     notes_parts (Team.init false)))).
  - apply surjective_pairing.
  - vm_compute. eexists. reflexivity.
Defined.

(** X12.  A page file that cannot be written does not stop the tabular
    converter, and the document is listed all the same: the call of
    [process_page_file] returns, the document is in the registry under the
    name of that file, its row is the last of the database, and the log
    holds the failure followed by the entry that reports the page as
    converted.  Of the page there is nothing in the output when the file
    could not be opened; when the write failed later, the file holds the
    characters of the page written until then, and every other file is as
    it was. *)
Theorem unwritable_page_still_listed (w : world) (e : export)
  (logseq_parts : list text) (dir : string) (key body : text)
  (st : Team.converter) (display start why : text) :
  key <> u "contents" ->
  team_display (team_page_type logseq_parts dir key) key = Val (display, start) ->
  write_error w (Team.create_notion_filename st display (team_token w st))
  = Some why ->
  let filename := Team.create_notion_filename st display (team_token w st) in
  let run := Team.process_page_file w e logseq_parts dir (key, Content body) st in
  let page :=
    metadata_header display start (team_page_type logseq_parts dir key)
      (Team.extract_summary body)
    ++ Team.convert_links (final run) body in
  outcome run = Val tt /\
  Team.page_mapping (final run) !! key = Some (filename, team_token w st) /\
  last (Team.database_entries (final run))
  = Some (team_entry display start (team_page_type logseq_parts dir key)
            (Team.extract_summary body)) /\
  Team.database_files (final run)
  = match write_progress w filename with
    | None => Team.database_files st
    | Some n => <[filename := take n page]> (Team.database_files st)
    end /\
  Team.conversion_log (final run)
  = Team.conversion_log st ++
    [team_write_failure_entry filename why;
     team_done_entry key display (team_page_type logseq_parts dir key)].
Proof.
  intros Hc Hd Hw. cbv zeta. rewrite process_page_file_run.
  unfold team_step. cbn [fst snd].
  rewrite bool_decide_eq_false_2 by done. rewrite Hd, Hw.
  unfold outcome, final, team_truncated, team_page_content. cbn [fst snd].
  rewrite page_header_spelled.
  destruct (write_progress w _) as [n|];
    cbn [Team.page_mapping Team.database_entries Team.database_files
         Team.conversion_log Team.append_log Team.put_file Team.append_entry
         Team.set_page_mapping team_registered];
    rewrite team_drawn_files, team_drawn_log, team_drawn_entries;
    (split; [reflexivity|]); (split; [apply lookup_insert_eq|]);
    (split; [apply last_snoc|]); (split; [reflexivity|]);
    by rewrite <- app_assoc.
Qed.

Lemma unwritable_page_still_listed_witness :
  let st := Team.init false in
  let filename :=
    Team.create_notion_filename st (u "A") (team_token full_disk_world st) in
  let run := Team.process_page_file full_disk_world forward_reference notes_parts
               "pages" (u "A", Content (u "x")) st in
  let page :=
    metadata_header (u "A") [] (team_page_type notes_parts "pages" (u "A"))
      (Team.extract_summary (u "x"))
    ++ Team.convert_links (final run) (u "x") in
  outcome run = Val tt /\
  Team.page_mapping (final run) !! u "A"
  = Some (filename, team_token full_disk_world st) /\
  last (Team.database_entries (final run))
  = Some (team_entry (u "A") [] (team_page_type notes_parts "pages" (u "A"))
            (Team.extract_summary (u "x"))) /\
  Team.database_files (final run)
  = match write_progress full_disk_world filename with
    | None => Team.database_files st
    | Some n => <[filename := take n page]> (Team.database_files st)
    end /\
  Team.conversion_log (final run)
  = Team.conversion_log st ++
    [team_write_failure_entry filename (u "[Errno 28] No space left on device");
     team_done_entry (u "A") (u "A") (team_page_type notes_parts "pages" (u "A"))].
Proof.
  apply (unwritable_page_still_listed full_disk_world forward_reference
           notes_parts "pages" (u "A") (u "x") (Team.init false) (u "A") []
           (u "[Errno 28] No space left on device")).
  - vm_compute. discriminate.
  - vm_compute. reflexivity.
  - vm_compute. reflexivity.
Defined.

(** ** Links of the tabular converter *)

(** X13.  With identifiers enabled, the link that the tabular converter
    writes for a registered page does not name the page's file.  The file
    is called [<clean name> <token>.md]; the target of the link is the
    encoded stem of that name, which already ends with the token, followed
    by [%20], the token once more, and [.md]. *)
Theorem team_link_repeats_token (self : Team.converter) (whole : text)
  (gs : list text) (display token : text) :
  Team.with_uuid self = true ->
  token <> [] ->
  Team.page_mapping self !! group gs 1
  = Some (Team.create_notion_filename self display token, token) ->
  Team.replace_page_link self whole gs
  = u "[" ++ group gs 1 ++ u "](" ++
    quote (u "/") (sanitize_filename display) ++ u "%20" ++
    quote (u "/") token ++ u "%20" ++ token ++ u ".md)" /\
  quote (u "/") (Team.create_notion_filename self display token)
  = quote (u "/") (sanitize_filename display) ++ u "%20" ++
    quote (u "/") token ++ u ".md".
Proof.
  intros Hflag Htoken Hlook.
  assert (Hname : Team.create_notion_filename self display token
                  = (sanitize_filename display ++ u " " ++ token) ++ u ".md").
  { unfold Team.create_notion_filename. rewrite Hflag.
    by rewrite <- !app_assoc. }
  pose proof quote_space as Hsp.
  split.
  - unfold Team.replace_page_link. rewrite Hlook, Hname, without_extension.
    rewrite Hflag, (bool_decide_eq_false_2 _ Htoken). cbn [andb negb].
    rewrite !quote_app, Hsp. by rewrite <- !app_assoc.
  - rewrite Hname, !quote_app, Hsp, quote_md. by rewrite <- !app_assoc.
Qed.

Lemma team_link_repeats_token_witness :
  let self :=
    Team.set_page_mapping (u "A") (u "A 0f.md", u "0f") (Team.init true) in
  Team.replace_page_link self (u "[[A]]") [u "A"]
  = u "[" ++ group [u "A"] 1 ++ u "](" ++
    quote (u "/") (sanitize_filename (u "A")) ++ u "%20" ++
    quote (u "/") (u "0f") ++ u "%20" ++ u "0f" ++ u ".md)" /\
  quote (u "/") (Team.create_notion_filename self (u "A") (u "0f"))
  = quote (u "/") (sanitize_filename (u "A")) ++ u "%20" ++
    quote (u "/") (u "0f") ++ u ".md".
Proof.
  apply (team_link_repeats_token
           (Team.set_page_mapping (u "A") (u "A 0f.md", u "0f") (Team.init true))
           (u "[[A]]") [u "A"] (u "A") (u "0f")).
  - reflexivity.
  - vm_compute. discriminate.
  - vm_compute. reflexivity.
Defined.

(** X14.  Without identifiers, the target of the link that the tabular
    converter writes for a registered page is the percent-encoded name of
    the page's file. *)
Theorem team_link_names_file (self : Team.converter) (whole : text)
  (gs : list text) (display token : text) :
  Team.with_uuid self = false ->
  Team.page_mapping self !! group gs 1
  = Some (Team.create_notion_filename self display token, token) ->
  Team.replace_page_link self whole gs
  = u "[" ++ group gs 1 ++ u "](" ++
    quote (u "/") (Team.create_notion_filename self display token) ++ u ")".
Proof.
  intros Hflag Hlook.
  assert (Hname : Team.create_notion_filename self display token
                  = sanitize_filename display ++ u ".md").
  { unfold Team.create_notion_filename. by rewrite Hflag. }
  assert (Hend : u ".md)" = u ".md" ++ u ")") by (vm_compute; reflexivity).
  unfold Team.replace_page_link. rewrite Hlook, Hname, without_extension.
  rewrite Hflag. cbn [andb].
  rewrite quote_app, quote_md, Hend. by rewrite <- !app_assoc.
Qed.

Lemma team_link_names_file_witness :
  let self := Team.set_page_mapping (u "A") (u "A.md", []) (Team.init false) in
  Team.replace_page_link self (u "[[A]]") [u "A"]
  = u "[" ++ group [u "A"] 1 ++ u "](" ++
    quote (u "/") (Team.create_notion_filename self (u "A") []) ++ u ")".
Proof.
  apply (team_link_names_file
           (Team.set_page_mapping (u "A") (u "A.md", []) (Team.init false))
           (u "[[A]]") [u "A"] (u "A") []).
  - reflexivity.
  - vm_compute. reflexivity.
Defined.

(** ** Dates *)

(** X15.  A key that begins with a date is displayed by cutting it at its
    underscores.  If nothing with an underscore follows the date, both
    converters display year, month and the rest of the key as the day, and
    the tabular converter gives the start date month/day/year; if an
    underscore follows, the unpacking into three names fails and both raise
    [ValueError]. *)
Theorem dated_key_display (y1 y2 y3 y4 m1 m2 d1 d2 : N) (rest : text)
  (st : Team.converter) :
  forallb is_digit [y1; y2; y3; y4; m1; m2; d1; d2] = true ->
  let key := dated_key y1 y2 y3 y4 m1 m2 d1 d2 rest in
  let year := [y1; y2; y3; y4] in
  let month := [m1; m2] in
  let day := [d1; d2] ++ rest in
  let chinese := year ++ u "年" ++ month ++ u "月" ++ day ++ u "日" in
  journal_display key
  = (if decide (95 ∈ rest) then Exc too_many_values else Val chinese) /\
  outcome (Team.convert_date_format key st)
  = (if decide (95 ∈ rest) then Exc too_many_values
     else Val (chinese, month ++ u "/" ++ day ++ u "/" ++ year)).
Proof.
  intros H. cbv zeta.
  destruct (dated_key_split y1 y2 y3 y4 m1 m2 d1 d2 rest H) as (tail & Hsplit & Htail).
  rewrite TeamFacts.convert_date_format_pure. unfold outcome. cbn [fst].
  unfold journal_display, Notion.journal_page_name, Team.convert_date_format,
    re_match, outcome.
  rewrite (dated_key_matches _ _ _ _ _ _ _ _ rest H), !run_bind.
  change (u "_") with [95] in *. rewrite Hsplit.
  destruct (decide (95 ∈ rest)) as [Hin|Hout].
  - destruct (split_on_with 95 rest Hin) as (a & b & c & E).
    rewrite (Htail _ _ E). split; reflexivity.
  - rewrite (Htail _ _ (split_on_without 95 rest Hout)). split; reflexivity.
Qed.

Lemma dated_key_display_witness :
  let key := dated_key 50 48 50 53 48 49 48 49 (u "-draft") in
  let year := [50; 48; 50; 53] in
  let month := [48; 49] in
  let day := [48; 49] ++ u "-draft" in
  let chinese := year ++ u "年" ++ month ++ u "月" ++ day ++ u "日" in
  journal_display key
  = (if decide (95 ∈ u "-draft") then Exc too_many_values else Val chinese) /\
  outcome (Team.convert_date_format key (Team.init false))
  = (if decide (95 ∈ u "-draft") then Exc too_many_values
     else Val (chinese, month ++ u "/" ++ day ++ u "/" ++ year)).
Proof.
  apply (dated_key_display 50 48 50 53 48 49 48 49 (u "-draft") (Team.init false)).
  vm_compute. reflexivity.
Defined.

(** X16.  A name that begins with a date in the Chinese notation is kept
    as display name by [convert_date_format], with the start date
    month/day/year read off its digits; nothing is raised.  The display
    name that the function gives a key which is exactly a date is such a
    name, and converting it again gives the same name and the same start
    date. *)
Theorem chinese_date_display (y1 y2 y3 y4 m1 m2 d1 d2 : N) (rest : text)
  (st : Team.converter) :
  forallb is_digit [y1; y2; y3; y4; m1; m2; d1; d2] = true ->
  let start := [m1; m2] ++ u "/" ++ [d1; d2] ++ u "/" ++ [y1; y2; y3; y4] in
  outcome (Team.convert_date_format (chinese_dated y1 y2 y3 y4 m1 m2 d1 d2 rest) st)
  = Val (chinese_dated y1 y2 y3 y4 m1 m2 d1 d2 rest, start) /\
  outcome (Team.convert_date_format (dated_key y1 y2 y3 y4 m1 m2 d1 d2 []) st)
  = Val (chinese_dated y1 y2 y3 y4 m1 m2 d1 d2 [], start).
Proof.
  intros H. cbv zeta. split.
  - rewrite TeamFacts.convert_date_format_pure. unfold outcome. cbn [fst].
    unfold Team.convert_date_format.
    rewrite (chinese_dated_not_key _ _ _ _ _ _ _ _ rest H).
    rewrite (chinese_dated_groups _ _ _ _ _ _ _ _ rest H).
    reflexivity.
  - destruct (dated_key_display y1 y2 y3 y4 m1 m2 d1 d2 [] st H) as [_ Hd].
    cbv zeta in Hd. rewrite Hd.
    rewrite decide_False by apply not_elem_of_nil.
    unfold chinese_dated. by rewrite !app_nil_r.
Qed.

Lemma chinese_date_display_witness :
  let start := [48; 49] ++ u "/" ++ [48; 49] ++ u "/" ++ [50; 48; 50; 53] in
  outcome (Team.convert_date_format
             (chinese_dated 50 48 50 53 48 49 48 49 (u " notes")) (Team.init false))
  = Val (chinese_dated 50 48 50 53 48 49 48 49 (u " notes"), start) /\
  outcome (Team.convert_date_format
             (dated_key 50 48 50 53 48 49 48 49 []) (Team.init false))
  = Val (chinese_dated 50 48 50 53 48 49 48 49 [], start).
Proof.
  apply (chinese_date_display 50 48 50 53 48 49 48 49 (u " notes") (Team.init false)).
  vm_compute. reflexivity.
Defined.

(** ** Writing the pages *)

(** X17.  [convert_file] never raises.  It keeps registry, flag and asset
    mapping and only appends to the log.  Of the files it touches the target
    alone, and only for a source that could be read: the target then holds
    the body with cross-references, images and LogSeq syntax converted
    against the registry when the write succeeds, the characters of that
    text written so far when the write fails after the file was opened, and
    is as it was when the file cannot be opened.  For a source that cannot
    be read no file changes. *)
Theorem convert_file_contained (w : world) (e : export) (dir : string)
  (f : text * source) (target : text) (st : Notion.converter) :
  let run := Notion.convert_file w e dir f target st in
  let files := Notion.output_files st in
  outcome run = Val tt /\
  same_settings (final run) st /\
  Notion.conversion_log st `prefix_of` Notion.conversion_log (final run) /\
  Notion.output_files (final run)
  = match f.2 with
    | Unreadable _ => files
    | Content body =>
      let converted := notion_written (Notion.page_mapping st) body in
      match write_error w target, write_progress w target with
      | None, _ => <[target := converted]> files
      | Some _, Some n => <[target := take n converted]> files
      | Some _, None => files
      end
    end.
Proof.
  cbv zeta. rewrite convert_file_run.
  destruct (notion_file_step_effect w e dir f target st)
    as (st' & more & -> & Hset & Hlog & Hfiles).
  unfold outcome, final. cbn [fst snd].
  split; [reflexivity|]. split; [exact Hset|]. split.
  - rewrite Hlog. by exists more.
  - rewrite Hfiles. unfold notion_files_after, put_if.
    destruct (f.2) as [body|why]; [|reflexivity].
    by destruct (write_error w target), (write_progress w target).
Qed.

(** X18.  [convert_all_pages] never raises and never touches the registry:
    it keeps flag, registry and asset mapping and only appends to the log.
    Every file that it leaves in the output directory was there before, or
    is what the write of a transformation left: the transformation, against
    the registry, of a readable document of the export whose registry entry
    names that file, whole when the write succeeded and cut off after the
    characters written when it failed. *)
Theorem pages_written_from_registry (w : world) (e : export)
  (st : Notion.converter) :
  let run := Notion.convert_all_pages w e st in
  outcome run = Val tt /\
  same_settings (final run) st /\
  Notion.conversion_log st `prefix_of` Notion.conversion_log (final run) /\
  forall name data,
    Notion.output_files (final run) !! name = Some data ->
    Notion.output_files st !! name = Some data \/
    written_from w e (Notion.page_mapping st) name data.
Proof.
  cbv zeta.
  set (I := fun s : Notion.converter =>
              same_settings s st /\
              Notion.conversion_log st `prefix_of` Notion.conversion_log s /\
              forall name data,
                Notion.output_files s !! name = Some data ->
                Notion.output_files st !! name = Some data \/
                written_from w e (Notion.page_mapping st) name data).
  assert (Hstep : forall dir files, files ⊆ pages e ++ journals e ->
            forall f s, f ∈ files -> I s ->
              exists s', Notion.convert_one w e dir f s = (Val tt, s') /\ I s').
  { intros dir files Hsub [key src] s Hin (Hset & Hlog & Hfiles).
    rewrite convert_one_run. cbn [fst].
    destruct (Notion.page_mapping s !! key) as [[fn tok]|] eqn:Hlook.
    2:{ exists s. split; [reflexivity|]. by split. }
    destruct (notion_file_step_effect w e dir (key, src) fn s)
      as (s' & more & -> & Hset' & Hlog' & Hfiles').
    exists s'. split; [reflexivity|]. unfold I. split; [|split].
    - by apply (same_settings_trans _ s).
    - rewrite Hlog'. by apply prefix_app_r.
    - intros name data Hname. rewrite Hfiles' in Hname.
      unfold notion_files_after in Hname. cbn [snd] in Hname.
      destruct src as [body|why]; [|by apply Hfiles].
      destruct Hset as (_ & Hreg & _). rewrite Hreg in Hname, Hlook.
      destruct (decide (fn = name)) as [<-|Hne].
      + apply lookup_put_if_left in Hname as [Hold|Hleft]; [by apply Hfiles|].
        right. exists key, body, tok. split; [by apply Hsub|]. by split.
      + rewrite lookup_put_if_ne in Hname by done. by apply Hfiles. }
  assert (H0 : I (Notion.append_log (u "开始转换页面内容...") st)).
  { unfold I. split; [by repeat split|]. split; [by apply prefix_app_r|].
    intros name data Hname. by left. }
  assert (Hrun : exists s2, Notion.convert_all_pages w e st = (Val tt, s2) /\ I s2).
  { unfold Notion.convert_all_pages.
    rewrite run_bind. unfold Notion.log at 1, modify at 1. rewrite run_bind.
    destruct (for_each_returns I (pages e) (Notion.convert_one w e "pages")
                (Hstep "pages"%string (pages e)
                   (fun x Hx => proj2 (elem_of_app _ _ x) (or_introl Hx))) _ H0)
      as (s1 & -> & H1).
    destruct (for_each_returns I (journals e) (Notion.convert_one w e "journals")
                (Hstep "journals"%string (journals e)
                   (fun x Hx => proj2 (elem_of_app _ _ x) (or_intror Hx))) _ H1)
      as (s2 & -> & H2).
    by exists s2. }
  destruct Hrun as (s2 & -> & Hset & Hlog & Hfiles).
  unfold outcome, final. cbn [fst snd].
  split; [reflexivity|]. split; [exact Hset|]. split; [exact Hlog|exact Hfiles].
Qed.

(** ** Assets *)

(** X19.  [copy_and_convert_assets] flattens the asset directory: when it
    returns, the asset mapping sends every asset file, under its full
    source path, to the file of the same name directly below the [assets]
    directory of the output; that name holds no slash, so two assets with
    the same name in different directories share one destination.
    Registry and page files are left alone. *)
Theorem assets_are_flattened (w : world) (e : export) (files : list text)
  (st st' : Notion.converter) (r : res unit) :
  assets e = Some files ->
  Notion.copy_and_convert_assets w e st = (r, st') ->
  (forall rel, rel ∈ files ->
     Notion.asset_mapping st' !! asset_source e rel
     = Some (output_path w ++ u "/assets/" ++ basename rel) /\
     47 ∉ basename rel) /\
  Notion.page_mapping st' = Notion.page_mapping st /\
  Notion.output_files st' = Notion.output_files st.
Proof.
  intros Hassets Hrun. unfold Notion.copy_and_convert_assets in Hrun.
  rewrite run_bind in Hrun. unfold Notion.log at 1, modify at 1 in Hrun.
  rewrite Hassets in Hrun.
  destruct (copy_assets_loop w e files
              (Notion.append_log (u "处理资源文件...") st))
    as (s1 & Hloop & Hreg & Hfiles & Hin & _).
  unfold asset_source, asset_destination in Hloop.
  rewrite Hloop in Hrun. apply pair_equal_spec in Hrun as [_ <-].
  split; [|by split].
  intros rel Hrel. split; [by apply Hin|apply basename_no_slash].
Qed.

Lemma assets_are_flattened_witness :
  let st' := final (Notion.copy_and_convert_assets calm_world nested_assets
                      (Notion.init false)) in
  (forall rel, rel ∈ [u "a/logo.png"; u "b/logo.png"] ->
     Notion.asset_mapping st' !! asset_source nested_assets rel
     = Some (output_path calm_world ++ u "/assets/" ++ basename rel) /\
     47 ∉ basename rel) /\
  Notion.page_mapping st' = Notion.page_mapping (Notion.init false) /\
  Notion.output_files st' = Notion.output_files (Notion.init false).
Proof.
  apply (assets_are_flattened calm_world nested_assets
           [u "a/logo.png"; u "b/logo.png"] (Notion.init false) _
           (outcome (Notion.copy_and_convert_assets calm_world nested_assets
                       (Notion.init false)))).
  - reflexivity.
  - apply surjective_pairing.
Defined.

(** ** Link targets of the page-per-file converter *)

(** X20.  For a name that the registry knows, the replacement function of
    [convert_links] writes a link to the percent-encoded file name and
    leaves the object alone: nothing is logged.  The target holds no
    space, no parenthesis and no slash, whatever the file name, so that it
    cannot end the link early nor point outside the directory of the
    page. *)
Theorem resolved_link_target (whole : text) (gs : list text)
  (self : Notion.converter) (notion_filename token : text) :
  Notion.page_mapping self !! group gs 1 = Some (notion_filename, token) ->
  Notion.replace_page_link whole gs self
  = (Val (u "[" ++ group gs 1 ++ u "](" ++ quote [] notion_filename ++ u ")"),
     self) /\
  safe_target (quote [] notion_filename).
Proof.
  intros Hlook. split; [|apply quote_safe_target].
  unfold Notion.replace_page_link. rewrite run_bind. cbn [get].
  rewrite Hlook. reflexivity.
Qed.

Lemma resolved_link_target_witness :
  let self := Notion.set_page_mapping (u "A") (u "A (1).md", []) (Notion.init false) in
  Notion.replace_page_link (u "[[A]]") [u "A"] self
  = (Val (u "[" ++ group [u "A"] 1 ++ u "](" ++ quote [] (u "A (1).md") ++ u ")"),
     self) /\
  safe_target (quote [] (u "A (1).md")).
Proof.
  apply (resolved_link_target (u "[[A]]") [u "A"]
           (Notion.set_page_mapping (u "A") (u "A (1).md", []) (Notion.init false))
           (u "A (1).md") []).
  vm_compute. reflexivity.
Defined.

(** X21.  The replacement function of [convert_image_links] drops the
    directories of an image path that mentions [assets/]: the new target
    is the percent-encoded base name of the path, which holds no slash (nor
    space nor parenthesis); it therefore names a file beside the page, not
    one below [assets].  An image whose path does not mention [assets/] is
    left as it is. *)
Theorem image_target_is_base_name (whole : text) (gs : list text) :
  let image_path := group gs 2 in
  let target := quote [] (basename image_path) in
  Notion.replace_image_link whole gs
  = (if starts_with (u "../assets/") image_path || contains (u "assets/") image_path
     then u "![" ++ group gs 1 ++ u "](" ++ target ++ u ")"
     else whole) /\
  safe_target target /\ 47 ∉ basename image_path.
Proof.
  cbv zeta. split; [reflexivity|].
  split; [apply quote_safe_target|apply basename_no_slash].
Qed.

(** X22.  An image link, alone in a text, whose path mentions [assets/] is
    rewritten by [convert_image_links] to the same link with the
    percent-encoded base name of the path as target; if the path does not
    mention [assets/], the link is kept as it is. *)
Theorem image_link_rewritten (alt path : text) :
  forallb not_bracket alt = true ->
  forallb not_paren path = true ->
  path <> [] ->
  Notion.convert_image_links (image_link alt path)
  = if mentions_assets path
    then image_link alt (quote [] (basename path))
    else image_link alt path.
Proof.
  intros Halt Hpath Hne.
  unfold Notion.convert_image_links, re_sub.
  rewrite re_image_pattern, (scan_image_link alt path Halt Hpath Hne).
  cbn [map render concat]. rewrite app_nil_r.
  unfold Notion.replace_image_link.
  cbn [group lookup list_lookup Nat.sub default]. unfold id.
  fold (mentions_assets path). destruct (mentions_assets path); [|reflexivity].
  assert (E1 : u "![" = [33; 91]) by (vm_compute; reflexivity).
  assert (E2 : u "](" = [93; 40]) by (vm_compute; reflexivity).
  assert (E3 : u ")" = [41]) by (vm_compute; reflexivity).
  rewrite E1, E2, E3. reflexivity.
Qed.

Lemma image_link_rewritten_witness :
  Notion.convert_image_links (image_link (u "logo") (u "../assets/img/logo 1.png"))
  = if mentions_assets (u "../assets/img/logo 1.png")
    then image_link (u "logo") (quote [] (basename (u "../assets/img/logo 1.png")))
    else image_link (u "logo") (u "../assets/img/logo 1.png").
Proof.
  apply image_link_rewritten.
  - vm_compute. reflexivity.
  - vm_compute. reflexivity.
  - vm_compute. discriminate.
Defined.

(** ** The run of the page-per-file converter *)

(** X23.  When two documents of an export are sent to the same file, the
    last one wins: after [convert_all_pages] the file holds the
    transformation of the last document, in the order of the run (pages,
    then journals, each in listing order), that the registry sends to this
    name; whatever an earlier document wrote there is lost. *)
Theorem last_document_wins (w : world) (e : export) (st : Notion.converter)
  (before after : list (string * (text * source))) (dir : string)
  (key body name token : text) :
  documents e = before ++ [(dir, (key, Content body))] ++ after ->
  Notion.page_mapping st !! key = Some (name, token) ->
  write_error w name = None ->
  (forall d token', d ∈ after ->
     Notion.page_mapping st !! d.2.1 <> Some (name, token')) ->
  Notion.output_files (final (Notion.convert_all_pages w e st)) !! name
  = Some (notion_written (Notion.page_mapping st) body).
Proof.
  intros Hdocs Hkey Hw Hafter.
  rewrite convert_all_pages_documents, Hdocs, for_each_app.
  destruct (documents_keep_registry w e before
              (Notion.append_log (u "开始转换页面内容...") st))
    as (s1 & -> & Hreg1).
  cbn [Notion.page_mapping Notion.append_log] in Hreg1.
  rewrite for_each_app, for_each_cons. cbn [for_each fst snd].
  destruct (convert_one_effect w e dir (key, Content body) s1)
    as (s2 & -> & Hreg2 & _ & Hwrite).
  rewrite run_ret.
  destruct (documents_leave_alone w e after name s2) as (s3 & -> & _ & Hfiles).
  { intros d token' Hd. rewrite Hreg2, Hreg1. by apply Hafter. }
  unfold final. cbn [snd]. rewrite Hfiles.
  rewrite <- Hreg1. apply (Hwrite name token body); [|reflexivity|exact Hw].
  cbn [fst]. by rewrite Hreg1.
Qed.

Lemma last_document_wins_witness :
  let st := final (Notion.scan_pages calm_world colliding_names (Notion.init false)) in
  Notion.output_files
    (final (Notion.convert_all_pages calm_world colliding_names st)) !! u "a_b.md"
  = Some (notion_written (Notion.page_mapping st) (u "two")).
Proof.
  apply (last_document_wins calm_world colliding_names
           (final (Notion.scan_pages calm_world colliding_names (Notion.init false)))
           [("pages"%string, (u "a:b", Content (u "one")))] [] "pages"
           (u "a_b") (u "two") (u "a_b.md") []).
  - reflexivity.
  - vm_compute. reflexivity.
  - reflexivity.
  - intros d token' Hd. by apply elem_of_nil in Hd.
Defined.

(** X24.  [convert] reports how it ended in the last entry of the log: if
    it raises, the last entry is the message of the exception it raises
    (the exception is logged before it is raised again); if it returns,
    the last entry is the closing rule of fifty equals signs. *)
Theorem convert_last_entry (w : world) (e : export) (source_name : text)
  (st : Notion.converter) :
  let run := Notion.convert w e source_name st in
  last (Notion.conversion_log (final run))
  = Some (match outcome run with
          | Exc err => notion_error_entry err
          | Val _ => Notion.rule
          end).
Proof.
  cbv zeta. unfold Notion.convert.
  repeat (rewrite run_bind; unfold Notion.log at 1, modify at 1).
  unfold try_except.
  match goal with
  | |- context [match ?body ?s with _ => _ end] =>
    change (last (Notion.conversion_log
                    (final match body s with
                           | (Val a, s') => (Val a, s')
                           | (Exc err, s') =>
                             (Notion.log (u "转换过程中发生错误: " ++ exn_str err);;
                              raise err) s'
                           end))
            = Some match outcome match body s with
                                 | (Val a, s') => (Val a, s')
                                 | (Exc err, s') =>
                                   (Notion.log (u "转换过程中发生错误: " ++ exn_str err);;
                                    raise err) s'
                                 end with
                   | Exc err => notion_error_entry err
                   | Val _ => Notion.rule
                   end);
    destruct (body s) as [[[]|err] s'] eqn:Hbody
  end.
  - repeat (apply bind_val_inv in Hbody as (? & ? & _ & Hbody)).
    unfold Notion.log, modify in Hbody. apply pair_equal_spec in Hbody as [_ <-].
    unfold final, outcome. cbn [fst snd Notion.conversion_log Notion.append_log].
    apply last_snoc.
  - rewrite run_bind. unfold Notion.log, modify, raise, notion_error_entry.
    unfold final, outcome. cbn [fst snd Notion.conversion_log Notion.append_log].
    apply last_snoc.
Qed.

(** X25.  [convert] of the tabular converter raises exactly when the scan
    of the pages raises, whatever fails to be copied or written: the scan
    starts in the object that [convert] was called on, up to the log and the
    registered assets.  When the scan raises, its exception is the one that
    [convert] raises, it is the last entry of the log, and no table, main
    page or report has been written.  Otherwise [convert] returns and the
    log ends with the closing rule. *)
Theorem team_convert_raises_with_scan (w : world) (e : export)
  (logseq_parts : list text) (mkdir_error : option text)
  (copy_error : text -> option text)
  (csv_text : list text -> list Team.entry -> text) (now : nat -> text)
  (self : TeamRun.converter) :
  let run :=
    TeamRun.convert w e logseq_parts mkdir_error copy_error csv_text now self in
  exists s,
    steady self s /\
    match outcome (Team.scan_and_convert_pages w e logseq_parts (TeamRun.core s)) with
    | Exc err =>
      outcome run = Exc err /\
      unwritten self (final run) /\
      last (Team.conversion_log (TeamRun.core (final run)))
      = Some (team_error_entry err)
    | Val _ =>
      outcome run = Val tt /\
      last (Team.conversion_log (TeamRun.core (final run)))
      = Some TeamRun.rule
    end.
Proof.
  cbv zeta.
  destruct (team_convert_run w e logseq_parts mkdir_error copy_error csv_text
              now self) as (s & [Hs Hu] & Hrun).
  exists s. split; [exact Hs|]. cbv zeta in Hrun.
  destruct (outcome (Team.scan_and_convert_pages w e logseq_parts (TeamRun.core s)))
    as [[]|err].
  - destruct Hrun as (s' & content & -> & _ & Hlast & _). by split.
  - rewrite Hrun. unfold outcome, final. cbn [fst snd]. split; [reflexivity|].
    split.
    + destruct Hu as [Hf Hr]. split; [exact Hf|exact Hr].
    + cbn [TeamRun.core TeamRun.set_core Team.conversion_log Team.append_log].
      apply last_snoc.
Qed.

(** X26.  After a [convert] of the tabular converter that returns, the
    database table and each of the six view tables that could be written
    hold the same text: the rows of all database entries.  No view selects
    among the rows. *)
Theorem tables_repeat_database (w : world) (e : export)
  (logseq_parts : list text) (mkdir_error : option text)
  (copy_error : text -> option text)
  (csv_text : list text -> list Team.entry -> text) (now : nat -> text)
  (self : TeamRun.converter) (suffix : text) :
  let run :=
    TeamRun.convert w e logseq_parts mkdir_error copy_error csv_text now self in
  outcome run = Val tt ->
  suffix ∈ u ".csv" :: view_suffixes ->
  write_error w (table_path self suffix) = None ->
  TeamRun.output_files (final run) !! table_path self suffix
  = Some (csv_text TeamRun.headers
            (Team.database_entries (TeamRun.core (final run)))).
Proof.
  cbv zeta. intros Hval Hin Hw.
  destruct (team_convert_run w e logseq_parts mkdir_error copy_error csv_text
              now self) as (s & [Hs Hu] & Hrun).
  cbv zeta in Hrun.
  destruct (outcome (Team.scan_and_convert_pages w e logseq_parts (TeamRun.core s)))
    as [[]|err].
  2: { rewrite Hrun in Hval. discriminate Hval. }
  destruct Hrun as (s' & content & Hrun & Hsteady & _ & Hfiles).
  rewrite Hrun. unfold final. cbn [snd]. rewrite Hfiles.
  set (a := TeamRun.set_core _ s) in *.
  assert (Hpath : table_path self suffix = table_path a suffix).
  { destruct Hs as (_ & _ & _ & _ & _ & _ & Hm & Hd).
    unfold table_path, a.
    cbn [TeamRun.set_core TeamRun.main_page_name TeamRun.database_name].
    by rewrite Hm, Hd. }
  assert (Hentries : Team.database_entries (TeamRun.core s')
                     = Team.database_entries (TeamRun.core a)).
  { symmetry. apply Hsteady. }
  rewrite Hentries, Hpath. rewrite Hpath in Hw.
  apply elem_of_cons in Hin as [->|Hin].
  - apply write_all_keeps; [exact Hw|]. rewrite lookup_put_if_ne.
    + by apply lookup_put_if_eq.
    + unfold table_path. intros Heq. apply app_inv_head in Heq.
      by apply md_not_below in Heq.
  - apply write_all_written; [|exact Hw].
    by apply elem_of_map_1.
Qed.

Lemma tables_repeat_database_witness :
  let run :=
    TeamRun.convert calm_world some_assets notes_parts None sample_copy_error
      sample_csv sample_now sample_team in
  TeamRun.output_files (final run) !! table_path sample_team (u "_tasks.csv")
  = Some (sample_csv TeamRun.headers
            (Team.database_entries (TeamRun.core (final run)))).
Proof.
  apply (tables_repeat_database calm_world some_assets notes_parts None
           sample_copy_error sample_csv sample_now sample_team (u "_tasks.csv")).
  - vm_compute. reflexivity.
  - unfold view_suffixes. do 4 (apply elem_of_cons; right).
    apply elem_of_cons. by left.
  - reflexivity.
Defined.

(** X27.  [process_assets] never raises.  It registers exactly the assets
    that it could copy, each under its path below the asset directory of
    the database, [<main page>/<database>/assets/], with the sub-directories
    it had in the export; an asset that cannot be copied is skipped and the
    others are still copied; when the target directory cannot be made,
    nothing is registered. *)
Theorem assets_keep_relative_paths (w : world) (e : export)
  (mkdir_error : option text) (copy_error : text -> option text)
  (self : TeamRun.converter) (files : list text) :
  assets e = Some files ->
  let run := TeamRun.process_assets w e mkdir_error copy_error self in
  outcome run = Val tt /\
  forall rel,
    TeamRun.asset_mapping (final run) !! rel
    = if bool_decide (mkdir_error = None /\ rel ∈ files /\ copy_error rel = None)
      then Some (TeamRun.database_rel self ++ u "/assets/" ++ rel)
      else TeamRun.asset_mapping self !! rel.
Proof.
  intros Hassets. cbv zeta. unfold TeamRun.process_assets. rewrite Hassets.
  rewrite run_bind. cbn [get].
  rewrite run_bind, team_log_run, run_bind, team_log_run, run_bind, team_log_run.
  destruct mkdir_error as [why|].
  - rewrite team_log_run. unfold outcome, final. cbn [fst snd].
    split; [reflexivity|]. intros rel.
    rewrite bool_decide_eq_false_2; [reflexivity|]. by intros [? _].
  - rewrite run_bind, team_log_run.
    match goal with
    | |- context [for_each files ?body ?s1] =>
      destruct (team_copy_loop copy_error
                  (fun rel => u "准备复制: " ++
                     (TeamRun.assets_dir e ++ u "/" ++ rel) ++ u " -> " ++
                     (TeamRun.database_dir w self ++ u "/assets") ++ u "/" ++ rel)
                  (fun rel why => u "复制资源文件失败 " ++
                     (TeamRun.assets_dir e ++ u "/" ++ rel) ++ u ": " ++ why)
                  (fun rel => TeamRun.database_rel self ++ u "/assets/" ++ rel)
                  (fun rel => u "资源文件复制成功: " ++ rel)
                  files s1) as (s' & E & Hs')
    end.
    cbv zeta. rewrite E. unfold outcome, final. cbn [fst snd].
    split; [reflexivity|]. intros rel. rewrite Hs'.
    cbn [TeamRun.asset_mapping TeamRun.set_core].
    destruct (decide (rel ∈ files /\ copy_error rel = None)) as [[Hin Hc]|Hn].
    + by rewrite !bool_decide_eq_true_2.
    + rewrite !bool_decide_eq_false_2; [reflexivity| |exact Hn].
      intros (_ & Hin & Hc). by apply Hn.
Qed.

Lemma assets_keep_relative_paths_witness :
  let run :=
    TeamRun.process_assets calm_world some_assets None sample_copy_error
      sample_team in
  outcome run = Val tt /\
  forall rel,
    TeamRun.asset_mapping (final run) !! rel
    = if bool_decide ((None : option text) = None /\
                      rel ∈ [u "a/logo.png"; u "a/broken.png"; u "b/logo.png"] /\
                      sample_copy_error rel = None)
      then Some (TeamRun.database_rel sample_team ++ u "/assets/" ++ rel)
      else TeamRun.asset_mapping sample_team !! rel.
Proof.
  apply (assets_keep_relative_paths calm_world some_assets None
           sample_copy_error sample_team
           [u "a/logo.png"; u "a/broken.png"; u "b/logo.png"]).
  reflexivity.
Defined.

(** ** References that the registry does not resolve *)

(** X28.  [convert_links] of the page-per-file converter never raises on a
    reference that the registry does not hold.  For each such occurrence
    that the left-to-right scan finds, the cross-reference step puts the
    anchor-style placeholder in its place and logs exactly one warning,
    between the warnings of the occurrences before and after it; what
    [convert_links] returns is that text after the image step, and the
    registry is left alone. *)
Theorem missing_page_gets_anchor (content : text)
  (before after : list piece) (whole : text) (gs : list text)
  (self : Notion.converter) :
  scan re_page_link content = before ++ Hit whole gs :: after ->
  Notion.page_mapping self !! group gs 1 = None ->
  let registry := Notion.page_mapping self in
  let run := Notion.convert_links content self in
  outcome run
  = Val (Notion.convert_image_links
           (concat (map (link_piece registry) before)
            ++ anchor_placeholder (group gs 1)
            ++ concat (map (link_piece registry) after))) /\
  Notion.conversion_log (final run)
  = Notion.conversion_log self
    ++ map miss_warning (misses registry before)
    ++ [miss_warning (group gs 1)]
    ++ map miss_warning (misses registry after) /\
  Notion.page_mapping (final run) = registry.
Proof.
  intros Hscan Hmiss. cbv zeta.
  rewrite NotionFacts.convert_links_run, Hscan.
  unfold outcome, final. cbn [fst snd].
  rewrite NotionFacts.logged_log, NotionFacts.logged_registry.
  assert (Hm : forall ps1 ps2,
             misses (Notion.page_mapping self) (ps1 ++ ps2)
             = misses (Notion.page_mapping self) ps1
               ++ misses (Notion.page_mapping self) ps2).
  { induction ps1 as [|[c|x ys] ps1 IH]; intros ps2; [reflexivity|apply IH|].
    cbn [app misses]. destruct (Notion.page_mapping self !! group ys 1).
    - apply IH.
    - cbn [app]. by rewrite IH. }
  split; [|split; [|reflexivity]].
  - rewrite map_app, concat_app. cbn [map concat link_piece].
    by rewrite Hmiss.
  - rewrite Hm. cbn [misses]. rewrite Hmiss, !map_app. reflexivity.
Qed.

Lemma missing_page_gets_anchor_witness :
  let content := u "a [[X]]" in
  let run := Notion.convert_links content empty_registry in
  outcome run
  = Val (Notion.convert_image_links
           (u "a " ++ anchor_placeholder (u "X") ++ [])) /\
  Notion.conversion_log (final run) = [] ++ [] ++ [miss_warning (u "X")] ++ [] /\
  Notion.page_mapping (final run) = ∅.
Proof.
  exact (missing_page_gets_anchor (u "a [[X]]")
           [Keep 97; Keep 32] [] (u "[[X]]") [u "X"]
           empty_registry eq_refl eq_refl).
Defined.
